(** * avm-version-check: a shallow embedding of [main.go]

    The development follows the layout of the Go source: the runtime
    helpers the program calls ([strings], [strconv], [time]), the
    [go-version] constraint library, the external world (file system, [git],
    [tfconfig]) as an oracle-driven state monad, then [cloneRepo],
    [parseTerraformModule], [checkVersionConstraints], [getLastCommitInfo],
    [processRecord], [summarizeResults] and the worker pool of the [process]
    command; then [readCSV] with [getField], the loop of the [analysis]
    command, and [downloadCSV] with [downloadCSVIfNeeded] over a file system
    of their own. *)

From Stdlib Require Import ZArith Ascii String List Lia Permutation DecimalString.
From stdpp Require Import base gmap strings list.

Local Open Scope string_scope.
Local Open Scope list_scope.
Local Open Scope Z_scope.

(** ** Results of fallible calls: Go's [(value, error)] pairs.
    An [error] is modelled by its message, which is all the program uses. *)

Inductive errorOr (A : Type) : Type :=
| Ok (a : A)
| Err (msg : string).
Arguments Ok {A} a.
Arguments Err {A} msg.

(** ** Go runtime helpers on strings *)

Module Strings.

Definition code (c : ascii) : Z := Z.of_N (N_of_ascii c).

Definition isDigit (c : ascii) : bool := (48 <=? code c) && (code c <=? 57).

Definition digitVal (c : ascii) : Z := code c - 48.

(** ASCII white space as [strings.TrimSpace] sees it: tab, newline, vertical
    tab, form feed, carriage return, space.  Text is a sequence of bytes;
    the white space outside ASCII is not modelled. *)
Definition isSpace (c : ascii) : bool :=
  ((9 <=? code c) && (code c <=? 13)) || (code c =? 32).

(** The class [\s] of package [regexp]: [isSpace] without the vertical tab. *)
Definition isSpaceRe (c : ascii) : bool :=
  isSpace c && negb (code c =? 11).

Fixpoint takeWhile (p : ascii -> bool) (s : string) : string :=
  match s with
  | EmptyString => EmptyString
  | String c s' => if p c then String c (takeWhile p s') else EmptyString
  end.

Fixpoint dropWhile (p : ascii -> bool) (s : string) : string :=
  match s with
  | EmptyString => EmptyString
  | String c s' => if p c then dropWhile p s' else s
  end.

Fixpoint forallb (p : ascii -> bool) (s : string) : bool :=
  match s with
  | EmptyString => true
  | String c s' => p c && forallb p s'
  end.

Definition isEmpty (s : string) : bool :=
  match s with EmptyString => true | _ => false end.

(** [strings.HasPrefix s p] *)
Fixpoint HasPrefix (s p : string) {struct p} : bool :=
  match p, s with
  | EmptyString, _ => true
  | String a p', String b s' => if Ascii.eqb a b then HasPrefix s' p' else false
  | String _ _, EmptyString => false
  end.

(** [strings.Contains s substr] *)
Fixpoint Contains (s substr : string) : bool :=
  HasPrefix s substr ||
  match s with
  | EmptyString => false
  | String _ s' => Contains s' substr
  end.

(** [strings.Split s sep] for a one-byte separator. *)
Fixpoint Split (sep : ascii) (s : string) : list string :=
  match s with
  | EmptyString => [EmptyString]
  | String c s' =>
      if Ascii.eqb c sep then EmptyString :: Split sep s'
      else match Split sep s' with
           | [] => [String c EmptyString]
           | w :: ws => String c w :: ws
           end
  end.

(** [strings.SplitN s sep 2] for a one-byte separator: cut at the first
    separator only. *)
Fixpoint SplitN2 (sep : ascii) (s : string) : list string :=
  match s with
  | EmptyString => [EmptyString]
  | String c s' =>
      if Ascii.eqb c sep then [EmptyString; s']
      else match SplitN2 sep s' with
           | w :: ws => String c w :: ws
           | [] => [String c EmptyString]
           end
  end.

Fixpoint rev_acc (s acc : string) : string :=
  match s with
  | EmptyString => acc
  | String c s' => rev_acc s' (String c acc)
  end.

Definition rev (s : string) : string := rev_acc s EmptyString.

(** [strings.TrimSpace] *)
Definition TrimSpace (s : string) : string :=
  rev (dropWhile isSpace (rev (dropWhile isSpace s))).

(** The value of a run of decimal digits, most significant first. *)
Fixpoint digitsVal (acc : Z) (s : string) : Z :=
  match s with
  | EmptyString => acc
  | String c s' => digitsVal (10 * acc + digitVal c) s'
  end.

(** [%d] of [fmt.Sprintf]. *)
Definition itoa (z : Z) : string := NilZero.string_of_int (Z.to_int z).

(** Zero-padded decimal of a non-negative number, at least [w] digits:
    [appendInt] of package [time]. *)
Fixpoint padLeft (w : nat) (s : string) : string :=
  match w with
  | O => s
  | S w' => if (String.length s <? S w')%nat then padLeft w' ("0" +:+ s) else s
  end.

Definition appendInt (x : Z) (w : nat) : string :=
  if x <? 0 then "-" +:+ padLeft w (itoa (- x)) else padLeft w (itoa x).

End Strings.

Module Strconv.
Import Strings.

(** [strconv.Quote] on text that needs no escaping. *)
Definition quote (s : string) : string :=
  String (ascii_of_nat 34) (s +:+ String (ascii_of_nat 34) EmptyString).

Definition minInt64 : Z := - 2 ^ 63.
Definition maxInt64 : Z := 2 ^ 63 - 1.

(** [strconv.ParseInt s 10 64]: optional sign, then at least one decimal
    digit and nothing else; the value has to fit an int64. *)
Definition ParseInt (s : string) : errorOr Z :=
  let syntaxErr := Err ("strconv.ParseInt: parsing " +:+ quote s +:+ ": invalid syntax") in
  let rangeErr := Err ("strconv.ParseInt: parsing " +:+ quote s +:+ ": value out of range") in
  let '(neg, body) :=
    match s with
    | String "+" r => (false, r)
    | String "-" r => (true, r)
    | _ => (false, s)
    end in
  if isEmpty body || negb (forallb isDigit body) then syntaxErr
  else
    let n := digitsVal 0 body in
    let v := if neg then - n else n in
    if (v <? minInt64) || (maxInt64 <? v) then rangeErr else Ok v.

End Strconv.

(** ** The [github.com/hashicorp/go-version] library *)

Module GoVersion.
Import Strings.

(** Modelled from the spec: the [go-version] package is a dependency of the
    program, named in [go.mod] and absent from the sources.  Section 4.3
    asks for "standard semantic-versioning comparison and range/operator
    rules (e.g., [>=], [~>], exact-pin)" and failure on a syntactically
    invalid operand.  The model covers the dotted numeric versions (an
    optional [v], then numbers separated by dots) and the operators of the
    library; versions with a pre-release or build-metadata suffix are
    outside the modelled grammar and are reported as malformed. *)
Record Version : Type := mkVersion {
  segments : list Z;   (* padded with zeros to at least three *)
  si : nat;            (* number of segments written in the source text *)
  original : string
}.

(** The anchored pattern of a version, an optional [v] and then runs of
    digits separated by single dots: the dot-separated pieces of the numeric
    part, when the text matches. *)
Definition matchVersion (v : string) : option (list string) :=
  let body := match v with String "v" r => r | _ => v end in
  let parts := Split "." body in
  if List.forallb (fun p => negb (isEmpty p) && forallb isDigit p) parts
  then Some parts else None.

Fixpoint parseSegments (parts : list string) : errorOr (list Z) :=
  match parts with
  | [] => Ok []
  | p :: ps =>
      match Strconv.ParseInt p with
      | Err e => Err ("Error parsing version: " +:+ e)
      | Ok n =>
          match parseSegments ps with
          | Err e => Err e
          | Ok ns => Ok (n :: ns)
          end
      end
  end.

Definition padSegments (l : list Z) : list Z :=
  l ++ repeat 0 (3 - length l)%nat.

(** Modelled from the spec: [version.NewVersion] of [go-version], on the
    numeric grammar; it fails on text that is not a version. *)
Definition NewVersion (v : string) : errorOr Version :=
  match matchVersion v with
  | None => Err ("Malformed version: " +:+ v)
  | Some parts =>
      match parseSegments parts with
      | Err e => Err e
      | Ok segs => Ok (mkVersion (padSegments segs) (length parts) v)
      end
  end.

Definition allZero (l : list Z) : bool := List.forallb (Z.eqb 0) l.

(** [Version.Compare]: -1, 0 or 1; a shorter operand is read as padded with
    zeros. *)
Fixpoint compareSegments (a b : list Z) : Z :=
  match a, b with
  | [], [] => 0
  | [], _ => if allZero b then 0 else -1
  | _, [] => if allZero a then 0 else 1
  | x :: a', y :: b' =>
      if x =? y then compareSegments a' b'
      else if x <? y then -1 else 1
  end.

Definition Compare (v other : Version) : Z :=
  compareSegments (segments v) (segments other).

Inductive Operator : Type :=
| OpEqual | OpNotEqual | OpGreaterThan | OpLessThan
| OpGreaterThanEqual | OpLessThanEqual | OpPessimistic.

Record Constraint : Type := mkConstraint {
  op : Operator;
  check : Version;
  c_original : string
}.

(** The table [constraintOperators]; the empty operator means equality. *)
Definition constraintOperators (s : string) : option Operator :=
  if String.eqb s "" then Some OpEqual
  else if String.eqb s "=" then Some OpEqual
  else if String.eqb s "!=" then Some OpNotEqual
  else if String.eqb s ">" then Some OpGreaterThan
  else if String.eqb s "<" then Some OpLessThan
  else if String.eqb s ">=" then Some OpGreaterThanEqual
  else if String.eqb s "<=" then Some OpLessThanEqual
  else if String.eqb s "~>" then Some OpPessimistic
  else None.

Definition isOpChar (c : ascii) : bool :=
  Ascii.eqb c "=" || Ascii.eqb c "!" || Ascii.eqb c ">" || Ascii.eqb c "<"
  || Ascii.eqb c "~".

(** [parseSingle]: optional white space, an operator of the table, optional
    white space, a version, optional white space. *)
Definition parseSingle (v : string) : errorOr Constraint :=
  let malformed := Err ("Malformed constraint: " +:+ v) in
  let s1 := dropWhile isSpaceRe v in
  let opText := takeWhile isOpChar s1 in
  let s2 := dropWhile isSpaceRe (dropWhile isOpChar s1) in
  let verText := takeWhile (fun c => negb (isSpaceRe c)) s2 in
  let tail := dropWhile (fun c => negb (isSpaceRe c)) s2 in
  match constraintOperators opText, matchVersion verText with
  | Some o, Some _ =>
      if negb (forallb isSpaceRe tail) then malformed
      else match NewVersion verText with
           | Ok ver => Ok (mkConstraint o ver v)
           | Err e => Err e
           end
  | _, _ => malformed
  end.

Definition Constraints : Type := list Constraint.

Fixpoint parseAll (vs : list string) : errorOr Constraints :=
  match vs with
  | [] => Ok []
  | single :: rest =>
      match parseSingle single with
      | Err e => Err e
      | Ok c =>
          match parseAll rest with
          | Err e => Err e
          | Ok cs => Ok (c :: cs)
          end
      end
  end.

(** Modelled from the spec: [version.NewConstraint] of [go-version], a
    comma-separated conjunction of single constraints; it fails when one of
    them is malformed. *)
Definition NewConstraint (v : string) : errorOr Constraints :=
  parseAll (Split "," v).

Definition segmentAt (v : Version) (i : nat) : Z := nth i (segments v) 0.

(** [constraintPessimistic v c]: [v] is at least [c], as specific as [c],
    and agrees with [c] on all the written segments but the last. *)
Definition constraintPessimistic (v c : Version) : bool :=
  if Compare v c <? 0 then false
  else
    let cs := length (segments c) in
    if (length (segments v) <? cs)%nat then false
    else if negb (List.forallb (fun i => segmentAt v i =? segmentAt c i)
                               (seq 0 (si c - 1)))
    then false
    else if segmentAt v (cs - 1) <? segmentAt c (cs - 1) then false
    else true.

Definition checkOne (c : Constraint) (v : Version) : bool :=
  match op c with
  | OpEqual => Compare v (check c) =? 0
  | OpNotEqual => negb (Compare v (check c) =? 0)
  | OpGreaterThan => Compare v (check c) =? 1
  | OpLessThan => Compare v (check c) =? -1
  | OpGreaterThanEqual => 0 <=? Compare v (check c)
  | OpLessThanEqual => Compare v (check c) <=? 0
  | OpPessimistic => constraintPessimistic v (check c)
  end.

(** Modelled from the spec: [Constraints.Check] of [go-version], true iff
    the version satisfies every single constraint. *)
Definition Check (cs : Constraints) (v : Version) : bool :=
  List.forallb (fun c => checkOne c v) cs.

End GoVersion.

(** ** [checkVersionConstraints] *)

Definition checkVersionConstraints (currentProviderVersion constraint : string)
  : errorOr bool :=
  match GoVersion.NewVersion currentProviderVersion with
  | Err err =>
      Err ("failed to parse version '" +:+ currentProviderVersion +:+ "': " +:+ err)
  | Ok ver =>
      match GoVersion.NewConstraint constraint with
      | Err err =>
          Err ("failed to parse constraint '" +:+ constraint +:+ "': " +:+ err)
      | Ok c => Ok (GoVersion.Check c ver)
      end
  end.

(** ** Package [time]

    Go's standard library, after its documented behaviour: instants as Unix
    seconds and nanoseconds, locations with the offsets in effect in them,
    the proleptic Gregorian calendar, [Date] with its normalisation of
    out-of-range fields and its choice of an offset, the RFC 3339 layout as
    [Format] writes it and as [Parse] accepts it. *)

Module GoTime.
Import Strings.

(** A [*time.Location].  [lookup l sec] is what [l.lookup(sec)] returns for
    the instant [sec]: the offset east of UTC in effect then, in seconds,
    and the interval of instants, first one in and last one out, around
    [sec] in which that offset is in effect.  The zones and the transitions
    between them are data: for [time.Local] they come from the zone
    database of the machine, with its daylight-saving rules. *)
Record Location : Type := mkLocation {
  lookup : Z -> Z * Z * Z
}.

(** The offset in effect in [l] at the instant [sec]. *)
Definition offsetAt (l : Location) (sec : Z) : Z := (lookup l sec).1.1.

(** The first and the last instant of the package. *)
Definition alpha : Z := - 2 ^ 63.
Definition omega : Z := 2 ^ 63 - 1.

(** [time.FixedZone name offset]: one zone at all times. *)
Definition FixedZone (offset : Z) : Location :=
  mkLocation (fun _ => (offset, alpha, omega)).

(** [time.UTC] *)
Definition UTC : Location := FixedZone 0.



(** An instant with its location. *)
Record Time : Type := mkTime {
  unixSec : Z;
  nsec : Z;
  loc : Location
}.

(** The offset in effect at the instant in its own location. *)
Definition zoneOffset (t : Time) : Z := offsetAt (loc t) (unixSec t).

(** [t.Before u] *)
Definition Before (t u : Time) : bool :=
  (unixSec t <? unixSec u) || ((unixSec t =? unixSec u) && (nsec t <? nsec u)).

Definition secondsPerDay : Z := 86400.

Definition isLeap (year : Z) : bool :=
  (year mod 4 =? 0) && (negb (year mod 100 =? 0) || (year mod 400 =? 0)).

(** [daysBefore[m]]: days of a non-leap year before month [m+1] starts. *)
Definition daysBefore (m : Z) : Z :=
  nth (Z.to_nat m) [0; 31; 59; 90; 120; 151; 181; 212; 243; 273; 304; 334; 365] 0.

Definition daysIn (month year : Z) : Z :=
  if (month =? 2) && isLeap year then 29
  else daysBefore month - daysBefore (month - 1).

(** Leap days in the years 1 .. [y]. *)
Definition leapsThrough (y : Z) : Z := y / 4 - y / 100 + y / 400.

(** Days from 1970-01-01 to January 1st of [year]. *)
Definition daysSinceEpoch (year : Z) : Z :=
  365 * (year - 1970) + leapsThrough (year - 1) - leapsThrough 1969.

(** [norm hi lo base]: carry [lo] into [hi] so that [0 <= lo < base]. *)
Definition norm (hi lo base : Z) : Z * Z := (hi + lo / base, lo mod base).

(** The first half of [time.Date]: out-of-range fields are normalised,
    months overflow into years and everything below into days, and the
    reading is counted in seconds since the epoch as if it were one of UTC.
    The nanoseconds left come with it. *)
Definition civilUnix (year month day hour min sec ns : Z) : Z * Z :=
  let '(year, m) := norm year (month - 1) 12 in
  let month := m + 1 in
  let '(sec, ns) := norm sec ns 1000000000 in
  let '(min, sec) := norm min sec 60 in
  let '(hour, min) := norm hour min 60 in
  let '(day, hour) := norm day hour 24 in
  let d := daysSinceEpoch year + daysBefore (month - 1)
           + (if isLeap year && (3 <=? month) then 1 else 0)
           + (day - 1) in
  (d * secondsPerDay + hour * 3600 + min * 60 + sec, ns).

(** The second half: the offset by which the reading [unix] is moved to
    UTC.  The location is asked for the zone at [unix]; when that zone has
    an offset and is not in effect at the instant it gives, the zone at
    that instant is taken instead. *)
Definition dateOffset (l : Location) (unix : Z) : Z :=
  let '(offset, zstart, zend) := lookup l unix in
  if offset =? 0 then 0
  else
    let utc := unix - offset in
    if (utc <? zstart) || (zend <=? utc) then offsetAt l utc else offset.

(** [time.Date] *)
Definition Date (year month day hour min sec ns : Z) (l : Location) : Time :=
  let '(unix, ns) := civilUnix year month day hour min sec ns in
  mkTime (unix - dateOffset l unix) ns l.

(** The civil date of a day number counted from 1970-01-01. *)
Definition civilFromDays (days : Z) : Z * Z * Z :=
  let z := days + 719468 in
  let era := z / 146097 in
  let doe := z - era * 146097 in
  let yoe := (doe - doe / 1460 + doe / 36524 - doe / 146096) / 365 in
  let doy := doe - (365 * yoe + yoe / 4 - yoe / 100) in
  let mp := (5 * doy + 2) / 153 in
  let d := doy - (153 * mp + 2) / 5 + 1 in
  let m := if mp <? 10 then mp + 3 else mp - 9 in
  let y := yoe + era * 400 + (if m <=? 2 then 1 else 0) in
  (y, m, d).

(** Seconds on the wall clock of the instant's own location. *)
Definition wallSec (t : Time) : Z := unixSec t + zoneOffset t.

(** [t.Date()] *)
Definition dateOf (t : Time) : Z * Z * Z := civilFromDays (wallSec t / secondsPerDay).

(** [t.Clock()] *)
Definition clockOf (t : Time) : Z * Z * Z :=
  let s := wallSec t mod secondsPerDay in
  (s / 3600, (s mod 3600) / 60, s mod 60).

(** [t.AddDate years months days]: the date and the clock of [t] are read
    in its location, and the new date is looked up in that location
    again. *)
Definition AddDate (t : Time) (years months days : Z) : Time :=
  let '(year, month, day) := dateOf t in
  let '(hour, min, sec) := clockOf t in
  Date (year + years) (month + months) (day + days) hour min sec (nsec t)
       (loc t).

(** [time.Unix sec 0], in the local zone, where [localOffset] is in effect
    at that instant. *)
Definition Unix (localOffset sec : Z) : Time :=
  mkTime sec 0 (FixedZone localOffset).

(** [t.Format time.RFC3339]: layout [2006-01-02T15:04:05Z07:00]. *)
Definition FormatRFC3339 (t : Time) : string :=
  let '(year, month, day) := dateOf t in
  let '(hour, min, sec) := clockOf t in
  let zone := Z.quot (zoneOffset t) 60 in
  appendInt year 4 +:+ "-" +:+ appendInt month 2 +:+ "-" +:+ appendInt day 2
  +:+ "T" +:+ appendInt hour 2 +:+ ":" +:+ appendInt min 2 +:+ ":"
  +:+ appendInt sec 2
  +:+ (if zoneOffset t =? 0 then "Z"
       else (if zone <? 0 then "-" else "+")
            +:+ appendInt (Z.abs zone / 60) 2 +:+ ":"
            +:+ appendInt (Z.abs zone mod 60) 2).

(** *** [time.Parse time.RFC3339] *)

(** A small parser type: the value read and the rest of the text. *)
Definition parser (A : Type) : Type := string -> option (A * string).

(** [getnum s fixed]: one or two digits, exactly two when [fixed]. *)
Definition getnum (fixed : bool) : parser Z := fun s =>
  match s with
  | String a rest =>
      if isDigit a then
        match rest with
        | String b rest' =>
            if isDigit b then Some (10 * digitVal a + digitVal b, rest')
            else if fixed then None else Some (digitVal a, rest)
        | EmptyString => if fixed then None else Some (digitVal a, rest)
        end
      else None
  | EmptyString => None
  end.

(** The four digits of [stdLongYear]. *)
Definition getyear : parser Z := fun s =>
  match s with
  | String a (String b (String c (String d rest))) =>
      if isDigit a && isDigit b && isDigit c && isDigit d
      then Some (digitsVal 0 (String a (String b (String c (String d ""))))%string, rest)
      else None
  | _ => None
  end.

(** A literal byte of the layout. *)
Definition skip (c : ascii) : parser unit := fun s =>
  match s with
  | String a rest => if Ascii.eqb a c then Some (tt, rest) else None
  | EmptyString => None
  end.

Definition commaOrPeriod (c : ascii) : bool := Ascii.eqb c "." || Ascii.eqb c ",".

Fixpoint firstN (n : nat) (s : string) : string :=
  match n, s with
  | S n', String c s' => String c (firstN n' s')
  | _, _ => EmptyString
  end.

(** An optional fractional second: a comma or period followed by digits, of
    which the first nine count ([parseNanoseconds]). *)
Definition getfrac : parser Z := fun s =>
  match s with
  | String p (String d rest) =>
      if commaOrPeriod p && isDigit d then
        let digits := takeWhile isDigit (String d rest) in
        let kept := firstN 9 digits in
        Some (digitsVal 0 kept * 10 ^ (9 - Z.of_nat (String.length kept)),
              dropWhile isDigit (String d rest))
      else Some (0, s)
  | _ => Some (0, s)
  end.

(** The zone of [stdISO8601ColonTZ]: [Z], or a sign and [hh:mm]. *)
Definition getzone : parser Z := fun s =>
  match s with
  | String "Z" rest => Some (0, rest)
  | String sign (String h1 (String h2 (String ":" (String m1 (String m2 rest))))) =>
      if isDigit h1 && isDigit h2 && isDigit m1 && isDigit m2 then
        let hr := 10 * digitVal h1 + digitVal h2 in
        let mm := 10 * digitVal m1 + digitVal m2 in
        if (24 <? hr) || (60 <? mm) then None
        else if Ascii.eqb sign "+" then Some ((hr * 60 + mm) * 60, rest)
        else if Ascii.eqb sign "-" then Some (- ((hr * 60 + mm) * 60), rest)
        else None
      else None
  | _ => None
  end.

Definition pbind {A B : Type} (p : parser A) (k : A -> parser B) : parser B :=
  fun s => match p s with
           | Some (a, rest) => k a rest
           | None => None
           end.

Definition pret {A : Type} (a : A) : parser A := fun s => Some (a, s).

Definition pguard (b : bool) : parser unit := fun s => if b then Some (tt, s) else None.

Notation "'rd' x <~ p ;; k" := (pbind p (fun x => k))
  (at level 10, x name, p at level 99, k at level 200, only parsing).

(** The layout, field by field.  The reading is made a time in UTC and
    moved by the zone read; the result carries that zone as its location
    ([Parse] takes the local zone instead when it has this offset at that
    instant, which is the same instant with the same offset). *)
Definition rfc3339 : parser Time :=
  rd year <~ getyear ;; rd _ <~ skip "-" ;;
  rd month <~ getnum true ;; rd _ <~ pguard ((1 <=? month) && (month <=? 12)) ;;
  rd _ <~ skip "-" ;;
  rd day <~ getnum true ;; rd _ <~ skip "T" ;;
  rd hour <~ getnum false ;; rd _ <~ pguard (hour <? 24) ;; rd _ <~ skip ":" ;;
  rd min <~ getnum true ;; rd _ <~ pguard (min <? 60) ;; rd _ <~ skip ":" ;;
  rd sec <~ getnum true ;; rd _ <~ pguard (sec <? 60) ;;
  rd ns <~ getfrac ;;
  rd zone <~ getzone ;;
  rd _ <~ pguard ((1 <=? day) && (day <=? daysIn month year)) ;;
  pret (let t := Date year month day hour min sec ns UTC in
        mkTime (unixSec t - zone) (nsec t) (FixedZone zone)).

(** [time.Parse time.RFC3339 value]: the whole text has to be consumed. *)
Definition ParseRFC3339 (value : string) : option Time :=
  match rfc3339 value with
  | Some (t, EmptyString) => Some t
  | _ => None
  end.

End GoTime.

(** ** The data model of [main.go] *)

(** Providers we want to check against specific minimum versions. *)
Definition providersToCheck : gmap string string :=
  <["azurerm" := "4.0.0"]> (<["azapi" := "2.0.0"]> ∅).

(** A row from the input CSV. *)
Record CSVRecord : Type := mkCSVRecord {
  ProviderNamespace : string;
  ResourceType : string;
  ModuleDisplayName : string;
  AlternativeNames : string;
  ModuleName : string;
  ModuleStatus : string;
  RepoURL : string;
  PublicRegistryReference : string;
  TelemetryIdPrefix : string;
  PrimaryModuleOwnerGHHandle : string;
  PrimaryModuleOwnerDisplayName : string;
  SecondaryModuleOwnerGHHandle : string;
  SecondaryModuleOwnerDisplayName : string;
  ModuleOwnersGHTeam : string;
  ModuleContributorsGHTeam : string;
  Description : string;
  Comments : string;
  FirstPublishedIn : string
}.

(** A single provider requirement (like azurerm, ~> 3.0). *)
Record ProviderVersion : Type := mkProviderVersion {
  ProviderName : string;
  Version : string
}.

(** The analysis result for each module.  A nil slice and a nil map read
    like empty ones, so [Providers] is a list and [Compatibility] a finite
    map whose zero value is the empty map. *)
Record Result : Type := mkResult {
  Record_ : CSVRecord;                (* the embedded CSVRecord *)
  Providers : list ProviderVersion;
  Compatibility : gmap string bool;
  LastCommitDate : string;
  LastCommitAuthor : string;
  Error : string
}.

(** The zero value of a string-only struct and of [Result]. *)
Definition zeroCSVRecord : CSVRecord :=
  mkCSVRecord "" "" "" "" "" "" "" "" "" "" "" "" "" "" "" "" "" "".

Definition zeroResult : Result := mkResult zeroCSVRecord [] ∅ "" "" "".

Definition setError (res : Result) (e : string) : Result :=
  mkResult (Record_ res) (Providers res) (Compatibility res)
           (LastCommitDate res) (LastCommitAuthor res) e.

Definition setProviders (res : Result) (ps : list ProviderVersion) : Result :=
  mkResult (Record_ res) ps (Compatibility res)
           (LastCommitDate res) (LastCommitAuthor res) (Error res).

Definition setCompatibility (res : Result) (m : gmap string bool) : Result :=
  mkResult (Record_ res) (Providers res) m
           (LastCommitDate res) (LastCommitAuthor res) (Error res).

Definition setLastCommit (res : Result) (date author : string) : Result :=
  mkResult (Record_ res) (Providers res) (Compatibility res) date author (Error res).

(** ** The world outside the program *)

(** What [tfconfig.LoadModule] hands back: the module with its required
    providers in the order the Go map happens to be ranged over, and the
    diagnostics. *)
Record ProviderRequirement : Type := mkProviderRequirement {
  VersionConstraints : list string
}.

Record TfModule : Type := mkTfModule {
  RequiredProviders : list (string * ProviderRequirement)
}.

Record Diagnostics : Type := mkDiagnostics {
  HasErrors : bool;
  diagText : string
}.

(** Everything the program does to its surroundings, in order, with what
    came back where the program looks at it. *)
Inductive Event : Type :=
| EMkdirTemp (r : errorOr string)
| EExec (argv : list string) (err : option string)
| ERemoveAll (path : string)
| ELoadModule (path : string)
| ELog (msg : string)
| ESleep (nanos : Z).

(** The answers of the surroundings.  Every external call consumes one tick,
    so a call repeated later may be answered differently. *)
Record Oracle : Type := mkOracle {
  mkdirTempName : nat -> errorOr string;
  gitCloneRun : nat -> string -> string -> string * option string;
  loadModuleRun : nat -> string -> TfModule * Diagnostics;
  gitLogRun : nat -> string -> errorOr string;
  localOffset : Z
}.

(** The state threaded through the program: the directories on disk, the
    effects so far and the oracle clock. *)
Record World : Type := mkWorld {
  fs : gset string;
  trace : list Event;
  tick : nat
}.

Definition M (A : Type) : Type := World -> A * World.

Definition ret {A : Type} (a : A) : M A := fun w => (a, w).

Definition bind {A B : Type} (m : M A) (f : A -> M B) : M B := fun w =>
  let '(a, w') := m w in f a w'.

Notation "'do' x <- m ;; k" := (bind m (fun x => k))
  (at level 10, x name, m at level 99, k at level 200, only parsing).
Notation "'do' ' p <- m ;; k" := (bind m (fun p => k))
  (at level 10, p pattern, m at level 99, k at level 200, only parsing).

Definition emit (e : Event) : M unit := fun w =>
  (tt, mkWorld (fs w) (trace w ++ [e]) (tick w)).

Definition nextTick : M nat := fun w =>
  (tick w, mkWorld (fs w) (trace w) (S (tick w))).

Definition Second : Z := 1000000000.

Section Program.

Variable o : Oracle.

(** [os.MkdirTemp "" "repo-*"]: a directory that did not exist is created, or
    nothing is and an error comes back. *)
Definition MkdirTemp : M (errorOr string) :=
  do t <- nextTick ;;
  fun w =>
    let r := match mkdirTempName o t with
             | Err e => Err e
             | Ok name =>
                 if decide (name ∈ fs w)
                 then Err ("mkdir " +:+ name +:+ ": file exists")
                 else Ok name
             end in
    (r, mkWorld (match r with Ok name => {[name]} ∪ fs w | Err _ => fs w end)
                (trace w ++ [EMkdirTemp r]) (tick w)).

(** [os.RemoveAll path] removes the directory with all it contains.  The
    program discards the call's error, and the model takes the removal to
    go through. *)
Definition RemoveAll (path : string) : M unit := fun w =>
  (tt, mkWorld (fs w ∖ {[path]}) (trace w ++ [ERemoveAll path]) (tick w)).

Definition gitCloneArgv (repoURL tempDir : string) : list string :=
  ["git"; "clone"; "--depth"; "1"; repoURL; tempDir].

Definition gitLogArgv (repoPath : string) : list string :=
  ["git"; "-C"; repoPath; "log"; "-1"; "--format=%ct|%an"].

(** [cmd.CombinedOutput()] of the clone command. *)
Definition runGitClone (repoURL tempDir : string) : M (string * option string) :=
  do t <- nextTick ;;
  let '(output, err) := gitCloneRun o t repoURL tempDir in
  do _ <- emit (EExec (gitCloneArgv repoURL tempDir) err) ;;
  ret (output, err).

(** [cmd.Output()] of the log command. *)
Definition runGitLog (repoPath : string) : M (errorOr string) :=
  do t <- nextTick ;;
  let r := gitLogRun o t repoPath in
  do _ <- emit (EExec (gitLogArgv repoPath)
                      (match r with Err e => Some e | Ok _ => None end)) ;;
  ret r.

Definition LoadModule (modulePath : string) : M (TfModule * Diagnostics) :=
  do t <- nextTick ;;
  do _ <- emit (ELoadModule modulePath) ;;
  ret (loadModuleRun o t modulePath).

Definition logPrintf (msg : string) : M unit := emit (ELog msg).

Definition Sleep (d : Z) : M unit := emit (ESleep d).

(** [cloneRepo] performs a shallow clone of the repository to a temporary
    directory. *)
Definition cloneRepo (repoURL : string) : M (errorOr string) :=
  do r <- MkdirTemp ;;
  match r with
  | Err err => ret (Err err)
  | Ok tempDir =>
      do '(output, err) <- runGitClone repoURL tempDir ;;
      match err with
      | Some e =>
          do _ <- RemoveAll tempDir ;;
          ret (Err ("git clone failed: " +:+ e +:+ ", output: " +:+ output))
      | None => ret (Ok tempDir)
      end
  end.

(** [parseTerraformModule] loads the Terraform module and extracts required
    providers. *)
Definition parseTerraformModule (modulePath : string)
  : M (errorOr (list ProviderVersion)) :=
  do '(module, diags) <- LoadModule modulePath ;;
  if HasErrors diags then
    ret (Err ("failed to load module: " +:+ diagText diags))
  else
    ret (Ok (flat_map
                (fun '(providerName, req) =>
                   List.map (fun constraint => mkProviderVersion providerName constraint)
                            (VersionConstraints req))
                (RequiredProviders module))).

(** [getLastCommitInfo] extracts the last commit epoch time and author from
    the local repo. *)
Definition getLastCommitInfo (repoPath : string) : M (errorOr (string * string)) :=
  do r <- runGitLog repoPath ;;
  match r with
  | Err err => ret (Err ("failed to get last commit: " +:+ err))
  | Ok out =>
      match Strings.SplitN2 "|" out with
      | [p0; p1] =>
          let epochStr := Strings.TrimSpace p0 in
          let author := Strings.TrimSpace p1 in
          match Strconv.ParseInt epochStr with
          | Err err =>
              ret (Err ("invalid epoch time '" +:+ epochStr +:+ "': " +:+ err))
          | Ok epoch =>
              ret (Ok (GoTime.FormatRFC3339 (GoTime.Unix (localOffset o) epoch), author))
          end
      | _ => ret (Err "unexpected format for last commit info")
      end
  end.

(** How the body of a range loop with an early [return] leaves: it falls
    through to the code after the loop, or the function returns. *)
Inductive flow : Type :=
| Continue (res : Result)
| Return (res : Result).

(** The loop "Check version constraints" of [processRecord]. *)
Fixpoint checkProviders (providers : list ProviderVersion) (res : Result) : flow :=
  match providers with
  | [] => Continue res
  | provider :: rest =>
      match providersToCheck !! ProviderName provider with
      | Some constraint =>
          match checkVersionConstraints constraint (Version provider) with
          | Err cErr =>
              Return (setError res
                        ("failed to check version constraints for provider '"
                         +:+ ProviderName provider +:+ "': " +:+ cErr))
          | Ok valid =>
              checkProviders rest
                (setCompatibility res
                   (<[ProviderName provider := valid]> (Compatibility res)))
          end
      | None => checkProviders rest res
      end
  end.

(** The loop "Clone the repository with up to 3 retries": [fuel] bounds the
    iterations, the guard [attempt <= 3] is the loop's own. *)
Fixpoint cloneLoop (fuel : nat) (attempt : Z) (record : CSVRecord) (quiet : bool)
    (repoPath : string) (err : option string) : M (string * option string) :=
  match fuel with
  | O => ret (repoPath, err)
  | S fuel' =>
      if attempt <=? 3 then
        do r <- cloneRepo (RepoURL record) ;;
        match r with
        | Ok path => ret (path, None)
        | Err e =>
            do _ <- (if negb quiet then
                       logPrintf ("[WARN] Attempt " +:+ Strings.itoa attempt
                                  +:+ ": Failed to clone repo '" +:+ RepoURL record
                                  +:+ "': " +:+ e)
                     else ret tt) ;;
            do _ <- Sleep (2 * Second) ;;
            cloneLoop fuel' (attempt + 1) record quiet "" (Some e)
        end
      else ret (repoPath, err)
  end.

(** [processRecord] after the clone succeeded, up to its [return]s; the
    deferred removal runs in [processRecord] below. *)
Definition processCloned (record : CSVRecord) (quiet : bool) (res : Result)
    (repoPath : string) : M Result :=
  do r <- parseTerraformModule repoPath ;;
  match r with
  | Err err => ret (setError res ("failed to parse Terraform module: " +:+ err))
  | Ok providers =>
      let res := setProviders res providers in
      let res := setCompatibility res ∅ in
      match checkProviders providers res with
      | Return res => ret res
      | Continue res =>
          do r <- getLastCommitInfo repoPath ;;
          match r with
          | Err commitErr =>
              do _ <- (if negb quiet then
                         logPrintf ("[WARN] Could not retrieve last commit for '"
                                    +:+ RepoURL record +:+ "': " +:+ commitErr)
                       else ret tt) ;;
              ret (setError res
                     (Error res +:+ " | could not retrieve last commit info: "
                      +:+ commitErr))
          | Ok (lastDate, author) => ret (setLastCommit res lastDate author)
          end
      end
  end.

(** [processRecord] handles cloning, parsing, and checking for a single
    CSVRecord. *)
Definition processRecord (record : CSVRecord) (quiet : bool) : M Result :=
  let res := mkResult record [] ∅ "" "" "" in
  do '(repoPath, err) <- cloneLoop 3 1 record quiet "" None ;;
  match err with
  | Some e =>
      ret (setError res
             ("failed to clone repo '" +:+ RepoURL record +:+ "': " +:+ e))
  | None =>
      do res' <- processCloned record quiet res repoPath ;;
      do _ <- RemoveAll repoPath ;;
      ret res'
  end.

End Program.

(** ** [summarizeResults] *)

(** The two-value map read [v, ok := m[k]]. *)
Definition mapIndex (m : gmap string bool) (k : string) : bool * bool :=
  match m !! k with
  | Some v => (v, true)
  | None => (false, false)
  end.

(** One iteration of the loop over the results; the counters are
    (unreachable, not compatible, dormant). *)
Definition summarizeStep (sixMonthsAgo : GoTime.Time) (acc : Z * Z * Z) (r : Result)
  : Z * Z * Z :=
  let '(unreachableCount, notCompatibleCount, dormantCount) := acc in
  let unreachableCount :=
    if Strings.Contains (Error r) "failed to clone repo"
    then unreachableCount + 1 else unreachableCount in
  let dormantCount :=
    if negb (String.eqb (LastCommitDate r) "") then
      match GoTime.ParseRFC3339 (LastCommitDate r) with
      | Some t => if GoTime.Before t sixMonthsAgo then dormantCount + 1 else dormantCount
      | None => dormantCount
      end
    else dormantCount in
  let '(azurermStatus, hasAzurerm) := mapIndex (Compatibility r) "azurerm" in
  let '(azapiStatus, hasAzapi) := mapIndex (Compatibility r) "azapi" in
  let notCompatibleCount :=
    if (hasAzurerm && negb azurermStatus) || (hasAzapi && negb azapiStatus)
    then notCompatibleCount + 1 else notCompatibleCount in
  (unreachableCount, notCompatibleCount, dormantCount).

(** [summarizeResults] returns the counts for unreachable, not-compatible,
    and dormant repos; [now] is what [time.Now()] answers, an instant in
    the location [time.Local]. *)
Definition summarizeResults (now : GoTime.Time) (results : list Result) : Z * Z * Z :=
  let sixMonthsAgo := GoTime.AddDate now 0 (-6) 0 in
  fold_left (summarizeStep sixMonthsAgo) results (0, 0, 0).

(** ** The worker pool of the [process] command

    The goroutines of the command's action are threads over one shared
    state, run one step at a time in any order: [main] (spawn the workers,
    enqueue the records, close the queue, start the closer, gather), the
    workers, and the closer that waits for them.  A call of [processRecord]
    is one step.  A panic, of an index out of range or of the WaitGroup,
    ends the program: no thread takes a step after it. *)

Definition wrap32 (z : Z) : Z := (z + 2 ^ 31) mod 2 ^ 32 - 2 ^ 31.

(** The counter of a [sync.WaitGroup] is an int32 as well.  [wg.Add(delta)]
    adds to it with wrap-around and panics ("sync: negative WaitGroup
    counter") when the sum is negative; [wg.Done()] is [wg.Add(-1)]. *)
Definition wgAdd (counter delta : Z) : Z := wrap32 (counter + delta).

Inductive MainPC : Type :=
| MSpawn (i : Z)                       (* [for i := 0; i < numWorkers; i++] *)
| MEnqueue (pending : list CSVRecord)  (* [for _, r := range records] *)
| MStartCloser                         (* [go func() { wg.Wait(); ... }()] *)
| MGather                              (* [for r := range resultChan] *)
| MDone
| MPanic.                              (* a run-time panic ends the program *)

Inductive WorkerPC : Type :=
| WIdle                      (* at [range recordChan] *)
| WHave (record : CSVRecord) (* about to call [processRecord] *)
| WSend (r : Result)         (* at [resultChan <- r] *)
| WTick                      (* at [bar.Add(1)] *)
| WDone.                     (* after [wg.Done()] *)

Inductive CloserPC : Type :=
| CNone
| CWaiting                   (* at [wg.Wait()] *)
| CDone.

Record Pool : Type := mkPool {
  p_world : World;
  p_main : MainPC;
  p_workers : list WorkerPC;
  p_closer : CloserPC;
  p_wg : Z;
  p_recordChan : list CSVRecord;
  p_recordClosed : bool;
  p_resultChan : list Result;
  p_resultClosed : bool;
  p_results : list Result;
  p_index : Z;
  p_bar : Z
}.

Inductive Thread : Type :=
| TMain
| TWorker (i : nat)
| TCloser.

Section Dispatcher.

Variable o : Oracle.
Variable quiet : bool.
Variable numWorkers : Z.
Variable records : list CSVRecord.

(** Both channels are made with capacity [len(records)]. *)
Definition capacity : nat := length records.

(** [results := make([]Result, len(records))] and the rest before the first
    loop. *)
Definition initPool (w : World) : Pool :=
  mkPool w (MSpawn 0) [] CNone 0 [] false [] false
         (replicate (length records) zeroResult) 0 0.

(** [main].  In the spawn loop [wg.Add(1)] comes before the [go]
    statement: when it panics no worker is added.  In the gather loop the
    slot is the int32 counter before its increment, and a slot outside
    [results] panics. *)
Definition stepMain (p : Pool) : option Pool :=
  match p_main p with
  | MSpawn i =>
      if i <? numWorkers then
        let wg' := wgAdd (p_wg p) 1 in
        if wg' <? 0 then
          Some (mkPool (p_world p) MPanic (p_workers p)
                       (p_closer p) wg' (p_recordChan p)
                       (p_recordClosed p) (p_resultChan p) (p_resultClosed p)
                       (p_results p) (p_index p) (p_bar p))
        else
          Some (mkPool (p_world p) (MSpawn (i + 1)) (p_workers p ++ [WIdle])
                       (p_closer p) wg' (p_recordChan p)
                       (p_recordClosed p) (p_resultChan p) (p_resultClosed p)
                       (p_results p) (p_index p) (p_bar p))
      else
        Some (mkPool (p_world p) (MEnqueue records) (p_workers p)
                     (p_closer p) (p_wg p) (p_recordChan p)
                     (p_recordClosed p) (p_resultChan p) (p_resultClosed p)
                     (p_results p) (p_index p) (p_bar p))
  | MEnqueue (r :: rest) =>
      if (length (p_recordChan p) <? capacity)%nat then
        Some (mkPool (p_world p) (MEnqueue rest) (p_workers p)
                     (p_closer p) (p_wg p) (p_recordChan p ++ [r])
                     (p_recordClosed p) (p_resultChan p) (p_resultClosed p)
                     (p_results p) (p_index p) (p_bar p))
      else None
  | MEnqueue [] =>
      Some (mkPool (p_world p) MStartCloser (p_workers p)
                   (p_closer p) (p_wg p) (p_recordChan p)
                   true (p_resultChan p) (p_resultClosed p)
                   (p_results p) (p_index p) (p_bar p))
  | MStartCloser =>
      Some (mkPool (p_world p) MGather (p_workers p)
                   CWaiting (p_wg p) (p_recordChan p)
                   (p_recordClosed p) (p_resultChan p) (p_resultClosed p)
                   (p_results p) (p_index p) (p_bar p))
  | MGather =>
      match p_resultChan p with
      | r :: rest =>
          let index' := wrap32 (p_index p + 1) in
          let idx := wrap32 (index' - 1) in
          if (0 <=? idx) && (idx <? Z.of_nat (length (p_results p))) then
            Some (mkPool (p_world p) MGather (p_workers p)
                         (p_closer p) (p_wg p) (p_recordChan p)
                         (p_recordClosed p) rest (p_resultClosed p)
                         (<[Z.to_nat idx := r]> (p_results p)) index' (p_bar p))
          else
            Some (mkPool (p_world p) MPanic (p_workers p)
                         (p_closer p) (p_wg p) (p_recordChan p)
                         (p_recordClosed p) rest (p_resultClosed p)
                         (p_results p) index' (p_bar p))
      | [] =>
          if p_resultClosed p then
            Some (mkPool (p_world p) MDone (p_workers p)
                         (p_closer p) (p_wg p) (p_recordChan p)
                         (p_recordClosed p) [] (p_resultClosed p)
                         (p_results p) (p_index p) (p_bar p))
          else None
      end
  | MDone => None
  | MPanic => None
  end.

Definition setWorker (p : Pool) (i : nat) (wk : WorkerPC) : list WorkerPC :=
  <[i := wk]> (p_workers p).

(** Worker [i].  Its deferred [wg.Done()] runs when the queue is closed and
    empty; a counter that turns negative there is a panic, which ends the
    program as one of [main] does. *)
Definition stepWorker (i : nat) (p : Pool) : option Pool :=
  match p_workers p !! i with
  | Some WIdle =>
      match p_recordChan p with
      | record :: rest =>
          Some (mkPool (p_world p) (p_main p) (setWorker p i (WHave record))
                       (p_closer p) (p_wg p) rest
                       (p_recordClosed p) (p_resultChan p) (p_resultClosed p)
                       (p_results p) (p_index p) (p_bar p))
      | [] =>
          if p_recordClosed p then
            let wg' := wgAdd (p_wg p) (-1) in
            Some (mkPool (p_world p) (if wg' <? 0 then MPanic else p_main p)
                         (setWorker p i WDone)
                         (p_closer p) wg' []
                         (p_recordClosed p) (p_resultChan p) (p_resultClosed p)
                         (p_results p) (p_index p) (p_bar p))
          else None
      end
  | Some (WHave record) =>
      let '(r, w') := processRecord o record quiet (p_world p) in
      Some (mkPool w' (p_main p) (setWorker p i (WSend r))
                   (p_closer p) (p_wg p) (p_recordChan p)
                   (p_recordClosed p) (p_resultChan p) (p_resultClosed p)
                   (p_results p) (p_index p) (p_bar p))
  | Some (WSend r) =>
      if (length (p_resultChan p) <? capacity)%nat then
        Some (mkPool (p_world p) (p_main p) (setWorker p i WTick)
                     (p_closer p) (p_wg p) (p_recordChan p)
                     (p_recordClosed p) (p_resultChan p ++ [r]) (p_resultClosed p)
                     (p_results p) (p_index p) (p_bar p))
      else None
  | Some WTick =>
      Some (mkPool (p_world p) (p_main p) (setWorker p i WIdle)
                   (p_closer p) (p_wg p) (p_recordChan p)
                   (p_recordClosed p) (p_resultChan p) (p_resultClosed p)
                   (p_results p) (p_index p) (p_bar p + 1))
  | Some WDone => None
  | None => None
  end.

Definition stepCloser (p : Pool) : option Pool :=
  match p_closer p with
  | CWaiting =>
      if p_wg p =? 0 then
        Some (mkPool (p_world p) (p_main p) (p_workers p)
                     CDone (p_wg p) (p_recordChan p)
                     (p_recordClosed p) (p_resultChan p) true
                     (p_results p) (p_index p) (p_bar p))
      else None
  | _ => None
  end.

(** One step of thread [t], if it can take one.  Nothing runs once the
    program has panicked. *)
Definition stepThread (t : Thread) (p : Pool) : option Pool :=
  match p_main p with
  | MPanic => None
  | _ =>
      match t with
      | TMain => stepMain p
      | TWorker i => stepWorker i p
      | TCloser => stepCloser p
      end
  end.

Definition step (p p' : Pool) : Prop := exists t, stepThread t p = Some p'.

(** The states a run can be in. *)
Inductive reachable (w : World) : Pool -> Prop :=
| reach_init : reachable w (initPool w)
| reach_step p p' : reachable w p -> step p p' -> reachable w p'.

(** A run under a fixed scheduling policy, for executing the model: the
    first thread that can move does, workers before [main]. *)
Definition threads (p : Pool) : list Thread :=
  List.map TWorker (seq 0 (length (p_workers p))) ++ [TCloser; TMain].

Fixpoint firstStep (ts : list Thread) (p : Pool) : option Pool :=
  match ts with
  | [] => None
  | t :: rest =>
      match stepThread t p with
      | Some p' => Some p'
      | None => firstStep rest p
      end
  end.

Fixpoint runPool (fuel : nat) (p : Pool) : Pool :=
  match fuel with
  | O => p
  | S fuel' =>
      match firstStep (threads p) p with
      | Some p' => runPool fuel' p'
      | None => p
      end
  end.

(** The steps a state still has in it: every step lowers this number. *)
Definition workerSteps (wk : WorkerPC) : nat :=
  match wk with
  | WIdle => 1
  | WHave _ => 5
  | WSend _ => 4
  | WTick => 2
  | WDone => 0
  end.

Definition mainSteps (m : MainPC) : nat :=
  match m with
  | MSpawn i => 2 * Z.to_nat (numWorkers - i) + 5 + 6 * length records
  | MEnqueue pending => 4 + 6 * length pending
  | MStartCloser => 3
  | MGather => 1
  | MDone => 0
  | MPanic => 0
  end.

Definition closerSteps (c : CloserPC) : nat :=
  match c with CWaiting => 1 | _ => 0 end.

Definition stepsLeft (p : Pool) : nat :=
  mainSteps (p_main p)
  + list_sum (List.map workerSteps (p_workers p))
  + closerSteps (p_closer p)
  + 5 * length (p_recordChan p)
  + length (p_resultChan p).

(** Where the records and the outcomes are while the pool runs. *)
Definition heldRecord (wk : WorkerPC) : list CSVRecord :=
  match wk with WHave record => [record] | _ => [] end.

Definition sendingResult (wk : WorkerPC) : list Result :=
  match wk with WSend r => [r] | _ => [] end.

Definition heldRecords (ws : list WorkerPC) : list CSVRecord :=
  flat_map heldRecord ws.

Definition sendingResults (ws : list WorkerPC) : list Result :=
  flat_map sendingResult ws.

Definition active (wk : WorkerPC) : nat :=
  match wk with WDone => 0 | _ => 1 end.

(** The workers that have not called [wg.Done()]. *)
Definition activeWorkers (ws : list WorkerPC) : nat :=
  list_sum (List.map active ws).

Definition pendingOf (m : MainPC) : list CSVRecord :=
  match m with
  | MSpawn _ => records
  | MEnqueue pending => pending
  | _ => []
  end.

(** The number of slots of [results] filled so far: the int32 counter read
    as an unsigned number. *)
Definition slotsFilled (p : Pool) : Z := p_index p mod 2 ^ 32.

Definition gathered (p : Pool) : list Result :=
  take (Z.to_nat (slotsFilled p)) (p_results p).

(** [r] is what the Item Pipeline returned for the record it embeds, in
    some state of the world. *)
Definition producedBy (r : Result) : Prop :=
  exists w, r = (processRecord o (Record_ r) quiet w).1.

(** What holds in every state of a run over at most 2^31 records, until
    [wg.Add(1)] panics. *)
Record poolInv (p : Pool) : Prop := mkPoolInv {
  inv_cons :
    records ≡ₚ pendingOf (p_main p) ++ p_recordChan p
               ++ heldRecords (p_workers p)
               ++ List.map Record_ (sendingResults (p_workers p))
               ++ List.map Record_ (p_resultChan p)
               ++ List.map Record_ (gathered p);
  inv_sending :
    Forall (fun wk => match wk with WSend r => producedBy r | _ => True end)
           (p_workers p);
  inv_chan : Forall producedBy (p_resultChan p);
  inv_gathered : Forall producedBy (gathered p);
  inv_len : length (p_results p) = length records;
  inv_index : slotsFilled p <= Z.of_nat (length records);
  inv_wg : p_wg p = Z.of_nat (activeWorkers (p_workers p));
  inv_wg_range : Z.of_nat (length (p_workers p)) < 2 ^ 31;
  inv_exit :
    (p_recordChan p = [] /\ p_recordClosed p = true)
    \/ Forall (fun wk => wk <> WDone) (p_workers p);
  inv_closed : p_resultClosed p = true -> p_wg p = 0;
  inv_phase :
    match p_main p with
    | MSpawn i =>
        Z.of_nat (length (p_workers p)) = i /\ i <= Z.max 0 numWorkers /\
        p_recordClosed p = false /\ p_closer p = CNone /\
        p_resultClosed p = false
    | MEnqueue _ =>
        Z.of_nat (length (p_workers p)) = Z.max 0 numWorkers /\
        p_recordClosed p = false /\ p_closer p = CNone /\
        p_resultClosed p = false
    | MStartCloser =>
        Z.of_nat (length (p_workers p)) = Z.max 0 numWorkers /\
        p_recordClosed p = true /\ p_closer p = CNone /\
        p_resultClosed p = false
    | MGather =>
        Z.of_nat (length (p_workers p)) = Z.max 0 numWorkers /\
        p_recordClosed p = true /\
        p_closer p = (if p_resultClosed p then CDone else CWaiting)
    | MDone =>
        Z.of_nat (length (p_workers p)) = Z.max 0 numWorkers /\
        p_recordClosed p = true /\ p_closer p = CDone /\
        p_resultClosed p = true /\ p_resultChan p = []
    | MPanic => False
    end
}.

End Dispatcher.

(** ** Reading a trace *)

(** The events a run added to the trace. *)
Definition newEvents (w w' : World) : list Event :=
  drop (length (trace w)) (trace w').

Fixpoint count (p : Event -> bool) (evs : list Event) : nat :=
  match evs with
  | [] => 0
  | e :: rest => (if p e then 1 else 0) + count p rest
  end.

(** An acquisition attempt is a call of [cloneRepo], which starts by asking
    for a scratch directory. *)
Definition isAttempt (e : Event) : bool :=
  match e with EMkdirTemp _ => true | _ => false end.

Definition isCloneExec (argv : list string) : bool :=
  match argv with
  | _ :: cmd :: _ => String.eqb cmd "clone"
  | _ => false
  end.

(** The attempt failed: no scratch directory, or [git clone] went wrong. *)
Definition isFailedAttempt (e : Event) : bool :=
  match e with
  | EMkdirTemp (Err _) => true
  | EExec argv (Some _) => isCloneExec argv
  | _ => false
  end.

Definition isCloneWarning (e : Event) : bool :=
  match e with
  | ELog msg => Strings.HasPrefix msg "[WARN] Attempt "
  | _ => false
  end.

(** The stages after acquisition: loading the module, reading the log. *)
Definition isLaterStage (e : Event) : bool :=
  match e with
  | ELoadModule _ => true
  | EExec argv _ => negb (isCloneExec argv)
  | _ => false
  end.

Definition isSleep (e : Event) : bool :=
  match e with ESleep _ => true | _ => false end.

Fixpoint sleepDurations (evs : list Event) : list Z :=
  match evs with
  | [] => []
  | ESleep d :: rest => d :: sleepDurations rest
  | _ :: rest => sleepDurations rest
  end.

(** Sleeping only between attempts: every sleep has a later attempt. *)
Fixpoint sleepsOnlyBetweenAttempts (evs : list Event) : bool :=
  match evs with
  | [] => true
  | e :: rest =>
      (if isSleep e then existsb isAttempt rest else true)
      && sleepsOnlyBetweenAttempts rest
  end.

(** The scratch directories a run created. *)
Fixpoint createdDirs (evs : list Event) : list string :=
  match evs with
  | [] => []
  | EMkdirTemp (Ok d) :: rest => d :: createdDirs rest
  | _ :: rest => createdDirs rest
  end.

(** The tally of the acquisition phase: [a] attempts of which [f] failed, a
    two-second sleep and (unless quiet) a warning for each failure, and no
    later stage. *)
Definition cloneEvents (quiet : bool) (evs : list Event) (a f : nat) : Prop :=
  count isAttempt evs = a /\
  count isFailedAttempt evs = f /\
  sleepDurations evs = repeat (2 * Second) f /\
  count isCloneWarning evs = (if quiet then 0%nat else f) /\
  count isLaterStage evs = 0%nat.

(** The iterations the loop still has: bounded by the fuel and by the guard
    [attempt <= 3]. *)
Definition iterationsLeft (fuel : nat) (attempt : Z) : Z :=
  Z.max 0 (Z.min (Z.of_nat fuel) (4 - attempt)).

(** The tally of a single attempt that failed [f] times (0 or 1). *)
Definition attemptEvents (evs : list Event) (f : nat) : Prop :=
  count isAttempt evs = 1%nat /\
  count isFailedAttempt evs = f /\
  sleepDurations evs = [] /\
  count isCloneWarning evs = 0%nat /\
  count isLaterStage evs = 0%nat.

(** The tally of the stages after acquisition: no attempt, no sleep, no
    acquisition warning, no directory created. *)
Definition laterEvents (evs : list Event) : Prop :=
  count isAttempt evs = 0%nat /\
  count isFailedAttempt evs = 0%nat /\
  sleepDurations evs = [] /\
  count isCloneWarning evs = 0%nat /\
  createdDirs evs = [].

(** ** Reading the constraint loop *)

Definition flowResult (f : flow) : Result :=
  match f with Continue res => res | Return res => res end.

(** The map the constraint loop has built from [m] when it leaves the
    providers [ps]: one store per evaluation, up to the first evaluation
    that fails. *)
Fixpoint evalProviders (ps : list ProviderVersion) (m : gmap string bool)
  : gmap string bool :=
  match ps with
  | [] => m
  | p :: rest =>
      match providersToCheck !! ProviderName p with
      | Some floor =>
          match checkVersionConstraints floor (Version p) with
          | Ok valid => evalProviders rest (<[ProviderName p := valid]> m)
          | Err _ => m
          end
      | None => evalProviders rest m
      end
  end.

(** The evaluations made for the expressions declared for [name], in the
    order the loop meets them. *)
Fixpoint evaluations (name : string) (ps : list ProviderVersion)
  : list (errorOr bool) :=
  match ps with
  | [] => []
  | p :: rest =>
      (if String.eqb (ProviderName p) name then
         match providersToCheck !! name with
         | Some floor => [checkVersionConstraints floor (Version p)]
         | None => []
         end
       else []) ++ evaluations name rest
  end.

(** What a map recording the conjunction of all declared expressions would
    hold. *)
Definition conjunction (rs : list (errorOr bool)) : bool :=
  List.forallb (fun r => match r with Ok b => b | Err _ => false end) rs.

(** ** Reading the summary *)

(** The three categories of the Summarizer, each as a test of one Outcome. *)
Definition isUnreachable (r : Result) : bool :=
  Strings.Contains (Error r) "failed to clone repo".

Definition isNotCompatible (r : Result) : bool :=
  let '(azurermStatus, hasAzurerm) := mapIndex (Compatibility r) "azurerm" in
  let '(azapiStatus, hasAzapi) := mapIndex (Compatibility r) "azapi" in
  (hasAzurerm && negb azurermStatus) || (hasAzapi && negb azapiStatus).

Definition isDormant (sixMonthsAgo : GoTime.Time) (r : Result) : bool :=
  negb (String.eqb (LastCommitDate r) "") &&
  match GoTime.ParseRFC3339 (LastCommitDate r) with
  | Some t => GoTime.Before t sixMonthsAgo
  | None => false
  end.

Definition countWhere (p : Result -> bool) (rs : list Result) : Z :=
  Z.of_nat (length (List.filter p rs)).



(** ** Sample inputs *)

Definition emptyWorld : World := mkWorld ∅ [] 0.

Definition sampleRecord : CSVRecord :=
  mkCSVRecord "azurerm" "Microsoft.KeyVault/vaults" "Key Vault" ""
              "avm-res-keyvault-vault" "Available"
              "https://github.com/Azure/terraform-azurerm-avm-res-keyvault-vault"
              "" "" "" "" "" "" "" "" "" "" "".

Definition scratchName (t : nat) : string :=
  "/tmp/repo-" +:+ Strings.itoa (Z.of_nat t).

(** A repository that cannot be cloned. *)
Definition unreachableOracle : Oracle :=
  mkOracle (fun t => Ok (scratchName t))
           (fun _ _ _ => ("fatal: repository not found", Some "exit status 128"))
           (fun _ _ => (mkTfModule [], mkDiagnostics false ""))
           (fun _ _ => Err "exit status 128")
           0.

(** A module that declares two expressions for [azurerm]; the commit is
    from November 2023. *)
Definition twoExpressionsOracle : Oracle :=
  mkOracle (fun t => Ok (scratchName t))
           (fun _ _ _ => ("Cloning into '/tmp/repo-0'...", None))
           (fun _ _ =>
              (mkTfModule
                 [("azurerm", mkProviderRequirement ["~>3.0"; ">=4.0.0"]);
                  ("random", mkProviderRequirement [">= 3.5.0"])],
               mkDiagnostics false ""))
           (fun _ _ => Ok "1700000000|Jane Doe")
           0.

(** The same module in a copy without history: [git log] fails. *)
Definition noHistoryOracle : Oracle :=
  mkOracle (fun t => Ok (scratchName t))
           (fun _ _ _ => ("Cloning into '/tmp/repo-0'...", None))
           (fun _ _ =>
              (mkTfModule
                 [("azurerm", mkProviderRequirement ["~>3.0"; ">=4.0.0"]);
                  ("random", mkProviderRequirement [">= 3.5.0"])],
               mkDiagnostics false ""))
           (fun _ _ => Err "exit status 128")
           0.

(** A module whose second tracked expression is malformed. *)
Definition malformedOracle : Oracle :=
  mkOracle (fun t => Ok (scratchName t))
           (fun _ _ _ => ("Cloning into '/tmp/repo-0'...", None))
           (fun _ _ =>
              (mkTfModule
                 [("azurerm", mkProviderRequirement [">= 3.0"]);
                  ("azapi", mkProviderRequirement ["not-a-version"]);
                  ("random", mkProviderRequirement [">= 3.5.0"])],
               mkDiagnostics false ""))
           (fun _ _ => Ok "1700000000|Jane Doe")
           0.

(** A module that only admits the 3.x series of [azurerm] and has not seen
    a commit since September 2020. *)
Definition staleOracle : Oracle :=
  mkOracle (fun t => Ok (scratchName t))
           (fun _ _ _ => ("Cloning into '/tmp/repo-0'...", None))
           (fun _ _ =>
              (mkTfModule [("azurerm", mkProviderRequirement ["~> 3.0"])],
               mkDiagnostics false ""))
           (fun _ _ => Ok "1600000000|John Doe")
           0.

(** 2024-08-31T12:00:00Z, an evaluation time whose calendar day does not
    exist six months earlier. *)
Definition sampleNow : GoTime.Time := GoTime.mkTime 1725105600 0 GoTime.UTC.




(** An Outcome as the [analysis] command may read it from a report: it
    falls in all three categories. *)
Definition overlappingOutcome : Result :=
  mkResult sampleRecord [mkProviderVersion "azurerm" "~> 3.0"]
           {[ "azurerm" := false ]} "2020-09-13T12:26:40Z" "John Doe"
           "failed to clone repo 'https://example.invalid/x': exit status 128".

(** Three records of which the second cannot be cloned: its attempts are
    the oracle's second to fourth answers when the records are processed in
    order. *)
Definition sampleRecords : list CSVRecord :=
  [sampleRecord;
   mkCSVRecord "azurerm" "" "" "" "avm-res-gone" "" "https://example.invalid/gone"
               "" "" "" "" "" "" "" "" "" "" "";
   mkCSVRecord "azapi" "" "" "" "avm-res-other" "" "https://example.invalid/other"
               "" "" "" "" "" "" "" "" "" "" ""].

Definition mixedOracle : Oracle :=
  mkOracle (fun t => Ok (scratchName t))
           (fun _ url _ =>
              if String.eqb url "https://example.invalid/gone"
              then ("fatal: repository not found", Some "exit status 128")
              else ("", None))
           (fun _ _ =>
              (mkTfModule [("azurerm", mkProviderRequirement ["~> 3.0"])],
               mkDiagnostics false ""))
           (fun _ _ => Ok "1600000000|John Doe")
           0.

(** ** [readCSV] and [getField] *)

(** What [reader.Read()] of [encoding/csv] answers, call after call: a row
    of fields, or an error.  The end of the list stands for [io.EOF]. *)
Inductive ReadResult : Type :=
| Row (fields : list string)
| ReadErr (msg : string).

(** [getField] safely retrieves a field from a row based on header map. *)
Definition getField (row : list string) (headerMap : gmap string nat)
    (field : string) : string :=
  match headerMap !! field with
  | Some idx => if (idx <? length row)%nat then nth idx row "" else ""
  | None => ""
  end.

(** The loop "Map header to indices": [headerMap[header] = idx]. *)
Fixpoint mapHeaders (idx : nat) (headers : list string)
    (headerMap : gmap string nat) : gmap string nat :=
  match headers with
  | [] => headerMap
  | header :: rest => mapHeaders (S idx) rest (<[header := idx]> headerMap)
  end.

(** The record literal of the row loop. *)
Definition recordOfRow (row : list string) (headerMap : gmap string nat)
  : CSVRecord :=
  mkCSVRecord
    (getField row headerMap "ProviderNamespace")
    (getField row headerMap "ResourceType")
    (getField row headerMap "ModuleDisplayName")
    (getField row headerMap "AlternativeNames")
    (getField row headerMap "ModuleName")
    (getField row headerMap "ModuleStatus")
    (getField row headerMap "RepoURL")
    (getField row headerMap "PublicRegistryReference")
    (getField row headerMap "TelemetryIdPrefix")
    (getField row headerMap "PrimaryModuleOwnerGHHandle")
    (getField row headerMap "PrimaryModuleOwnerDisplayName")
    (getField row headerMap "SecondaryModuleOwnerGHHandle")
    (getField row headerMap "SecondaryModuleOwnerDisplayName")
    (getField row headerMap "ModuleOwnersGHTeam")
    (getField row headerMap "ModuleContributorsGHTeam")
    (getField row headerMap "Description")
    (getField row headerMap "Comments")
    (getField row headerMap "FirstPublishedIn").

(** The loop over the rows after the header: it ends at [io.EOF] with the
    records, or at the first error with that error alone. *)
Fixpoint readRows (reads : list ReadResult) (headerMap : gmap string nat)
    (records : list CSVRecord) : errorOr (list CSVRecord) :=
  match reads with
  | [] => Ok records
  | ReadErr err :: _ => Err err
  | Row row :: rest =>
      readRows rest headerMap (records ++ [recordOfRow row headerMap])
  end.

(** [readCSV] reads the input CSV file and returns a slice of CSVRecord;
    [open] is what [os.Open] and the reader on the file answer. *)
Definition readCSV (open : string -> errorOr (list ReadResult))
    (filename : string) : errorOr (list CSVRecord) :=
  match open filename with
  | Err err => Err err
  | Ok reads =>
      match reads with
      | [] => Err "empty CSV file"
      | ReadErr err :: _ => Err err
      | Row headers :: rest => readRows rest (mapHeaders 0 headers ∅) []
      end
  end.

(** ** The [analysis] command *)

(** One iteration of the loop of the [analysis] action over the results it
    read; the lists are (unreachable, dormant, notCompatible). *)
Definition analysisStep (sixMonthsAgo : GoTime.Time)
    (acc : list Result * list Result * list Result) (r : Result)
  : list Result * list Result * list Result :=
  let '(unreachable, dormant, notCompatible) := acc in
  let unreachable :=
    if Strings.Contains (Error r) "failed to clone repo"
    then unreachable ++ [r] else unreachable in
  let dormant :=
    if negb (String.eqb (LastCommitDate r) "") then
      match GoTime.ParseRFC3339 (LastCommitDate r) with
      | Some t => if GoTime.Before t sixMonthsAgo then dormant ++ [r] else dormant
      | None => dormant
      end
    else dormant in
  let '(azurermStatus, hasAzurerm) := mapIndex (Compatibility r) "azurerm" in
  let '(azapiStatus, hasAzapi) := mapIndex (Compatibility r) "azapi" in
  let notCompatible :=
    if (hasAzurerm && negb azurermStatus) || (hasAzapi && negb azapiStatus)
    then notCompatible ++ [r] else notCompatible in
  (unreachable, dormant, notCompatible).

(** The three lists the [analysis] action builds before it prints; [now] is
    what [time.Now()] answers. *)
Definition analysisLists (now : GoTime.Time) (results : list Result)
  : list Result * list Result * list Result :=
  let sixMonthsAgo := GoTime.AddDate now 0 (-6) 0 in
  fold_left (analysisStep sixMonthsAgo) results ([], [], []).

(** ** [downloadCSV] and [downloadCSVIfNeeded]

    The files are a finite map from names to contents.  The network and the
    ways a system call can fail are answers of the surroundings; what the
    program did is kept in a log. *)

(** The end of a line, as [fmt.Println] writes it. *)
Definition newline : string := String (ascii_of_nat 10) EmptyString.

Record Response : Type := mkResponse {
  StatusCode : Z;
  Body : string
}.

Record Host : Type := mkHost {
  httpGet : string -> errorOr Response;       (* [http.Get url] *)
  statError : string -> option string;        (* [os.Stat] fails, the file may exist *)
  createError : string -> option string;      (* [os.Create] fails *)
  copyError : string -> option (nat * string) (* [io.Copy] fails after n bytes *)
}.

Inductive Effect : Type :=
| EGet (url : string)
| ECreate (filename : string)
| EPrint (text : string).

Record Disk : Type := mkDisk {
  files : gmap string string;
  effects : list Effect
}.

Definition note (e : Effect) (d : Disk) : Disk :=
  mkDisk (files d) (effects d ++ [e]).

Definition writeFile (filename content : string) (d : Disk) : Disk :=
  mkDisk (<[filename := content]> (files d)) (effects d).

(** The error of [os.Stat], as the program looks at it. *)
Inductive StatResult : Type :=
| StatOk
| StatNotExist
| StatFailed (msg : string).

Definition Stat (h : Host) (filename : string) (d : Disk) : StatResult :=
  match statError h filename with
  | Some msg => StatFailed msg
  | None =>
      match files d !! filename with
      | Some _ => StatOk
      | None => StatNotExist
      end
  end.

(** [os.IsNotExist err] *)
Definition IsNotExist (st : StatResult) : bool :=
  match st with StatNotExist => true | _ => false end.

(** [downloadCSV] fetches the CSV file from the given URL and saves it to a
    local file; the result is the error, if any.  [os.Create] truncates the
    file, and a copy that fails leaves the bytes that got through. *)
Definition downloadCSV (h : Host) (url filename : string) (d : Disk)
  : option string * Disk :=
  let d := note (EGet url) d in
  match httpGet h url with
  | Err err => (Some ("failed to download CSV: " +:+ err), d)
  | Ok resp =>
      if negb (StatusCode resp =? 200) then
        (Some ("failed to download CSV: received status code "
               +:+ Strings.itoa (StatusCode resp)), d)
      else
        let d := note (ECreate filename) d in
        match createError h filename with
        | Some err => (Some ("failed to create file: " +:+ err), d)
        | None =>
            let d := writeFile filename "" d in
            match copyError h (Body resp) with
            | Some (n, err) =>
                (Some ("failed to save CSV: " +:+ err),
                 writeFile filename (String.substring 0 n (Body resp)) d)
            | None => (None, writeFile filename (Body resp) d)
            end
        end
  end.

(** [downloadCSVIfNeeded] is a helper to conditionally download the CSV. *)
Definition downloadCSVIfNeeded (h : Host) (url filename : string) (force : bool)
    (d : Disk) : option string * Disk :=
  let st := Stat h filename d in
  if IsNotExist st || force then
    match downloadCSV h url filename d with
    | (Some err, d') => (Some ("error downloading CSV: " +:+ err), d')
    | (None, d') =>
        (None, note (EPrint ("CSV source downloaded successfully." +:+ newline)) d')
    end
  else
    match st with
    | StatFailed err => (Some ("error checking file: " +:+ err), d)
    | _ =>
        (None,
         note (EPrint ("CSV source file '" +:+ filename
                       +:+ "' already exists, skipping download." +:+ newline)) d)
    end.

(** ** Reading a CSV file *)

(** The columns the program looks for. *)
Definition columnNames : list string :=
  ["ProviderNamespace"; "ResourceType"; "ModuleDisplayName"; "AlternativeNames";
   "ModuleName"; "ModuleStatus"; "RepoURL"; "PublicRegistryReference";
   "TelemetryIdPrefix"; "PrimaryModuleOwnerGHHandle";
   "PrimaryModuleOwnerDisplayName"; "SecondaryModuleOwnerGHHandle";
   "SecondaryModuleOwnerDisplayName"; "ModuleOwnersGHTeam";
   "ModuleContributorsGHTeam"; "Description"; "Comments"; "FirstPublishedIn"].

(** The field of a record that goes by a column name; a name that is not a
    column of the program has no field. *)
Definition fieldNamed (r : CSVRecord) (name : string) : option string :=
  if String.eqb name "ProviderNamespace" then Some (ProviderNamespace r)
  else if String.eqb name "ResourceType" then Some (ResourceType r)
  else if String.eqb name "ModuleDisplayName" then Some (ModuleDisplayName r)
  else if String.eqb name "AlternativeNames" then Some (AlternativeNames r)
  else if String.eqb name "ModuleName" then Some (ModuleName r)
  else if String.eqb name "ModuleStatus" then Some (ModuleStatus r)
  else if String.eqb name "RepoURL" then Some (RepoURL r)
  else if String.eqb name "PublicRegistryReference"
  then Some (PublicRegistryReference r)
  else if String.eqb name "TelemetryIdPrefix" then Some (TelemetryIdPrefix r)
  else if String.eqb name "PrimaryModuleOwnerGHHandle"
  then Some (PrimaryModuleOwnerGHHandle r)
  else if String.eqb name "PrimaryModuleOwnerDisplayName"
  then Some (PrimaryModuleOwnerDisplayName r)
  else if String.eqb name "SecondaryModuleOwnerGHHandle"
  then Some (SecondaryModuleOwnerGHHandle r)
  else if String.eqb name "SecondaryModuleOwnerDisplayName"
  then Some (SecondaryModuleOwnerDisplayName r)
  else if String.eqb name "ModuleOwnersGHTeam" then Some (ModuleOwnersGHTeam r)
  else if String.eqb name "ModuleContributorsGHTeam"
  then Some (ModuleContributorsGHTeam r)
  else if String.eqb name "Description" then Some (Description r)
  else if String.eqb name "Comments" then Some (Comments r)
  else if String.eqb name "FirstPublishedIn" then Some (FirstPublishedIn r)
  else None.

(** A record written as a row under the given header: the record's field
    in each of the program's columns, [other] in any other column. *)
Definition rowOf (headers : list string) (other : string) (r : CSVRecord)
  : list string :=
  List.map (fun h => default other (fieldNamed r h)) headers.

(** ** Reading the calendar *)

(** The day of the year, counted from zero, as [Date] adds it up. *)
Definition dayOfYear (y m d : Z) : Z :=
  GoTime.daysBefore (m - 1)
  + (if GoTime.isLeap y && (3 <=? m) then 1 else 0) + (d - 1).

(** [f] holds of every number from [lo] on, [p] numbers in all. *)
Fixpoint allIn (p : positive) (lo : Z) (f : Z -> bool) : bool :=
  match p with
  | xH => f lo
  | xO q => allIn q lo f && allIn q (lo + Zpos q) f
  | xI q => f lo && allIn q (lo + 1) f && allIn q (lo + 1 + Zpos q) f
  end.

(** [appendInt x 2] is two digits that read as [x]. *)
Definition twoDigits (x : Z) : bool :=
  match Strings.appendInt x 2 with
  | String a (String b EmptyString) =>
      Strings.isDigit a && Strings.isDigit b
      && (10 * Strings.digitVal a + Strings.digitVal b =? x)
  | _ => false
  end.

(** [appendInt x 4] is four digits that read as [x].  The properties use
    it from 100 on: below that, [padLeft] as modelled stops one zero short
    of the four digits the library writes. *)
Definition fourDigits (x : Z) : bool :=
  match Strings.appendInt x 4 with
  | String a (String b (String c (String d EmptyString))) =>
      Strings.isDigit a && Strings.isDigit b && Strings.isDigit c
      && Strings.isDigit d
      && (Strings.digitsVal 0 (String a (String b (String c (String d EmptyString))))
          =? x)
  | _ => false
  end.

(** The zone as [Format] writes it. *)
Definition zoneText (offset : Z) : string :=
  let zone := Z.quot offset 60 in
  if offset =? 0 then "Z"
  else (if zone <? 0 then "-" else "+")
       +:+ Strings.appendInt (Z.abs zone / 60) 2 +:+ ":"
       +:+ Strings.appendInt (Z.abs zone mod 60) 2.

(** ** Reading an Outcome *)

Definition isLog (e : Event) : bool :=
  match e with ELog _ => true | _ => false end.

(** The provider is one the program checks. *)
Definition isTracked (name : string) : Prop :=
  name = "azurerm" \/ name = "azapi".

(** The paths a run removed. *)
Fixpoint removedDirs (evs : list Event) : list string :=
  match evs with
  | [] => []
  | ERemoveAll d :: rest => d :: removedDirs rest
  | _ :: rest => removedDirs rest
  end.

(** ** Reading the pool *)

(** What every state of a run without workers looks like: nothing was
    processed, every slot has its zero value, and the records that [main]
    has enqueued wait in the channel. *)
Definition idlePool (records : list CSVRecord) (w : World) (p : Pool) : Prop :=
  p_world p = w /\ p_workers p = [] /\ p_wg p = 0 /\ p_resultChan p = [] /\
  p_results p = replicate (length records) zeroResult /\
  p_index p = 0 /\ p_bar p = 0 /\
  match p_main p with
  | MSpawn i =>
      i = 0 /\ p_recordChan p = [] /\ p_closer p = CNone /\
      p_resultClosed p = false
  | MEnqueue pending =>
      p_recordChan p ++ pending = records /\ p_closer p = CNone /\
      p_resultClosed p = false
  | MStartCloser =>
      p_recordChan p = records /\ p_closer p = CNone /\ p_resultClosed p = false
  | MGather =>
      p_recordChan p = records /\
      p_closer p = (if p_resultClosed p then CDone else CWaiting)
  | MDone => p_recordChan p = records
  | MPanic => False
  end.

(** The state [main] leaves behind when [wg.Add(1)] panics in the spawn
    loop of the state [p]: nothing but the counter has moved. *)
Definition spawnPanic (p : Pool) : Pool :=
  mkPool (p_world p) MPanic (p_workers p) (p_closer p) (wgAdd (p_wg p) 1)
         (p_recordChan p) (p_recordClosed p) (p_resultChan p)
         (p_resultClosed p) (p_results p) (p_index p) (p_bar p).

(** The worker has sent an outcome and not yet moved the progress bar. *)
Definition ticking (wk : WorkerPC) : nat :=
  match wk with WTick => 1 | _ => 0 end.

(** The outcomes sent so far: those in the channel and those gathered. *)
Definition outcomesSent (p : Pool) : Z :=
  Z.of_nat (length (p_resultChan p)) + slotsFilled p.

(** ** Reading the log of a download *)

Definition isGet (e : Effect) : bool :=
  match e with EGet _ => true | _ => false end.

(** The effects a call added to the log. *)
Definition newEffects (d d' : Disk) : list Effect :=
  drop (length (effects d)) (effects d').

(** ** Further sample inputs *)

(** A header that names the program's columns in reverse order after a
    column of its own. *)
Definition shuffledHeaders : list string := "Extra" :: reverse columnNames.

(** A commit whose author name has a bar in it; the line ends with the
    newline that [git log] prints. *)
Definition barOracle : Oracle :=
  mkOracle (fun t => Ok (scratchName t))
           (fun _ _ _ => ("", None))
           (fun _ _ => (mkTfModule [], mkDiagnostics false ""))
           (fun _ _ => Ok (" 1700000000 | Doe | Roe" +:+ newline))
           0.

(** A repository read on a machine two hours east of UTC. *)
Definition eastOracle : Oracle :=
  mkOracle (fun t => Ok (scratchName t))
           (fun _ _ _ => ("", None))
           (fun _ _ => (mkTfModule [], mkDiagnostics false ""))
           (fun _ _ => Ok "1700000000|Jane Doe")
           7200.

(** A module that requires [azurerm] without a version. *)
Definition unpinnedOracle : Oracle :=
  mkOracle (fun t => Ok (scratchName t))
           (fun _ _ _ => ("", None))
           (fun _ _ =>
              (mkTfModule [("azurerm", mkProviderRequirement []);
                           ("random", mkProviderRequirement [">= 3.5.0"])],
               mkDiagnostics false ""))
           (fun _ _ => Ok "1700000000|Jane Doe")
           0.

(** A host that serves the module index and lets every system call
    through. *)
Definition sampleHost : Host :=
  mkHost (fun _ => Ok (mkResponse 200 ("ModuleName,RepoURL" +:+ newline)))
         (fun _ => None) (fun _ => None) (fun _ => None).

(** A host whose transfer breaks after seven bytes. *)
Definition brokenHost : Host :=
  mkHost (fun _ => Ok (mkResponse 200 ("ModuleName,RepoURL" +:+ newline)))
         (fun _ => None) (fun _ => None)
         (fun _ => Some (7%nat, "unexpected EOF")).

Definition sampleDisk : Disk :=
  mkDisk {[ "modules.csv" := "old contents" ]} [].

(** * Properties *)

(** *** The runtime models on sample inputs *)

Example checkVersionConstraints_samples :
  checkVersionConstraints "4.0.0" ">= 3.0, < 5.0" = Ok true /\
  checkVersionConstraints "4.0.0" "~> 4.0" = Ok true /\
  checkVersionConstraints "4.0.0" "~> 4.0.1" = Ok false /\
  checkVersionConstraints "4.0.0" "= 4.0" = Ok true /\
  checkVersionConstraints "2.0.0" "!= 2.0.0" = Ok false /\
  checkVersionConstraints "2.0.0" " >=1.13 " = Ok true /\
  checkVersionConstraints "four" ">= 1.0"
  = Err "failed to parse version 'four': Malformed version: four" /\
  checkVersionConstraints "4.0.0" ">= 3.0, banana"
  = Err "failed to parse constraint '>= 3.0, banana': Malformed constraint:  banana".
Proof. vm_compute. repeat split; reflexivity. Qed.

Example Date_samples :
  GoTime.Date 1970 1 1 0 0 0 0 GoTime.UTC = GoTime.mkTime 0 0 GoTime.UTC /\
  GoTime.Date 2024 8 31 12 0 0 0 GoTime.UTC
  = GoTime.mkTime 1725105600 0 GoTime.UTC /\
  GoTime.Date 2024 2 31 12 0 0 0 GoTime.UTC
  = GoTime.Date 2024 3 2 12 0 0 0 GoTime.UTC /\
  GoTime.Date 2023 2 31 12 0 0 0 GoTime.UTC
  = GoTime.Date 2023 3 3 12 0 0 0 GoTime.UTC /\
  GoTime.Date 2024 (-3) 15 0 0 0 0 GoTime.UTC
  = GoTime.Date 2023 9 15 0 0 0 0 GoTime.UTC /\
  GoTime.Date 2024 1 1 0 0 0 0 (GoTime.FixedZone 3600)
  = GoTime.mkTime 1704063600 0 (GoTime.FixedZone 3600).
Proof. vm_compute. repeat split; reflexivity. Qed.

Example FormatRFC3339_samples :
  GoTime.FormatRFC3339 (GoTime.mkTime 0 0 GoTime.UTC) = "1970-01-01T00:00:00Z" /\
  GoTime.FormatRFC3339 (GoTime.mkTime (-1) 0 GoTime.UTC)
  = "1969-12-31T23:59:59Z" /\
  GoTime.FormatRFC3339 (GoTime.mkTime 951782400 0 GoTime.UTC)
  = "2000-02-29T00:00:00Z" /\
  GoTime.FormatRFC3339 (GoTime.mkTime 1725105600 0 (GoTime.FixedZone (-12600)))
  = "2024-08-31T08:30:00-03:30" /\
  GoTime.FormatRFC3339 (GoTime.Unix 7200 1700000000) = "2023-11-15T00:13:20+02:00".
Proof. vm_compute. repeat split; reflexivity. Qed.

Example ParseRFC3339_samples :
  GoTime.ParseRFC3339 "2024-08-31T08:30:00-03:30"
  = Some (GoTime.mkTime 1725105600 0 (GoTime.FixedZone (-12600))) /\
  GoTime.ParseRFC3339 "2024-02-29T8:30:00.5+01:00"
  = Some (GoTime.mkTime 1709191800 500000000 (GoTime.FixedZone 3600)) /\
  GoTime.ParseRFC3339 "2023-02-29T08:30:00Z" = None /\
  GoTime.ParseRFC3339 "2023-02-28 08:30:00Z" = None /\
  GoTime.ParseRFC3339 "2023-02-28T08:30:00" = None /\
  GoTime.ParseRFC3339 "" = None.
Proof. vm_compute. repeat split; reflexivity. Qed.

(** A healthy item: three attempts are not needed, the scratch directory is
    removed at the end, and the commit time is written in RFC 3339. *)
Example processRecord_sample :
  let r := processRecord twoExpressionsOracle sampleRecord false emptyWorld in
  LastCommitDate r.1 = "2023-11-14T22:13:20Z" /\
  LastCommitAuthor r.1 = "Jane Doe" /\
  Error r.1 = "" /\
  trace r.2
  = [EMkdirTemp (Ok "/tmp/repo-0");
     EExec (gitCloneArgv (RepoURL sampleRecord) "/tmp/repo-0") None;
     ELoadModule "/tmp/repo-0";
     EExec (gitLogArgv "/tmp/repo-0") None;
     ERemoveAll "/tmp/repo-0"].
Proof. vm_compute. repeat split; reflexivity. Qed.

Lemma count_app p evs1 evs2 :
  count p (evs1 ++ evs2) = (count p evs1 + count p evs2)%nat.
Proof. induction evs1 as [|e evs1 IH]; simpl; [reflexivity | rewrite IH; lia]. Qed.

Lemma sleepDurations_app evs1 evs2 :
  sleepDurations (evs1 ++ evs2) = sleepDurations evs1 ++ sleepDurations evs2.
Proof.
  induction evs1 as [|e evs1 IH]; simpl; [reflexivity |].
  destruct e; simpl; rewrite ?IH; reflexivity.
Qed.

Lemma createdDirs_app evs1 evs2 :
  createdDirs (evs1 ++ evs2) = createdDirs evs1 ++ createdDirs evs2.
Proof.
  induction evs1 as [|e evs1 IH]; simpl; [reflexivity |].
  destruct e as [r| | | | |]; simpl; rewrite ?IH; try reflexivity.
  destruct r; simpl; rewrite ?IH; reflexivity.
Qed.

Lemma cloneEvents_app quiet evs1 evs2 a1 f1 a2 f2 :
  cloneEvents quiet evs1 a1 f1 -> cloneEvents quiet evs2 a2 f2 ->
  cloneEvents quiet (evs1 ++ evs2) (a1 + a2) (f1 + f2).
Proof.
  intros (A1 & F1 & S1 & W1 & L1) (A2 & F2 & S2 & W2 & L2).
  unfold cloneEvents. rewrite !count_app, sleepDurations_app, repeat_app.
  rewrite A1, A2, F1, F2, S1, S2, W1, W2, L1, L2.
  destruct quiet; auto.
Qed.

Lemma bind_eq {A B : Type} (m : M A) (f : A -> M B) (w : World) :
  bind m f w = f (m w).1 (m w).2.
Proof. unfold bind. destruct (m w); reflexivity. Qed.

Lemma newEvents_app w fs' evs t' :
  newEvents w (mkWorld fs' (trace w ++ evs) t') = evs.
Proof. unfold newEvents. simpl. apply drop_app_length. Qed.

Lemma fs_create_remove (d : string) (X : gset string) :
  (d ∉ X) -> ({[d]} ∪ X) ∖ {[d]} = X.
Proof.
  intros Hd. apply set_eq. intros x.
  rewrite elem_of_difference, elem_of_union, elem_of_singleton.
  split; [intros [[->|Hx] Hne]; [contradiction | assumption]|].
  intros Hx. split; [right; assumption|]. intros ->. contradiction.
Qed.

Section ProgramFacts.

Variable o : Oracle.
Variable record : CSVRecord.
Variable quiet : bool.

(** One attempt: what [cloneRepo] returns, what it leaves on disk and what it
    adds to the trace. *)
Lemma cloneRepo_spec url w :
  exists evs,
    trace (cloneRepo o url w).2 = trace w ++ evs /\
    Forall (fun d => d ∉ fs w) (createdDirs evs) /\
    match (cloneRepo o url w).1 with
    | Err _ =>
        attemptEvents evs 1 /\ fs (cloneRepo o url w).2 = fs w
    | Ok d =>
        attemptEvents evs 0 /\ (d ∉ fs w) /\
        fs (cloneRepo o url w).2 = {[d]} ∪ fs w
    end.
Proof.
  unfold cloneRepo, MkdirTemp, runGitClone, RemoveAll, bind, nextTick, emit, ret.
  simpl.
  destruct (mkdirTempName o (tick w)) as [name|e] eqn:Hmk; simpl.
  - destruct (decide (name ∈ fs w)) as [Hin|Hnot]; simpl.
    + eexists. split; [reflexivity|]. split; [constructor|].
      repeat split; reflexivity.
    + destruct (gitCloneRun o (S (tick w)) url name) as [output [e|]] eqn:Hgit;
        simpl.
      * eexists. rewrite <- !app_assoc. split; [reflexivity|]. simpl.
        split; [repeat constructor; assumption|].
        split; [repeat split; reflexivity|].
        apply fs_create_remove; assumption.
      * eexists. rewrite <- !app_assoc. split; [reflexivity|]. simpl.
        split; [repeat constructor; assumption|].
        split; [repeat split; reflexivity|]. split; [assumption | reflexivity].
  - eexists. split; [reflexivity|]. split; [constructor|].
    repeat split; reflexivity.
Qed.

Lemma cloneEvents_nil : cloneEvents quiet [] 0 0.
Proof. unfold cloneEvents. destruct quiet; repeat split; reflexivity. Qed.

Lemma warn_sleep_events (evs : list Event) (attempt : Z) (e : string) :
  attemptEvents evs 1 ->
  cloneEvents quiet
    (evs ++ (if negb quiet
             then [ELog ("[WARN] Attempt " +:+ Strings.itoa attempt
                         +:+ ": Failed to clone repo '" +:+ RepoURL record
                         +:+ "': " +:+ e)]
             else []) ++ [ESleep (2 * Second)]) 1 1.
Proof.
  intros (A & F & S & W & L). unfold cloneEvents.
  rewrite !count_app, !sleepDurations_app, A, F, S, W, L.
  destruct quiet; simpl; repeat split; reflexivity.
Qed.

(** The retry loop: [a] attempts of which [f] failed; either every iteration
    the loop had failed and nothing is left on disk, or the last attempt
    succeeded and its fresh directory is the only addition. *)
Lemma cloneLoop_spec fuel : forall attempt repoPath err w,
  exists evs a f,
    let r := cloneLoop o fuel attempt record quiet repoPath err w in
    trace r.2 = trace w ++ evs /\
    cloneEvents quiet evs a f /\
    Forall (fun d => d ∉ fs w) (createdDirs evs) /\
    Z.of_nat a <= iterationsLeft fuel attempt /\
    ((f = a /\ Z.of_nat a = iterationsLeft fuel attempt /\ fs r.2 = fs w /\
      ((a = 0%nat /\ evs = [] /\ r.1 = (repoPath, err)) \/
       ((0 < a)%nat /\ last evs = Some (ESleep (2 * Second)) /\
        exists e, r.1 = ("", Some e))))
     \/
     (a = S f /\ exists d, r.1 = (d, None) /\ (d ∉ fs w) /\
                           fs r.2 = {[d]} ∪ fs w)).
Proof.
  unfold iterationsLeft.
  induction fuel as [|fuel IH]; intros attempt repoPath err w.
  - exists [], 0%nat, 0%nat. simpl. rewrite app_nil_r.
    split; [reflexivity|]. split; [apply cloneEvents_nil|].
    split; [constructor|]. split; [lia|]. left.
    repeat split; try reflexivity; try lia. left. repeat split; reflexivity.
  - simpl. destruct (attempt <=? 3) eqn:Hguard.
    2:{ exists [], 0%nat, 0%nat. simpl. rewrite app_nil_r.
        apply Z.leb_gt in Hguard.
        split; [reflexivity|]. split; [apply cloneEvents_nil|].
        split; [constructor|]. split; [lia|]. left.
        repeat split; try reflexivity; try lia. left. repeat split; reflexivity. }
    apply Z.leb_le in Hguard.
    destruct (cloneRepo_spec (RepoURL record) w) as (evs0 & Htr & Hfresh & Hres).
    rewrite bind_eq.
    destruct (cloneRepo o (RepoURL record) w) as [[d|e] w1] eqn:Hclone;
      simpl in Htr, Hres; simpl fst; simpl snd; cbv iota.
    + destruct Hres as (Hev & Hd & Hfs).
      exists evs0, 1%nat, 0%nat. simpl.
      split; [assumption|].
      split; [destruct Hev as (A & F & S & W & L); unfold cloneEvents;
              rewrite A, F, S, W, L; destruct quiet; repeat split; reflexivity|].
      split; [assumption|]. split; [lia|]. right.
      split; [reflexivity|]. exists d. repeat split; assumption.
    + destruct Hres as (Hev & Hfs).
      set (warn := if negb quiet
                   then [ELog ("[WARN] Attempt " +:+ Strings.itoa attempt
                               +:+ ": Failed to clone repo '" +:+ RepoURL record
                               +:+ "': " +:+ e)]
                   else []).
      set (w2 := mkWorld (fs w1) (trace w1 ++ warn ++ [ESleep (2 * Second)]) (tick w1)).
      assert (Hrun : forall k : M (string * option string),
                 bind (if negb quiet
                       then logPrintf ("[WARN] Attempt " +:+ Strings.itoa attempt
                               +:+ ": Failed to clone repo '" +:+ RepoURL record
                               +:+ "': " +:+ e)
                       else ret tt)
                      (fun _ => bind (Sleep (2 * Second)) (fun _ => k)) w1
                 = k w2).
      { intros k. unfold bind, logPrintf, Sleep, emit, ret, w2, warn.
        destruct quiet; simpl; rewrite <- ?app_assoc; reflexivity. }
      rewrite Hrun.
      destruct (IH (attempt + 1) "" (Some e) w2) as (evs' & a' & f' & IHr).
      simpl in IHr. destruct IHr as (Htr' & Hev' & Hfresh' & Hle & Hcase).
      exists (evs0 ++ (warn ++ [ESleep (2 * Second)]) ++ evs'), (1 + a')%nat, (1 + f')%nat.
      simpl.
      split.
      { rewrite Htr'. unfold w2. simpl. rewrite Htr, <- !app_assoc. reflexivity. }
      split.
      { rewrite app_assoc.
        apply (cloneEvents_app quiet _ evs' 1 1 a' f'); [|assumption].
        apply warn_sleep_events; assumption. }
      split.
      { rewrite !createdDirs_app. apply Forall_app. split; [assumption|].
        apply Forall_app. split.
        - unfold warn. destruct quiet; simpl; constructor.
        - change (fs w2) with (fs w1) in Hfresh'. rewrite Hfs in Hfresh'.
          assumption. }
      split; [lia|].
      destruct Hcase as [(Hfa & Ha & Hfs' & Hst) | (Haf & d & Hr & Hd & Hfs')].
      * left. split; [lia|]. split; [lia|].
        split; [rewrite Hfs'; change (fs w2) with (fs w1); assumption|].
        right. split; [lia|].
        destruct Hst as [(_ & Hnil & Hr) | (_ & Hlast & e' & Hr)]; rewrite Hr.
        -- rewrite Hnil, app_nil_r, !app_assoc, last_snoc. eauto.
        -- rewrite !app_assoc, last_app, Hlast. eauto.
      * right. split; [lia|]. exists d.
        change (fs w2) with (fs w1) in Hd, Hfs'. rewrite Hfs in Hd, Hfs'.
        repeat split; assumption.
Qed.

Lemma parseTerraformModule_world modulePath w :
  (parseTerraformModule o modulePath w).2
  = mkWorld (fs w) (trace w ++ [ELoadModule modulePath]) (S (tick w)).
Proof.
  unfold parseTerraformModule, LoadModule, bind, nextTick, emit, ret. simpl.
  destruct (loadModuleRun o (tick w) modulePath) as [module diags].
  destruct (HasErrors diags); reflexivity.
Qed.

Lemma getLastCommitInfo_world repoPath w :
  exists err,
    (getLastCommitInfo o repoPath w).2
    = mkWorld (fs w) (trace w ++ [EExec (gitLogArgv repoPath) err]) (S (tick w)).
Proof.
  unfold getLastCommitInfo, runGitLog, bind, nextTick, emit, ret. simpl.
  destruct (gitLogRun o (tick w) repoPath) as [out|e]; eexists; [|reflexivity].
  destruct (Strings.SplitN2 "|" out) as [|p0 [|p1 [|p2 ps]]]; try reflexivity.
  destruct (Strconv.ParseInt (Strings.TrimSpace p0)); reflexivity.
Qed.

(** The stages after acquisition leave the disk as it is and add only events
    of their own. *)
Lemma processCloned_spec res repoPath w :
  exists evs,
    trace (processCloned o record quiet res repoPath w).2 = trace w ++ evs /\
    fs (processCloned o record quiet res repoPath w).2 = fs w /\
    laterEvents evs.
Proof.
  unfold processCloned. rewrite bind_eq, parseTerraformModule_world.
  destruct (parseTerraformModule o repoPath w).1 as [providers|err].
  2:{ eexists. simpl. repeat split; reflexivity. }
  destruct (checkProviders providers _) as [res'|res'].
  2:{ eexists. simpl. repeat split; reflexivity. }
  rewrite bind_eq.
  match goal with |- context [getLastCommitInfo o repoPath ?w1] =>
    destruct (getLastCommitInfo_world repoPath w1) as [gerr Hw];
    rewrite Hw; destruct (getLastCommitInfo o repoPath w1).1 as [[lastDate author]|commitErr]
  end.
  - eexists. simpl. rewrite <- app_assoc.
    destruct gerr; repeat split; reflexivity.
  - unfold bind, logPrintf, emit, ret. destruct quiet; simpl;
      eexists; rewrite <- !app_assoc; destruct gerr; repeat split; reflexivity.
Qed.

(** The run of [processRecord] once the clone went through: the later
    stages, then the deferred removal. *)
Lemma processRecord_cloned w repoPath w1 :
  cloneLoop o 3 1 record quiet "" None w = ((repoPath, None), w1) ->
  processRecord o record quiet w
  = ((processCloned o record quiet (mkResult record [] ∅ "" "" "") repoPath w1).1,
     (RemoveAll repoPath
        (processCloned o record quiet (mkResult record [] ∅ "" "" "") repoPath w1).2).2).
Proof.
  intros Hclone. unfold processRecord. rewrite bind_eq, Hclone. simpl.
  rewrite bind_eq. reflexivity.
Qed.

Lemma processRecord_clone_failed w e w1 :
  cloneLoop o 3 1 record quiet "" None w = (("", Some e), w1) ->
  processRecord o record quiet w
  = (setError (mkResult record [] ∅ "" "" "")
       ("failed to clone repo '" +:+ RepoURL record +:+ "': " +:+ e), w1).
Proof.
  intros Hclone. unfold processRecord. rewrite bind_eq, Hclone. reflexivity.
Qed.

(** The whole item: the disk is back to what it was, every directory the run
    created was new, and the tally of the acquisition phase with its two
    ways out. *)
Lemma processRecord_spec w :
  exists evs f,
    let r := processRecord o record quiet w in
    trace r.2 = trace w ++ evs /\
    fs r.2 = fs w /\
    Forall (fun d => d ∉ fs w) (createdDirs evs) /\
    count isFailedAttempt evs = f /\
    sleepDurations evs = repeat (2 * Second) f /\
    count isCloneWarning evs = (if quiet then 0%nat else f) /\
    ((f = 3%nat /\ count isAttempt evs = 3%nat /\
      count isLaterStage evs = 0%nat /\
      last evs = Some (ESleep (2 * Second)) /\
      exists e, r.1 = setError (mkResult record [] ∅ "" "" "")
                        ("failed to clone repo '" +:+ RepoURL record +:+ "': " +:+ e))
     \/
     ((f < 3)%nat /\ count isAttempt evs = S f)).
Proof.
  destruct (cloneLoop_spec 3 1 "" None w)
    as (evs & a & f & Htr & Hev & Hfresh & Hle & Hcase).
  change (iterationsLeft 3 1) with 3 in Hle, Hcase.
  destruct (cloneLoop o 3 1 record quiet "" None w) as [[p err] w1] eqn:Hclone.
  simpl fst in *; simpl snd in *.
  destruct Hev as (A & F & S & W & L).
  destruct Hcase as [(Hfa & Ha & Hfs & Hst) | (Haf & d & Hr & Hd & Hfs)].
  - destruct Hst as [(Ha0 & _) | (_ & Hlast & e & Hr)]; [lia|].
    injection Hr as Hp Herr; subst p err.
    exists evs, f. rewrite (processRecord_clone_failed w e w1 Hclone). simpl.
    repeat split; try assumption.
    left. assert (f = 3%nat) by lia. subst a.
    repeat split; try assumption; try lia. exists e. reflexivity.
  - inversion Hr; subst p err.
    destruct (processCloned_spec (mkResult record [] ∅ "" "" "") d w1)
      as (evs2 & Htr2 & Hfs2 & (A2 & F2 & S2 & W2 & C2)).
    exists (evs ++ evs2 ++ [ERemoveAll d]), f.
    rewrite (processRecord_cloned w d w1 Hclone). simpl.
    rewrite Htr2, Htr, Hfs2, Hfs, <- !app_assoc.
    rewrite !count_app, !sleepDurations_app, !createdDirs_app.
    rewrite A, F, S, W, A2, F2, S2, W2, C2. simpl.
    rewrite !app_nil_r, !Nat.add_0_r.
    split; [reflexivity|].
    split; [apply fs_create_remove; assumption|].
    repeat split; try assumption; try reflexivity.
    right. split; lia.
Qed.

End ProgramFacts.


Lemma newEvents_of w w' evs :
  trace w' = trace w ++ evs -> newEvents w w' = evs.
Proof. intros H. unfold newEvents. rewrite H. apply drop_app_length. Qed.

(** C3 (as amended): the Item Pipeline attempts acquisition at most 3 times,
    sleeps a fixed 2-second interval after every failed attempt (the third
    included, so the run of an item whose three attempts failed ends with a
    sleep), emits one warning per failed attempt when not quiet and none
    when quiet, and after three failed attempts sets the error to the
    clone-stage message and returns with no later stage run. *)
Theorem processRecord_retry_policy o record quiet w :
  let r := processRecord o record quiet w in
  let evs := newEvents w r.2 in
  (count isAttempt evs <= 3)%nat /\
  sleepDurations evs = repeat (2 * Second) (count isFailedAttempt evs) /\
  count isCloneWarning evs
  = (if quiet then 0%nat else count isFailedAttempt evs) /\
  (count isFailedAttempt evs = 3%nat ->
   (exists e, Error r.1
              = "failed to clone repo '" +:+ RepoURL record +:+ "': " +:+ e) /\
   count isLaterStage evs = 0%nat /\
   last evs = Some (ESleep (2 * Second))).
Proof.
  intros r evs. subst r evs.
  destruct (processRecord_spec o record quiet w)
    as (evs & f & Htr & _ & _ & F & S & W & Hcase).
  rewrite (newEvents_of _ _ _ Htr). rewrite F.
  split; [destruct Hcase as [(_ & A & _) | (Hf & A)]; rewrite A; lia|].
  split; [assumption|]. split; [assumption|].
  intros Hf3.
  destruct Hcase as [(_ & _ & L & Hlast & e & Hr) | (Hf & _)]; [|lia].
  rewrite Hr. simpl. eauto.
Qed.

Lemma processRecord_retry_policy_witness :
  count isFailedAttempt
    (newEvents emptyWorld
       (processRecord unreachableOracle sampleRecord false emptyWorld).2) = 3%nat /\
  last (newEvents emptyWorld
          (processRecord unreachableOracle sampleRecord false emptyWorld).2)
  = Some (ESleep (2 * Second)).
Proof.
  split; [vm_compute; reflexivity|].
  apply (proj2 (proj2 (proj2
           (processRecord_retry_policy unreachableOracle sampleRecord false
                                       emptyWorld)))).
  vm_compute. reflexivity.
Defined.

(** C3, as the claim words it, fails: when all three attempts fail the
    program sleeps a third time, after the last attempt, so not every sleep
    lies between two attempts. *)
Lemma sleep_after_last_attempt :
  sleepsOnlyBetweenAttempts
    (newEvents emptyWorld
       (processRecord unreachableOracle sampleRecord false emptyWorld).2) = false /\
  sleepDurations
    (newEvents emptyWorld
       (processRecord unreachableOracle sampleRecord false emptyWorld).2)
  = [2 * Second; 2 * Second; 2 * Second] /\
  count isAttempt
    (newEvents emptyWorld
       (processRecord unreachableOracle sampleRecord false emptyWorld).2) = 3%nat.
Proof. vm_compute. repeat split; reflexivity. Qed.

(** C4: an Outcome for an item whose acquisition failed on all 3 attempts
    has no DependencyRequirement entries, no ComplianceMap entries, no
    last-activity timestamp or author, and an error tagged as clone-stage
    failure. *)
Theorem unreachable_outcome_is_bare o record quiet w :
  let r := processRecord o record quiet w in
  count isFailedAttempt (newEvents w r.2) = 3%nat ->
  Providers r.1 = [] /\
  Compatibility r.1 = ∅ /\
  LastCommitDate r.1 = "" /\
  LastCommitAuthor r.1 = "" /\
  Strings.Contains (Error r.1) "failed to clone repo" = true /\
  Record_ r.1 = record.
Proof.
  intros r. subst r.
  destruct (processRecord_spec o record quiet w)
    as (evs & f & Htr & _ & _ & F & _ & _ & Hcase).
  rewrite (newEvents_of _ _ _ Htr), F. intros Hf3.
  destruct Hcase as [(_ & _ & _ & _ & e & Hr) | (Hf & _)]; [|lia].
  rewrite Hr. simpl. repeat split; reflexivity.
Qed.

Lemma unreachable_outcome_is_bare_witness :
  Providers (processRecord unreachableOracle sampleRecord true emptyWorld).1 = [] /\
  Compatibility (processRecord unreachableOracle sampleRecord true emptyWorld).1 = ∅ /\
  LastCommitDate (processRecord unreachableOracle sampleRecord true emptyWorld).1 = "" /\
  LastCommitAuthor (processRecord unreachableOracle sampleRecord true emptyWorld).1 = "" /\
  Strings.Contains
    (Error (processRecord unreachableOracle sampleRecord true emptyWorld).1)
    "failed to clone repo" = true /\
  Record_ (processRecord unreachableOracle sampleRecord true emptyWorld).1
  = sampleRecord.
Proof.
  apply (unreachable_outcome_is_bare unreachableOracle sampleRecord true emptyWorld).
  vm_compute. reflexivity.
Defined.

(** C7: no scratch location remains after the pipeline invocation ends.  A
    failed [cloneRepo] has removed the directory it created before it
    returns; a successful one leaves exactly its fresh directory; and after
    [processRecord], whatever the later stages did, the disk is what it was
    and none of the directories created on the way is left. *)
Theorem scratch_locations_are_removed o url record quiet w :
  let c := cloneRepo o url w in
  let r := processRecord o record quiet w in
  match c.1 with
  | Err _ =>
      fs c.2 = fs w /\
      Forall (fun d => d ∉ fs c.2) (createdDirs (newEvents w c.2))
  | Ok d =>
      fs c.2 = {[d]} ∪ fs w /\ (d ∉ fs w)
  end /\
  fs r.2 = fs w /\
  Forall (fun d => d ∉ fs r.2) (createdDirs (newEvents w r.2)).
Proof.
  intros c r. subst c r. split.
  - destruct (cloneRepo_spec o url w) as (evs & Htr & Hfresh & Hres).
    rewrite (newEvents_of _ _ _ Htr).
    destruct (cloneRepo o url w).1 as [d|e].
    + destruct Hres as (_ & Hd & Hfs). split; assumption.
    + destruct Hres as (_ & Hfs). rewrite Hfs. split; [reflexivity | assumption].
  - destruct (processRecord_spec o record quiet w)
      as (evs & f & Htr & Hfs & Hfresh & _).
    rewrite (newEvents_of _ _ _ Htr), Hfs. split; [reflexivity | assumption].
Qed.

(** *** The constraint loop *)

Lemma checkProviders_fields ps : forall res,
  let out := flowResult (checkProviders ps res) in
  Record_ out = Record_ res /\
  Providers out = Providers res /\
  LastCommitDate out = LastCommitDate res /\
  LastCommitAuthor out = LastCommitAuthor res /\
  Compatibility out = evalProviders ps (Compatibility res).
Proof.
  induction ps as [|p rest IH]; intros res; simpl.
  - repeat split; reflexivity.
  - destruct (providersToCheck !! ProviderName p) as [floor|]; [|apply IH].
    destruct (checkVersionConstraints floor (Version p)) as [valid|cErr].
    + apply (IH (setCompatibility res _)).
    + simpl. repeat split; reflexivity.
Qed.

Lemma checkProviders_Continue_error ps : forall res res',
  checkProviders ps res = Continue res' -> Error res' = Error res.
Proof.
  induction ps as [|p rest IH]; intros res res' H; simpl in H.
  - injection H as <-. reflexivity.
  - destruct (providersToCheck !! ProviderName p) as [floor|]; [|eauto].
    destruct (checkVersionConstraints floor (Version p)) as [valid|cErr];
      [|discriminate].
    apply IH in H. exact H.
Qed.

Lemma checkProviders_app pre : forall rest res res1,
  checkProviders pre res = Continue res1 ->
  checkProviders (pre ++ rest) res = checkProviders rest res1.
Proof.
  induction pre as [|p pre IH]; intros rest res res1 H; simpl in *.
  - injection H as <-. reflexivity.
  - destruct (providersToCheck !! ProviderName p) as [floor|]; [|eauto].
    destruct (checkVersionConstraints floor (Version p)) as [valid|cErr];
      [eauto | discriminate].
Qed.

(** The last store wins: after a loop that ran to its end, the entry of a
    name is the result of the last evaluation made for it. *)
Lemma checkProviders_last ps : forall res res' name,
  checkProviders ps res = Continue res' ->
  Compatibility res' !! name
  = match last (evaluations name ps) with
    | Some (Ok v) => Some v
    | Some (Err _) => None
    | None => Compatibility res !! name
    end.
Proof.
  induction ps as [|p rest IH]; intros res res' name H; simpl in H.
  - injection H as <-. reflexivity.
  - simpl evaluations. rewrite last_app.
    destruct (String.eqb_spec (ProviderName p) name) as [Heq|Hne].
    + subst name.
      destruct (providersToCheck !! ProviderName p) as [floor|].
      * destruct (checkVersionConstraints floor (Version p)) as [valid|cErr];
          [|discriminate].
        rewrite (IH _ _ (ProviderName p) H). simpl.
        destruct (last (evaluations (ProviderName p) rest)) as [[v|e]|];
          try reflexivity.
        apply lookup_insert_eq.
      * rewrite (IH _ _ (ProviderName p) H). simpl.
        destruct (last (evaluations (ProviderName p) rest)) as [[v|e]|];
          reflexivity.
    + destruct (providersToCheck !! ProviderName p) as [floor|].
      * destruct (checkVersionConstraints floor (Version p)) as [valid|cErr];
          [|discriminate].
        rewrite (IH _ _ name H). simpl.
        destruct (last (evaluations name rest)) as [[v|e]|]; try reflexivity.
        apply lookup_insert_ne. assumption.
      * rewrite (IH _ _ name H). simpl.
        destruct (last (evaluations name rest)) as [[v|e]|]; reflexivity.
Qed.

(** *** The stages after acquisition, path by path *)

Lemma processCloned_check_failed o record quiet repoPath w1 providers w2 res2 :
  parseTerraformModule o repoPath w1 = (Ok providers, w2) ->
  checkProviders providers (mkResult record providers ∅ "" "" "") = Return res2 ->
  processCloned o record quiet (mkResult record [] ∅ "" "" "") repoPath w1
  = (res2, w2).
Proof.
  intros Hparse Hcheck. unfold processCloned.
  rewrite bind_eq, Hparse. simpl.
  change (setCompatibility _ ∅) with (mkResult record providers ∅ "" "" "").
  rewrite Hcheck. reflexivity.
Qed.

Lemma processCloned_inspect_failed o record quiet repoPath w1 providers w2 res2
      commitErr w3 :
  parseTerraformModule o repoPath w1 = (Ok providers, w2) ->
  checkProviders providers (mkResult record providers ∅ "" "" "") = Continue res2 ->
  getLastCommitInfo o repoPath w2 = (Err commitErr, w3) ->
  (processCloned o record quiet (mkResult record [] ∅ "" "" "") repoPath w1).1
  = setError res2
      (Error res2 +:+ " | could not retrieve last commit info: " +:+ commitErr).
Proof.
  intros Hparse Hcheck Hlog. unfold processCloned.
  rewrite bind_eq, Hparse. simpl.
  change (setCompatibility _ ∅) with (mkResult record providers ∅ "" "" "").
  rewrite Hcheck, bind_eq, Hlog. simpl.
  rewrite bind_eq. reflexivity.
Qed.

Lemma processCloned_all_stages o record quiet repoPath w1 providers w2 res2 :
  parseTerraformModule o repoPath w1 = (Ok providers, w2) ->
  checkProviders providers (mkResult record providers ∅ "" "" "") = Continue res2 ->
  Compatibility
    (processCloned o record quiet (mkResult record [] ∅ "" "" "") repoPath w1).1
  = Compatibility res2.
Proof.
  intros Hparse Hcheck. unfold processCloned.
  rewrite bind_eq, Hparse. simpl.
  change (setCompatibility _ ∅) with (mkResult record providers ∅ "" "" "").
  rewrite Hcheck, bind_eq.
  destruct (getLastCommitInfo o repoPath w2) as [[[lastDate author]|commitErr] w3];
    simpl; [reflexivity|].
  rewrite bind_eq. reflexivity.
Qed.

(** C5: when the Activity Inspector fails after the earlier stages
    succeeded, the item is not aborted.  The suffix
    [" | could not retrieve last commit info: <err>"] is appended to the
    error text the Outcome has at that point; no earlier stage can have left
    one, so the error is that suffix.  Timestamp and author stay empty, and
    the DependencyRequirement list and the ComplianceMap stay as extracted
    and evaluated. *)
Theorem inspection_failure_keeps_outcome
    o record quiet w repoPath w1 providers w2 res2 commitErr w3 :
  cloneLoop o 3 1 record quiet "" None w = ((repoPath, None), w1) ->
  parseTerraformModule o repoPath w1 = (Ok providers, w2) ->
  checkProviders providers (mkResult record providers ∅ "" "" "") = Continue res2 ->
  getLastCommitInfo o repoPath w2 = (Err commitErr, w3) ->
  let res := (processRecord o record quiet w).1 in
  Error res2 = "" /\
  Error res
  = Error res2 +:+ " | could not retrieve last commit info: " +:+ commitErr /\
  LastCommitDate res = "" /\
  LastCommitAuthor res = "" /\
  Providers res = providers /\
  Compatibility res = evalProviders providers ∅ /\
  Record_ res = record.
Proof.
  intros Hclone Hparse Hcheck Hlog res. subst res.
  rewrite (processRecord_cloned o record quiet w repoPath w1 Hclone). simpl.
  rewrite (processCloned_inspect_failed _ _ _ _ _ _ _ _ _ _ Hparse Hcheck Hlog).
  pose proof (checkProviders_fields providers (mkResult record providers ∅ "" "" ""))
    as Hf.
  rewrite Hcheck in Hf. simpl in Hf. destruct Hf as (R & P & D & A & C).
  pose proof (checkProviders_Continue_error _ _ _ Hcheck) as E. simpl in E.
  simpl. repeat split; assumption || (rewrite E; reflexivity) || idtac.
Qed.

Lemma inspection_failure_keeps_outcome_witness :
  let res := (processRecord noHistoryOracle sampleRecord true emptyWorld).1 in
  Error res
  = " | could not retrieve last commit info: failed to get last commit: exit status 128" /\
  LastCommitDate res = "" /\
  Providers res
  = [mkProviderVersion "azurerm" "~>3.0"; mkProviderVersion "azurerm" ">=4.0.0";
     mkProviderVersion "random" ">= 3.5.0"] /\
  Compatibility res !! "azurerm" = Some true.
Proof.
  edestruct (inspection_failure_keeps_outcome noHistoryOracle sampleRecord true
                                              emptyWorld)
    as (E0 & E & D & A & P & C & R).
  - vm_compute. reflexivity.
  - vm_compute. reflexivity.
  - vm_compute. reflexivity.
  - vm_compute. reflexivity.
  - cbv zeta. rewrite E, E0, D, P, C. repeat split; vm_compute; reflexivity.
Defined.

(** C9: when a tracked dependency declares more than one constraint
    expression, the ComplianceMap entry for its name holds the evaluation
    result of the last-processed expression only, every evaluation
    overwriting the one before; the entry is not the conjunction of the
    declared expressions, as the module declaring [~>3.0] and [>=4.0.0] for
    [azurerm] shows. *)
Theorem last_expression_decides_compliance :
  (forall o record quiet w repoPath w1 providers w2 res2 name,
     cloneLoop o 3 1 record quiet "" None w = ((repoPath, None), w1) ->
     parseTerraformModule o repoPath w1 = (Ok providers, w2) ->
     checkProviders providers (mkResult record providers ∅ "" "" "")
     = Continue res2 ->
     Compatibility (processRecord o record quiet w).1 !! name
     = match last (evaluations name providers) with
       | Some (Ok v) => Some v
       | _ => None
       end) /\
  (let res := (processRecord twoExpressionsOracle sampleRecord true emptyWorld).1 in
   evaluations "azurerm" (Providers res) = [Ok false; Ok true] /\
   Compatibility res !! "azurerm" = Some true /\
   conjunction (evaluations "azurerm" (Providers res)) = false).
Proof.
  split.
  - intros o record quiet w repoPath w1 providers w2 res2 name Hclone Hparse Hcheck.
    rewrite (processRecord_cloned o record quiet w repoPath w1 Hclone). simpl.
    rewrite (processCloned_all_stages _ _ _ _ _ _ _ _ Hparse Hcheck).
    rewrite (checkProviders_last _ _ _ name Hcheck). simpl.
    destruct (last (evaluations name providers)) as [[v|e]|]; reflexivity.
  - vm_compute. repeat split; reflexivity.
Qed.

Lemma last_expression_decides_compliance_witness :
  Compatibility (processRecord twoExpressionsOracle sampleRecord false emptyWorld).1
    !! "azurerm" = Some true.
Proof.
  etransitivity.
  - eapply (proj1 last_expression_decides_compliance twoExpressionsOracle
                  sampleRecord false emptyWorld).
    + vm_compute. reflexivity.
    + vm_compute. reflexivity.
    + vm_compute. reflexivity.
  - vm_compute. reflexivity.
Defined.

(** C10: when the Constraint Evaluator fails on a tracked dependency's
    expression, the Outcome carries the evaluation-stage error, the full
    extracted DependencyRequirement list, and the ComplianceMap entries
    stored for the dependencies evaluated before the failure; timestamp and
    author stay empty. *)
Theorem evaluation_failure_keeps_partial_map
    o record quiet w repoPath w1 providers w2 pre p post resPre floor cErr :
  cloneLoop o 3 1 record quiet "" None w = ((repoPath, None), w1) ->
  parseTerraformModule o repoPath w1 = (Ok providers, w2) ->
  providers = pre ++ p :: post ->
  checkProviders pre (mkResult record providers ∅ "" "" "") = Continue resPre ->
  providersToCheck !! ProviderName p = Some floor ->
  checkVersionConstraints floor (Version p) = Err cErr ->
  let res := (processRecord o record quiet w).1 in
  Error res
  = "failed to check version constraints for provider '" +:+ ProviderName p
    +:+ "': " +:+ cErr /\
  Providers res = providers /\
  Compatibility res = evalProviders pre ∅ /\
  (forall name,
     Compatibility res !! name
     = match last (evaluations name pre) with
       | Some (Ok v) => Some v
       | _ => None
       end) /\
  LastCommitDate res = "" /\
  LastCommitAuthor res = "" /\
  Record_ res = record.
Proof.
  intros Hclone Hparse Hsplit Hpre Hfloor Hfail res. subst res.
  assert (Hcheck : checkProviders providers (mkResult record providers ∅ "" "" "")
                   = Return (setError resPre
                               ("failed to check version constraints for provider '"
                                +:+ ProviderName p +:+ "': " +:+ cErr))).
  { rewrite Hsplit at 1. rewrite (checkProviders_app _ _ _ _ Hpre). simpl.
    rewrite Hfloor, Hfail. reflexivity. }
  rewrite (processRecord_cloned o record quiet w repoPath w1 Hclone). simpl.
  rewrite (processCloned_check_failed _ _ _ _ _ _ _ _ Hparse Hcheck).
  pose proof (checkProviders_fields pre (mkResult record providers ∅ "" "" ""))
    as Hf.
  rewrite Hpre in Hf. simpl in Hf. destruct Hf as (R & P & D & A & C).
  simpl. repeat split; try assumption.
  intros name. rewrite (checkProviders_last _ _ _ name Hpre). simpl.
  destruct (last (evaluations name pre)) as [[v|e]|]; reflexivity.
Qed.

Lemma evaluation_failure_keeps_partial_map_witness :
  let res := (processRecord malformedOracle sampleRecord true emptyWorld).1 in
  Error res
  = "failed to check version constraints for provider 'azapi': failed to parse constraint 'not-a-version': Malformed constraint: not-a-version" /\
  length (Providers res) = 3%nat /\
  Compatibility res !! "azurerm" = Some true /\
  Compatibility res !! "azapi" = None /\
  LastCommitDate res = "".
Proof.
  epose proof (evaluation_failure_keeps_partial_map malformedOracle sampleRecord
                 true emptyWorld (scratchName 0) _ _ _
                 [mkProviderVersion "azurerm" ">= 3.0"]
                 (mkProviderVersion "azapi" "not-a-version")
                 [mkProviderVersion "random" ">= 3.5.0"]) as H.
  edestruct H as (E & P & C & L & D & A & R).
  - vm_compute. reflexivity.
  - vm_compute. reflexivity.
  - reflexivity.
  - vm_compute. reflexivity.
  - vm_compute. reflexivity.
  - vm_compute. reflexivity.
  - cbv zeta. rewrite E, P, D, !L. repeat split; vm_compute; reflexivity.
Defined.

(** *** The Constraint Evaluator *)

(** C2: the Constraint Evaluator checks the configured floor version as
    the candidate against the declared constraint expression: floor
    ["4.0.0"] gives true on [">=4.0.0"], false on ["~>3.0"] and an error on
    ["not-a-version"]; the first operand is parsed as the version and the
    second as the constraint, and the pipeline passes the floor of the
    tracked name first and the declared expression second.  The reverse
    reading answers differently: 4.0.0 satisfies [>= 3.0], 3.0 does not
    satisfy [>= 4.0.0]. *)
Theorem floor_is_the_candidate :
  checkVersionConstraints "4.0.0" ">=4.0.0" = Ok true /\
  checkVersionConstraints "4.0.0" "~>3.0" = Ok false /\
  (exists e, checkVersionConstraints "4.0.0" "not-a-version" = Err e) /\
  (forall floor expr ver cs,
     GoVersion.NewVersion floor = Ok ver ->
     GoVersion.NewConstraint expr = Ok cs ->
     checkVersionConstraints floor expr = Ok (GoVersion.Check cs ver)) /\
  (forall p floor rest res,
     providersToCheck !! ProviderName p = Some floor ->
     checkProviders (p :: rest) res
     = match checkVersionConstraints floor (Version p) with
       | Ok valid =>
           checkProviders rest
             (setCompatibility res
                (<[ProviderName p := valid]> (Compatibility res)))
       | Err cErr =>
           Return (setError res
                     ("failed to check version constraints for provider '"
                      +:+ ProviderName p +:+ "': " +:+ cErr))
       end) /\
  providersToCheck !! "azurerm" = Some "4.0.0" /\
  providersToCheck !! "azapi" = Some "2.0.0" /\
  checkVersionConstraints "4.0.0" ">= 3.0" = Ok true /\
  checkVersionConstraints "3.0" ">= 4.0.0" = Ok false.
Proof.
  split; [vm_compute; reflexivity|].
  split; [vm_compute; reflexivity|].
  split; [eexists; vm_compute; reflexivity|].
  split.
  { intros floor expr ver cs Hv Hc. unfold checkVersionConstraints.
    rewrite Hv, Hc. reflexivity. }
  split.
  { intros p floor rest res Hfloor. simpl. rewrite Hfloor. reflexivity. }
  repeat split; vm_compute; reflexivity.
Qed.

Lemma floor_is_the_candidate_witness :
  checkProviders [mkProviderVersion "azurerm" "~> 4.0"] zeroResult
  = Continue (setCompatibility zeroResult {[ "azurerm" := true ]}) /\
  checkVersionConstraints "2.0.0" ">= 1.9, < 3.0" = Ok true.
Proof.
  split.
  - rewrite (proj1 (proj2 (proj2 (proj2 (proj2 floor_is_the_candidate))))
               (mkProviderVersion "azurerm" "~> 4.0") "4.0.0" [] zeroResult);
      vm_compute; reflexivity.
  - etransitivity.
    + eapply (proj1 (proj2 (proj2 (proj2 floor_is_the_candidate)))
                "2.0.0" ">= 1.9, < 3.0").
      * vm_compute. reflexivity.
      * vm_compute. reflexivity.
    + vm_compute. reflexivity.
Defined.

(** *** The Summarizer *)

Lemma append_cons c s t : String c s +:+ t = String c (s +:+ t).
Proof. reflexivity. Qed.

Lemma HasPrefix_spec p : forall s,
  Strings.HasPrefix s p = true <-> exists b, s = p +:+ b.
Proof.
  induction p as [|a p IH]; intros s; simpl.
  - split; [intros _; exists s; reflexivity | reflexivity].
  - destruct s as [|c s].
    + split; [discriminate | intros [b Hb]; discriminate].
    + destruct (Ascii.eqb_spec a c) as [->|Hne].
      * rewrite IH. split; intros [b Hb]; exists b;
          rewrite append_cons in *; congruence.
      * split; [discriminate | intros [b Hb]; rewrite append_cons in Hb; congruence].
Qed.

Lemma Contains_spec substr : forall s,
  Strings.Contains s substr = true <-> exists a b, s = a +:+ substr +:+ b.
Proof.
  induction s as [|c s IH].
  - simpl. rewrite orb_false_r, HasPrefix_spec. split.
    + intros [b Hb]. exists "", b. exact Hb.
    + intros (a & b & Hab). destruct a; [exists b; exact Hab | discriminate].
  - change (Strings.Contains (String c s) substr)
      with (Strings.HasPrefix (String c s) substr || Strings.Contains s substr).
    rewrite orb_true_iff, HasPrefix_spec, IH. split.
    + intros [[b Hb] | (a & b & Hab)].
      * exists "", b. exact Hb.
      * exists (String c a), b. rewrite append_cons, Hab. reflexivity.
    + intros (a & b & Hab). destruct a as [|c' a].
      * left. exists b. exact Hab.
      * right. exists a, b. rewrite append_cons in Hab. congruence.
Qed.

Lemma tracked_names name :
  is_Some (providersToCheck !! name) <-> name = "azurerm" \/ name = "azapi".
Proof.
  unfold providersToCheck. split.
  - intros [v Hv].
    destruct (decide (name = "azurerm")) as [|Hne1]; [left; assumption|].
    rewrite lookup_insert_ne in Hv by congruence.
    destruct (decide (name = "azapi")) as [|Hne2]; [right; assumption|].
    rewrite lookup_insert_ne in Hv by congruence.
    rewrite lookup_empty in Hv. discriminate.
  - intros [-> | ->]; eexists; vm_compute; reflexivity.
Qed.

Lemma isNotCompatible_spec r :
  isNotCompatible r = true
  <-> exists name, is_Some (providersToCheck !! name) /\
                   Compatibility r !! name = Some false.
Proof.
  unfold isNotCompatible, mapIndex. split.
  - intros H.
    destruct (Compatibility r !! "azurerm") as [[|]|] eqn:H1;
      destruct (Compatibility r !! "azapi") as [[|]|] eqn:H2;
      simpl in H; try discriminate;
      first [ exists "azurerm"; split; [apply tracked_names; auto | assumption]
            | exists "azapi"; split; [apply tracked_names; auto | assumption] ].
  - intros (name & Htracked & Hfalse).
    apply tracked_names in Htracked. destruct Htracked as [-> | ->];
      rewrite Hfalse; simpl.
    + destruct (Compatibility r !! "azapi") as [[|]|]; reflexivity.
    + destruct (Compatibility r !! "azurerm") as [[|]|]; reflexivity.
Qed.

Lemma summarizeStep_counts six u n d r :
  summarizeStep six (u, n, d) r
  = (u + (if isUnreachable r then 1 else 0),
     n + (if isNotCompatible r then 1 else 0),
     d + (if isDormant six r then 1 else 0)).
Proof.
  unfold summarizeStep, isUnreachable, isNotCompatible, isDormant.
  destruct (mapIndex (Compatibility r) "azurerm") as [s1 h1].
  destruct (mapIndex (Compatibility r) "azapi") as [s2 h2].
  destruct (Strings.Contains (Error r) "failed to clone repo");
    destruct (negb (LastCommitDate r =? "")%string);
    destruct (GoTime.ParseRFC3339 (LastCommitDate r)) as [t|];
    try destruct (GoTime.Before t six);
    destruct ((h1 && negb s1) || (h2 && negb s2));
    simpl; rewrite ?Z.add_0_r; reflexivity.
Qed.

Lemma countWhere_cons p r rs :
  countWhere p (r :: rs) = (if p r then 1 else 0) + countWhere p rs.
Proof.
  unfold countWhere. simpl. destruct (p r); simpl length; lia.
Qed.

(** The loop of [summarizeResults] adds up three independent counts. *)
Lemma summarize_fold six rs : forall u n d,
  fold_left (summarizeStep six) rs (u, n, d)
  = (u + countWhere isUnreachable rs,
     n + countWhere isNotCompatible rs,
     d + countWhere (isDormant six) rs).
Proof.
  induction rs as [|r rs IH]; intros u n d.
  - simpl. unfold countWhere. simpl. rewrite !Z.add_0_r. reflexivity.
  - cbn [fold_left]. rewrite summarizeStep_counts, IH, !countWhere_cons.
    f_equal; [f_equal|]; lia.
Qed.

Lemma summarizeResults_counts now rs :
  summarizeResults now rs
  = (countWhere isUnreachable rs,
     countWhere isNotCompatible rs,
     countWhere (isDormant (GoTime.AddDate now 0 (-6) 0)) rs).
Proof. unfold summarizeResults. rewrite summarize_fold. reflexivity. Qed.



Lemma dateOffset_FixedZone offset unix :
  GoTime.dateOffset (GoTime.FixedZone offset) unix = offset.
Proof.
  unfold GoTime.dateOffset, GoTime.FixedZone, GoTime.offsetAt. simpl.
  destruct (Z.eqb_spec offset 0) as [->|_]; [reflexivity|].
  destruct (_ || _); reflexivity.
Qed.

(** In a location of one zone [Date] moves every reading by its offset. *)
Lemma Date_FixedZone year month day hour min sec ns offset :
  GoTime.Date year month day hour min sec ns (GoTime.FixedZone offset)
  = GoTime.mkTime
      ((GoTime.civilUnix year month day hour min sec ns).1 - offset)
      (GoTime.civilUnix year month day hour min sec ns).2
      (GoTime.FixedZone offset).
Proof.
  unfold GoTime.Date.
  destruct (GoTime.civilUnix year month day hour min sec ns) as [unix ns'].
  rewrite dateOffset_FixedZone. reflexivity.
Qed.


(** C8: the Summarizer computes its three counts independently over the
    outcome collection: each is the number of outcomes passing one test.  An
    outcome counts as unreachable exactly when its error text contains the
    clone-stage tag, as non-compliant exactly when its ComplianceMap maps a
    tracked dependency name to false, and one outcome may count toward more
    than one category. *)
Theorem summary_counts_are_independent :
  (forall now rs,
     summarizeResults now rs
     = (countWhere isUnreachable rs,
        countWhere isNotCompatible rs,
        countWhere (isDormant (GoTime.AddDate now 0 (-6) 0)) rs)) /\
  (forall r,
     isUnreachable r = true
     <-> exists a b, Error r = a +:+ "failed to clone repo" +:+ b) /\
  (forall r,
     isNotCompatible r = true
     <-> exists name, is_Some (providersToCheck !! name) /\
                      Compatibility r !! name = Some false) /\
  (let r := (processRecord staleOracle sampleRecord true emptyWorld).1 in
   summarizeResults sampleNow [r] = (0, 1, 1)) /\
  summarizeResults sampleNow [overlappingOutcome] = (1, 1, 1).
Proof.
  split; [exact summarizeResults_counts|].
  split; [intros r; apply Contains_spec|].
  split; [exact isNotCompatible_spec|].
  split; vm_compute; reflexivity.
Qed.

Lemma summary_counts_are_independent_witness :
  isUnreachable (processRecord unreachableOracle sampleRecord true emptyWorld).1
  = true /\
  isNotCompatible overlappingOutcome = true.
Proof.
  split.
  - apply (proj1 (proj2 summary_counts_are_independent)).
    exists "", " 'https://github.com/Azure/terraform-azurerm-avm-res-keyvault-vault': git clone failed: exit status 128, output: fatal: repository not found".
    vm_compute. reflexivity.
  - apply (proj1 (proj2 (proj2 summary_counts_are_independent))).
    exists "azurerm". split; [eexists|]; vm_compute; reflexivity.
Defined.



Lemma parsed_date_not_empty s t :
  GoTime.ParseRFC3339 s = Some t -> (s =? "")%string = false.
Proof. destruct s; [discriminate | reflexivity]. Qed.




(** *** The worker pool *)

Lemma flat_map_insert {A : Type} (g : WorkerPC -> list A) ws i wk wk' :
  ws !! i = Some wk ->
  flat_map g ws = flat_map g (take i ws) ++ g wk ++ flat_map g (drop (S i) ws) /\
  flat_map g (<[i := wk']> ws)
  = flat_map g (take i ws) ++ g wk' ++ flat_map g (drop (S i) ws).
Proof.
  intros H. split.
  - rewrite <- (take_drop_middle ws i wk H) at 1.
    rewrite flat_map_app. reflexivity.
  - rewrite insert_take_drop by (eapply lookup_lt_Some; eassumption).
    rewrite flat_map_app. reflexivity.
Qed.

Lemma list_sum_insert (m : WorkerPC -> nat) ws i wk wk' :
  ws !! i = Some wk ->
  (list_sum (List.map m (<[i := wk']> ws)) + m wk
   = list_sum (List.map m ws) + m wk')%nat.
Proof.
  revert i. induction ws as [|a ws IH]; intros i H; [discriminate|].
  destruct i as [|i]; simpl in *.
  - injection H as ->. lia.
  - specialize (IH i H). lia.
Qed.

Lemma activeWorkers_zero ws :
  activeWorkers ws = 0%nat ->
  heldRecords ws = [] /\ sendingResults ws = [] /\
  Forall (fun wk => wk = WDone) ws.
Proof.
  unfold activeWorkers, heldRecords, sendingResults.
  induction ws as [|wk ws IH]; simpl; intros H.
  - repeat split; constructor.
  - destruct wk; simpl in H; try lia.
    destruct (IH H) as (Hh & Hs & Hd). simpl. repeat split; auto.
Qed.

Lemma activeWorkers_pos ws :
  (0 < activeWorkers ws)%nat ->
  exists i wk, ws !! i = Some wk /\ wk <> WDone.
Proof.
  unfold activeWorkers.
  induction ws as [|wk ws IH]; simpl; intros H; [lia|].
  destruct wk;
    try (eexists 0%nat, _; split; [reflexivity | discriminate]).
  simpl in H. destruct (IH H) as (i & wk' & Hi & Hwk).
  exists (S i), wk'. split; assumption.
Qed.

Lemma wrap32_small z : - 2 ^ 31 <= z < 2 ^ 31 -> wrap32 z = z.
Proof. intros H. unfold wrap32. rewrite Z.mod_small; lia. Qed.

Lemma wrap32_mod z : wrap32 z mod 2 ^ 32 = z mod 2 ^ 32.
Proof.
  unfold wrap32. rewrite Zminus_mod_idemp_l. f_equal. lia.
Qed.

Lemma wrap32_of_mod z : wrap32 (z mod 2 ^ 32) = wrap32 z.
Proof. unfold wrap32. rewrite Zplus_mod_idemp_l. reflexivity. Qed.

Lemma wrap32_pred z : wrap32 (wrap32 (z + 1) - 1) = wrap32 z.
Proof.
  unfold wrap32.
  replace ((z + 1 + 2 ^ 31) mod 2 ^ 32 - 2 ^ 31 - 1 + 2 ^ 31)
    with ((z + 1 + 2 ^ 31) mod 2 ^ 32 - 1) by lia.
  rewrite Zminus_mod_idemp_l. do 2 f_equal. lia.
Qed.

Lemma slotsFilled_bounds p : 0 <= slotsFilled p < 2 ^ 32.
Proof. unfold slotsFilled. apply Z.mod_pos_bound. lia. Qed.

Lemma processCloned_record o record quiet res repoPath w :
  Record_ (processCloned o record quiet res repoPath w).1 = Record_ res.
Proof.
  unfold processCloned. rewrite bind_eq.
  destruct (parseTerraformModule o repoPath w).1 as [providers|err];
    [|reflexivity].
  pose proof (checkProviders_fields providers
                (setCompatibility (setProviders res providers) ∅)) as Hf.
  destruct (checkProviders providers _) as [res'|res']; simpl in Hf;
    destruct Hf as (R & _); [|simpl; rewrite R; reflexivity].
  rewrite bind_eq.
  destruct (getLastCommitInfo o repoPath _).1 as [[lastDate author]|commitErr];
    simpl; [rewrite R; reflexivity|].
  rewrite bind_eq. simpl. rewrite R. reflexivity.
Qed.

(** The Outcome embeds the work item it was computed for. *)
Lemma processRecord_record o record quiet w :
  Record_ (processRecord o record quiet w).1 = record.
Proof.
  unfold processRecord. rewrite bind_eq.
  destruct (cloneLoop o 3 1 record quiet "" None w).1 as [repoPath [e|]];
    simpl; [reflexivity|].
  rewrite bind_eq. simpl. rewrite bind_eq. simpl.
  apply processCloned_record.
Qed.

Section PoolFacts.

Variable o : Oracle.
Variable quiet : bool.
Variable numWorkers : Z.
Variable records : list CSVRecord.

Hypothesis records_fit_int32 : Z.of_nat (length records) <= 2 ^ 31.

Notation "'Inv'" := (poolInv o quiet numWorkers records).

Lemma initPool_inv w : Inv (initPool records w).
Proof.
  constructor; simpl; unfold gathered, slotsFilled; simpl.
  - rewrite app_nil_r. reflexivity.
  - constructor.
  - constructor.
  - constructor.
  - apply length_replicate.
  - rewrite Z.mod_0_l; lia.
  - reflexivity.
  - lia.
  - right. constructor.
  - discriminate.
  - repeat split; try reflexivity. lia.
Qed.

Lemma gathered_length p :
  Inv p -> length (gathered p) = Z.to_nat (slotsFilled p).
Proof.
  intros [? ? ? ? Hlen Hidx ? ? ? ? ?]. unfold gathered.
  apply length_take_le. lia.
Qed.

(** While an outcome waits in the channel, a slot of [results] is free. *)
Lemma index_below_length p r rest :
  Inv p -> p_resultChan p = r :: rest ->
  slotsFilled p < Z.of_nat (length records).
Proof.
  intros Hinv Hchan. pose proof (gathered_length p Hinv) as Hg.
  destruct Hinv as [Hcons ? ? ? Hlen Hidx ? ? ? ? ?].
  apply Permutation_length in Hcons.
  rewrite !length_app, !length_map, Hchan, Hg in Hcons. simpl in Hcons. lia.
Qed.

(** The slot the gather loop writes to is the next free one. *)
Lemma gather_in_range p r rest :
  Inv p -> p_resultChan p = r :: rest ->
  wrap32 (wrap32 (p_index p + 1) - 1) = slotsFilled p /\
  wrap32 (p_index p + 1) mod 2 ^ 32 = slotsFilled p + 1 /\
  (0 <=? slotsFilled p) && (slotsFilled p <? Z.of_nat (length (p_results p)))
  = true.
Proof.
  intros Hinv Hrchan.
  pose proof (index_below_length p r rest Hinv Hrchan) as Hbelow.
  pose proof (slotsFilled_bounds p) as Hsb.
  destruct Hinv as [_ _ _ _ Hlen _ _ _ _ _ _].
  split; [|split].
  - rewrite wrap32_pred. unfold slotsFilled in *.
    rewrite <- wrap32_of_mod. apply wrap32_small. lia.
  - rewrite wrap32_mod. unfold slotsFilled in *.
    rewrite <- Zplus_mod_idemp_l. apply Z.mod_small. lia.
  - rewrite Hlen. apply andb_true_iff. split;
      [apply Z.leb_le | apply Z.ltb_lt]; lia.
Qed.

Lemma activeWorkers_le ws : (activeWorkers ws <= length ws)%nat.
Proof.
  unfold activeWorkers. induction ws as [|wk ws IH]; simpl; [lia|].
  destruct wk; simpl; lia.
Qed.

Lemma activeWorkers_all ws :
  Forall (fun wk => wk <> WDone) ws -> activeWorkers ws = length ws.
Proof.
  unfold activeWorkers. induction 1 as [|wk ws Hwk _ IH]; simpl; [reflexivity|].
  destruct wk; simpl; try congruence; lia.
Qed.

(** A step of [main] keeps the invariant, unless it is the [wg.Add(1)] that
    finds the counter at 2^31 - 1. *)
Lemma stepMain_inv p p' :
  Inv p -> stepMain numWorkers records p = Some p' ->
  Inv p' \/ (2 ^ 31 <= numWorkers /\ p' = spawnPanic p).
Proof.
  intros Hinv Hstep. pose proof (gathered_length p Hinv) as Hglen.
  assert (Hrange : forall r rest, p_resultChan p = r :: rest ->
             wrap32 (wrap32 (p_index p + 1) - 1) = slotsFilled p /\
             wrap32 (p_index p + 1) mod 2 ^ 32 = slotsFilled p + 1 /\
             (0 <=? slotsFilled p)
             && (slotsFilled p <? Z.of_nat (length (p_results p))) = true)
    by (intros r rest; apply gather_in_range; assumption).
  destruct Hinv as [Hcons Hsend Hchan Hgath Hlen Hidx Hwg Hwgr Hexit Hclosed Hphase].
  unfold stepMain in Hstep.
  destruct (p_main p) as [i|[|r rest]| | | |] eqn:Hmain; simpl in Hphase.
  - (* spawning *)
    destruct Hphase as (Hi & Hle & Hrc & Hcl & Hres).
    destruct (i <? numWorkers) eqn:Hlt.
    + apply Z.ltb_lt in Hlt. cbv zeta in Hstep.
      assert (Hall : activeWorkers (p_workers p) = length (p_workers p)).
      { apply activeWorkers_all. destruct Hexit as [[_ Hc]|Hnd]; [congruence|].
        exact Hnd. }
      destruct (wgAdd (p_wg p) 1 <? 0) eqn:Hneg; injection Hstep as <-.
      * right. split; [|reflexivity].
        apply Z.ltb_lt in Hneg. unfold wgAdd in Hneg.
        destruct (Z_lt_dec (p_wg p + 1) (2 ^ 31)) as [Hsmall|Hbig]; [|lia].
        rewrite wrap32_small in Hneg by lia. lia.
      * left. apply Z.ltb_ge in Hneg. unfold wgAdd in *.
        assert (Hsmall : p_wg p + 1 < 2 ^ 31).
        { destruct (Z.eq_dec (p_wg p + 1) (2 ^ 31)) as [He|Hne]; [|lia].
          rewrite He in Hneg. vm_compute in Hneg. contradiction Hneg.
          reflexivity. }
        rewrite wrap32_small by lia.
        constructor; simpl; unfold gathered, heldRecords, sendingResults,
          activeWorkers in *; simpl;
          rewrite ?flat_map_app, ?List.map_app, ?list_sum_app; simpl;
          rewrite ?app_nil_r; try assumption.
        -- apply Forall_app. split; [assumption | repeat constructor].
        -- lia.
        -- rewrite length_app. simpl. lia.
        -- right. destruct Hexit as [[_ Hc]|Hnd]; [congruence|].
           apply Forall_app. split; [assumption | repeat constructor; discriminate].
        -- congruence.
        -- rewrite length_app. simpl. repeat split; try assumption; lia.
    + apply Z.ltb_ge in Hlt. injection Hstep as <-. left.
      constructor; simpl; try assumption.
      repeat split; try assumption. lia.
  - (* the queue is closed *)
    injection Hstep as <-. left.
    constructor; simpl; try assumption.
    + destruct Hexit as [[_ Hc]|Hnd]; [|right; assumption].
      destruct Hphase as (_ & Hrc & _). congruence.
    + destruct Hphase as (Hw & Hrc & Hcl & Hres). repeat split; assumption.
  - (* a record is enqueued *)
    destruct (length (p_recordChan p) <? capacity records)%nat; [|discriminate].
    injection Hstep as <-. left.
    destruct Hphase as (Hw & Hrc & Hcl & Hres).
    constructor; simpl; try assumption.
    + simpl in Hcons. rewrite Hcons. solve_Permutation.
    + right. destruct Hexit as [[_ Hc]|Hnd]; [congruence | assumption].
    + repeat split; assumption.
  - (* the closer is started *)
    injection Hstep as <-. left.
    destruct Hphase as (Hw & Hrc & Hcl & Hres).
    constructor; simpl; try assumption.
    rewrite Hres. repeat split; assumption.
  - (* gathering *)
    destruct Hphase as (Hw & Hrc & Hcl).
    destruct (p_resultChan p) as [|r rest] eqn:Hrchan.
    + destruct (p_resultClosed p) eqn:Hres; [|discriminate].
      injection Hstep as <-. left.
      constructor; simpl; try assumption.
      repeat split; assumption.
    + destruct (Hrange r rest eq_refl) as (Hw2 & Hw1 & Hin).
      pose proof (slotsFilled_bounds p) as Hsb.
      assert (Hbelow : slotsFilled p < Z.of_nat (length records)).
      { apply andb_true_iff in Hin. destruct Hin as [_ Hin].
        apply Z.ltb_lt in Hin. lia. }
      cbv zeta in Hstep. rewrite Hw2, Hin in Hstep. injection Hstep as <-.
      left.
      assert (Hg : take (Z.to_nat (slotsFilled p + 1))
                        (<[Z.to_nat (slotsFilled p) := r]> (p_results p))
                   = take (Z.to_nat (slotsFilled p)) (p_results p) ++ [r]).
      { replace (Z.to_nat (slotsFilled p + 1))
          with (S (Z.to_nat (slotsFilled p))) by lia.
        erewrite take_S_r by (apply list_lookup_insert_eq; lia).
        rewrite take_insert_ge by lia. reflexivity. }
      unfold gathered in *.
      constructor; simpl; unfold gathered; simpl;
        change (slotsFilled (mkPool ?w ?m ?ws ?c ?g ?rc ?rcl ?rch ?rchl ?rs ?i ?b))
          with (i mod 2 ^ 32);
        rewrite ?Hw1, ?Hg; try assumption.
      * rewrite Hcons. simpl. rewrite List.map_app. simpl. solve_Permutation.
      * inversion Hchan; assumption.
      * apply Forall_app. split; [assumption|].
        inversion Hchan; subst. repeat constructor; assumption.
      * rewrite length_insert. assumption.
      * lia.
      * repeat split; assumption.
  - discriminate.
  - discriminate.
Qed.

Lemma lookup_active ws i wk :
  ws !! i = Some wk -> (active wk <= activeWorkers ws)%nat.
Proof.
  intros H. pose proof (list_sum_insert active ws i wk WDone H) as Hs.
  unfold activeWorkers. simpl in Hs. lia.
Qed.

(** The phase of [main] does not look at what a worker is doing. *)
Lemma phase_worker_step (m : MainPC) (ws ws' : list WorkerPC) (rc : bool)
      (cl : CloserPC) (rcl : bool) (rch rch' : list Result) :
  length ws' = length ws ->
  (m = MDone -> rch' = rch) ->
  match m with
  | MSpawn i =>
      Z.of_nat (length ws) = i /\ i <= Z.max 0 numWorkers /\
      rc = false /\ cl = CNone /\ rcl = false
  | MEnqueue _ =>
      Z.of_nat (length ws) = Z.max 0 numWorkers /\
      rc = false /\ cl = CNone /\ rcl = false
  | MStartCloser =>
      Z.of_nat (length ws) = Z.max 0 numWorkers /\
      rc = true /\ cl = CNone /\ rcl = false
  | MGather =>
      Z.of_nat (length ws) = Z.max 0 numWorkers /\
      rc = true /\ cl = (if rcl then CDone else CWaiting)
  | MDone =>
      Z.of_nat (length ws) = Z.max 0 numWorkers /\
      rc = true /\ cl = CDone /\ rcl = true /\ rch = []
  | MPanic => False
  end ->
  match m with
  | MSpawn i =>
      Z.of_nat (length ws') = i /\ i <= Z.max 0 numWorkers /\
      rc = false /\ cl = CNone /\ rcl = false
  | MEnqueue _ =>
      Z.of_nat (length ws') = Z.max 0 numWorkers /\
      rc = false /\ cl = CNone /\ rcl = false
  | MStartCloser =>
      Z.of_nat (length ws') = Z.max 0 numWorkers /\
      rc = true /\ cl = CNone /\ rcl = false
  | MGather =>
      Z.of_nat (length ws') = Z.max 0 numWorkers /\
      rc = true /\ cl = (if rcl then CDone else CWaiting)
  | MDone =>
      Z.of_nat (length ws') = Z.max 0 numWorkers /\
      rc = true /\ cl = CDone /\ rcl = true /\ rch' = []
  | MPanic => False
  end.
Proof.
  intros Hlen Hdone. destruct m; rewrite ?Hlen; try (intros H; exact H).
  rewrite (Hdone eq_refl). intros H; exact H.
Qed.

Ltac worker_lists Hi Hcons wk' :=
  let Eh1 := fresh "Eh" in let Eh2 := fresh "Eh" in
  let Es1 := fresh "Es" in let Es2 := fresh "Es" in
  destruct (flat_map_insert heldRecord _ _ _ wk' Hi) as [Eh1 Eh2];
  destruct (flat_map_insert sendingResult _ _ _ wk' Hi) as [Es1 Es2];
  unfold heldRecords, sendingResults in *;
  rewrite Eh2, Es2; rewrite Eh1, Es1 in Hcons; simpl in Hcons |- *;
  rewrite ?app_nil_r in *.

Lemma stepWorker_inv i p p' :
  Inv p -> stepWorker o quiet records i p = Some p' -> Inv p'.
Proof.
  intros Hinv Hstep.
  destruct Hinv as [Hcons Hsend Hchan Hgath Hlen Hidx Hwg Hwgr Hexit Hclosed Hphase].
  unfold stepWorker in Hstep.
  destruct (p_workers p !! i) as [wk|] eqn:Hi; [|discriminate].
  pose proof (lookup_active _ _ _ Hi) as Hact.
  destruct wk as [|record|r| |]; simpl in Hact.
  - (* waiting for a record *)
    destruct (p_recordChan p) as [|record rest] eqn:Hrchan.
    + destruct (p_recordClosed p) eqn:Hrc; [|discriminate].
      cbv zeta in Hstep.
      pose proof (activeWorkers_le (p_workers p)) as Hle.
      assert (Hdone : wgAdd (p_wg p) (-1) = p_wg p - 1)
        by (unfold wgAdd; apply wrap32_small; lia).
      rewrite Hdone in Hstep.
      replace (p_wg p - 1 <? 0) with false in Hstep
        by (symmetry; apply Z.ltb_ge; lia).
      injection Hstep as <-.
      pose proof (list_sum_insert active _ _ _ WDone Hi) as Hsum. simpl in Hsum.
      constructor; simpl; unfold gathered, setWorker in *; simpl;
        try assumption.
      * worker_lists Hi Hcons WDone. exact Hcons.
      * apply Forall_insert; [assumption | exact I].
      * unfold activeWorkers in *. lia.
      * rewrite length_insert. assumption.
      * left. split; reflexivity.
      * intros Hres. specialize (Hclosed Hres). unfold activeWorkers in *. lia.
      * revert Hphase. apply phase_worker_step; [apply length_insert | reflexivity].
    + injection Hstep as <-.
      pose proof (list_sum_insert active _ _ _ (WHave record) Hi) as Hsum.
      simpl in Hsum.
      constructor; simpl; unfold gathered, setWorker in *; simpl;
        try assumption.
      * worker_lists Hi Hcons (WHave record).
        etransitivity; [exact Hcons|]. solve_Permutation.
      * apply Forall_insert; [assumption | exact I].
      * unfold activeWorkers in *. lia.
      * rewrite length_insert. assumption.
      * right. destruct Hexit as [[Hnil _]|Hnd]; [discriminate|].
        apply Forall_insert; [assumption | discriminate].
      * revert Hphase. apply phase_worker_step; [apply length_insert | reflexivity].
  - (* the Item Pipeline runs *)
    destruct (processRecord o record quiet (p_world p)) as [r w'] eqn:Hrun.
    injection Hstep as <-.
    pose proof (list_sum_insert active _ _ _ (WSend r) Hi) as Hsum. simpl in Hsum.
    assert (Hrec : Record_ r = record).
    { pose proof (processRecord_record o record quiet (p_world p)) as H.
      rewrite Hrun in H. exact H. }
    constructor; simpl; unfold gathered, setWorker in *; simpl; try assumption.
    + worker_lists Hi Hcons (WSend r).
      etransitivity; [exact Hcons|]. rewrite !List.map_app. simpl.
      rewrite Hrec. solve_Permutation.
    + apply Forall_insert; [assumption|].
      exists (p_world p). rewrite Hrec, Hrun. reflexivity.
    + unfold activeWorkers in *. lia.
    + rewrite length_insert. assumption.
    + destruct Hexit as [Hl|Hnd]; [left; assumption | right].
      apply Forall_insert; [assumption | discriminate].
    + revert Hphase. apply phase_worker_step; [apply length_insert | reflexivity].
  - (* the outcome is sent *)
    destruct (length (p_resultChan p) <? capacity records)%nat; [|discriminate].
    injection Hstep as <-.
    pose proof (list_sum_insert active _ _ _ WTick Hi) as Hsum. simpl in Hsum.
    pose proof (Forall_lookup_1 _ _ _ _ Hsend Hi) as Hprod. simpl in Hprod.
    constructor; simpl; unfold gathered, setWorker in *; simpl; try assumption.
    + worker_lists Hi Hcons WTick.
      etransitivity; [exact Hcons|]. rewrite !List.map_app. simpl.
      solve_Permutation.
    + apply Forall_insert; [assumption | exact I].
    + apply Forall_app. split; [assumption | repeat constructor; assumption].
    + unfold activeWorkers in *. lia.
    + rewrite length_insert. assumption.
    + destruct Hexit as [Hl|Hnd]; [left; assumption | right].
      apply Forall_insert; [assumption | discriminate].
    + assert (Hnotdone : p_main p = MDone ->
                         p_resultChan p ++ [r] = p_resultChan p).
      { intros Hdone. rewrite Hdone in Hphase.
        destruct Hphase as (_ & _ & _ & Hres & _).
        specialize (Hclosed Hres). unfold activeWorkers in *. lia. }
      revert Hphase. apply phase_worker_step; [apply length_insert | exact Hnotdone].
  - (* the progress bar moves *)
    injection Hstep as <-.
    pose proof (list_sum_insert active _ _ _ WIdle Hi) as Hsum. simpl in Hsum.
    constructor; simpl; unfold gathered, setWorker in *; simpl; try assumption.
    + worker_lists Hi Hcons WIdle. exact Hcons.
    + apply Forall_insert; [assumption | exact I].
    + unfold activeWorkers in *. lia.
    + rewrite length_insert. assumption.
    + destruct Hexit as [Hl|Hnd]; [left; assumption | right].
      apply Forall_insert; [assumption | discriminate].
    + revert Hphase. apply phase_worker_step; [apply length_insert | reflexivity].
  - discriminate.
Qed.

Lemma stepCloser_inv p p' :
  Inv p -> stepCloser p = Some p' -> Inv p'.
Proof.
  intros Hinv Hstep.
  destruct Hinv as [Hcons Hsend Hchan Hgath Hlen Hidx Hwg Hwgr Hexit Hclosed Hphase].
  unfold stepCloser in Hstep.
  destruct (p_closer p) eqn:Hcl; try discriminate.
  destruct (p_wg p =? 0) eqn:Hz; [|discriminate].
  apply Z.eqb_eq in Hz. injection Hstep as <-.
  constructor; simpl; unfold gathered in *; simpl; try assumption.
  - intros _. exact Hz.
  - destruct (p_main p); simpl in *;
      repeat match goal with H : _ /\ _ |- _ => destruct H end;
      try congruence.
    destruct (p_resultClosed p); [congruence|]. repeat split; assumption.
Qed.

(** A step keeps the invariant, unless it is the panic of the spawn loop,
    which takes 2^31 workers. *)
Lemma step_cases p p' :
  Inv p -> step o quiet numWorkers records p p' ->
  Inv p' \/ (2 ^ 31 <= numWorkers /\ p' = spawnPanic p).
Proof.
  intros Hinv [t Hstep]. unfold stepThread in Hstep.
  destruct (p_main p) eqn:Hmain;
    try (destruct t;
         [ eapply stepMain_inv; eassumption
         | left; eapply stepWorker_inv; eassumption
         | left; eapply stepCloser_inv; eassumption ]).
  discriminate.
Qed.

Lemma spawnPanic_stuck q p' :
  ~ step o quiet numWorkers records (spawnPanic q) p'.
Proof. intros [t Hstep]. discriminate. Qed.

(** Every state of a run satisfies the invariant or is that panic. *)
Lemma reachable_cases w p :
  reachable o quiet numWorkers records w p ->
  Inv p \/ (2 ^ 31 <= numWorkers /\ exists q, Inv q /\ p = spawnPanic q).
Proof.
  induction 1 as [|p p' _ IH Hstep]; [left; apply initPool_inv|].
  destruct IH as [Hinv|(_ & q & _ & ->)].
  - destruct (step_cases p p' Hinv Hstep) as [Hinv'|[Hmany ->]];
      [left; exact Hinv' | right].
    split; [exact Hmany|]. exists p. split; [exact Hinv | reflexivity].
  - exfalso. exact (spawnPanic_stuck q p' Hstep).
Qed.

(** A state that takes a step, and one in which [main] is done, satisfies
    the invariant. *)
Lemma stepping_inv w p p' :
  reachable o quiet numWorkers records w p ->
  step o quiet numWorkers records p p' -> Inv p.
Proof.
  intros Hreach Hstep.
  destruct (reachable_cases w p Hreach) as [Hinv|(_ & q & _ & ->)];
    [exact Hinv|].
  exfalso. exact (spawnPanic_stuck q p' Hstep).
Qed.

Lemma done_inv w p :
  reachable o quiet numWorkers records w p -> p_main p = MDone -> Inv p.
Proof.
  intros Hreach Hdone.
  destruct (reachable_cases w p Hreach) as [Hinv|(_ & q & _ & ->)];
    [exact Hinv | discriminate].
Qed.

(** With fewer than 2^31 workers the invariant holds throughout. *)
Lemma step_inv p p' :
  numWorkers < 2 ^ 31 ->
  Inv p -> step o quiet numWorkers records p p' -> Inv p'.
Proof.
  intros Hfew Hinv Hstep.
  destruct (step_cases p p' Hinv Hstep) as [Hinv'|[Hmany _]];
    [exact Hinv' | lia].
Qed.

Lemma reachable_inv w p :
  numWorkers < 2 ^ 31 ->
  reachable o quiet numWorkers records w p -> Inv p.
Proof.
  intros Hfew Hreach.
  destruct (reachable_cases w p Hreach) as [Hinv|[Hmany _]];
    [exact Hinv | lia].
Qed.

(** When [main] has left the gather loop, every record has been turned into
    one outcome and every slot holds one. *)
Lemma done_results p :
  1 <= numWorkers ->
  Inv p -> p_main p = MDone ->
  length (p_results p) = length records /\
  List.map Record_ (p_results p) ≡ₚ records /\
  Forall (producedBy o quiet) (p_results p).
Proof.
  intros Hw Hinv Hdone. pose proof (gathered_length p Hinv) as Hglen.
  destruct Hinv as [Hcons Hsend Hchan Hgath Hlen Hidx Hwg Hwgr Hexit Hclosed Hphase].
  rewrite Hdone in Hphase, Hcons. simpl in Hcons.
  destruct Hphase as (Hlw & Hrc & Hcl & Hres & Hrch).
  specialize (Hclosed Hres). rewrite Hclosed in Hwg.
  destruct (activeWorkers_zero (p_workers p)) as (Hheld & Hsending & Hall); [lia|].
  assert (Hq : p_recordChan p = []).
  { destruct Hexit as [[Hq _]|Hnd]; [assumption|].
    destruct (p_workers p) as [|wk ws]; [simpl in Hlw; lia|].
    inversion Hall; inversion Hnd; subst. congruence. }
  rewrite Hq, Hheld, Hsending, Hrch in Hcons. simpl in Hcons.
  assert (Hall_gathered : gathered p = p_results p).
  { unfold gathered. apply take_ge.
    apply Permutation_length in Hcons. rewrite length_map, Hglen in Hcons. lia. }
  rewrite Hall_gathered in Hcons, Hgath.
  split; [assumption|]. split; [symmetry; assumption | assumption].
Qed.

(** No deadlock: as long as [main] has not finished, some thread can move. *)
Lemma pool_progress p :
  Inv p -> p_main p <> MDone ->
  exists t p', stepThread o quiet numWorkers records t p = Some p'.
Proof.
  intros Hinv Hnot. pose proof (gathered_length p Hinv) as Hglen.
  destruct Hinv as [Hcons Hsend Hchan Hgath Hlen Hidx Hwg Hwgr Hexit Hclosed Hphase].
  unfold stepThread.
  destruct (p_main p) as [i|[|r rest]| | | |] eqn:Hmain; simpl in Hphase;
    try contradiction; try congruence.
  - exists TMain. unfold stepMain. rewrite Hmain.
    destruct (i <? numWorkers); [cbv zeta; destruct (_ <? 0)|]; eauto.
  - exists TMain. unfold stepMain. rewrite Hmain. eauto.
  - exists TMain. unfold stepMain. rewrite Hmain.
    apply Permutation_length in Hcons. simpl in Hcons.
    rewrite !length_app in Hcons.
    assert (Hroom : (length (p_recordChan p) <? capacity records)%nat = true)
      by (apply Nat.ltb_lt; unfold capacity; lia).
    rewrite Hroom. eauto.
  - exists TMain. unfold stepMain. rewrite Hmain. eauto.
  - destruct Hphase as (Hlw & Hrc & Hcl).
    destruct (p_resultChan p) as [|r rest] eqn:Hrchan.
    2:{ exists TMain. unfold stepMain. rewrite Hmain, Hrchan. cbv zeta.
        destruct (_ && _); eauto. }
    destruct (p_resultClosed p) eqn:Hres.
    { exists TMain. unfold stepMain. rewrite Hmain, Hrchan, Hres. eauto. }
    destruct (Z.eq_dec (p_wg p) 0) as [Hz|Hnz].
    { exists TCloser. unfold stepCloser. rewrite Hcl, Hz. eauto. }
    destruct (activeWorkers_pos (p_workers p)) as (i & wk & Hi & Hwk); [lia|].
    exists (TWorker i). unfold stepWorker. rewrite Hi.
    destruct wk as [|record|r| |]; try congruence.
    + destruct (p_recordChan p); [rewrite Hrc|]; eauto.
    + destruct (processRecord o record quiet (p_world p)); eauto.
    + destruct (flat_map_insert sendingResult _ _ _ WTick Hi) as [Es _].
      unfold sendingResults in Hcons. rewrite Es in Hcons.
      apply Permutation_length in Hcons.
      rewrite !length_app, !length_map, !length_app in Hcons. simpl in Hcons.
      assert (Hroom : (0 <? capacity records)%nat = true)
        by (apply Nat.ltb_lt; unfold capacity; lia).
      rewrite Hrchan. simpl length. rewrite Hroom. eauto.
    + eauto.
Qed.

(** Every step uses up one of the steps the state has left. *)
Lemma step_decreases p p' :
  step o quiet numWorkers records p p' ->
  (stepsLeft numWorkers records p' < stepsLeft numWorkers records p)%nat.
Proof.
  intros [t Hstep]. unfold stepThread in Hstep.
  destruct (p_main p) eqn:Hmain; try discriminate;
    (destruct t as [|j|];
     [ unfold stepMain in Hstep; rewrite Hmain in Hstep
     | unfold stepWorker in Hstep
     | unfold stepCloser in Hstep ]).
  all: unfold stepsLeft; rewrite ?Hmain.
  all: try (destruct (p_closer p); try discriminate;
            destruct (p_wg p =? 0); [|discriminate];
            injection Hstep as <-; simpl; rewrite ?Hmain; simpl; lia).
  all: try (destruct (p_workers p !! j) as [wk|] eqn:Hi; [|discriminate];
            destruct wk as [|record|r| |];
            [ destruct (p_recordChan p) as [|record rest];
              [ destruct (p_recordClosed p); [|discriminate];
                cbv zeta in Hstep; destruct (wgAdd (p_wg p) (-1) <? 0);
                pose proof (list_sum_insert workerSteps _ _ _ WDone Hi) as Hs
              | pose proof (list_sum_insert workerSteps _ _ _ (WHave record) Hi) as Hs ]
            | destruct (processRecord o record quiet (p_world p)) as [r w'];
              pose proof (list_sum_insert workerSteps _ _ _ (WSend r) Hi) as Hs
            | destruct (length (p_resultChan p) <? capacity records)%nat;
              [|discriminate];
              pose proof (list_sum_insert workerSteps _ _ _ WTick Hi) as Hs
            | pose proof (list_sum_insert workerSteps _ _ _ WIdle Hi) as Hs
            | discriminate ];
            injection Hstep as <-; unfold setWorker; simpl in Hs |- *;
            rewrite ?Hmain, ?length_app; simpl; lia).
  - destruct (i <? numWorkers) eqn:Hlt;
      [cbv zeta in Hstep; destruct (wgAdd (p_wg p) 1 <? 0)|];
      injection Hstep as <-; simpl;
      rewrite ?List.map_app, ?list_sum_app; simpl; lia.
  - destruct pending as [|r rest].
    + injection Hstep as <-. simpl. lia.
    + destruct (length (p_recordChan p) <? capacity records)%nat; [|discriminate].
      injection Hstep as <-. simpl. rewrite length_app. simpl. lia.
  - injection Hstep as <-. simpl. lia.
  - destruct (p_resultChan p) as [|r rest].
    + destruct (p_resultClosed p); [|discriminate].
      injection Hstep as <-. simpl. lia.
    + cbv zeta in Hstep.
      destruct (_ && _); injection Hstep as <-; simpl; lia.
  - discriminate.
Qed.

Lemma firstStep_step ts p p' :
  firstStep o quiet numWorkers records ts p = Some p' ->
  step o quiet numWorkers records p p'.
Proof.
  induction ts as [|t ts IH]; simpl; [discriminate|].
  destruct (stepThread o quiet numWorkers records t p) as [q|] eqn:Ht.
  - intros H. injection H as <-. exists t. assumption.
  - exact IH.
Qed.

Lemma firstStep_None ts p t :
  firstStep o quiet numWorkers records ts p = None ->
  In t ts -> stepThread o quiet numWorkers records t p = None.
Proof.
  induction ts as [|t' ts IH]; simpl; [contradiction|].
  destruct (stepThread o quiet numWorkers records t' p) as [q|] eqn:Ht;
    [discriminate|].
  intros Hnone [<-|Hin]; [assumption | apply IH; assumption].
Qed.

(** When the scheduler finds no thread to run, no thread can run. *)
Lemma threads_complete p t :
  firstStep o quiet numWorkers records (threads p) p = None ->
  stepThread o quiet numWorkers records t p = None.
Proof.
  intros Hnone. destruct t as [|i|].
  - eapply firstStep_None; [eassumption|].
    unfold threads. apply in_or_app. right. simpl. auto.
  - destruct (le_lt_dec (length (p_workers p)) i) as [Hge|Hlt].
    + unfold stepThread, stepWorker.
      rewrite (lookup_ge_None_2 _ _ Hge). destruct (p_main p); reflexivity.
    + eapply firstStep_None; [eassumption|].
      unfold threads. apply in_or_app. left.
      apply in_map. apply in_seq. lia.
  - eapply firstStep_None; [eassumption|].
    unfold threads. apply in_or_app. right. simpl. auto.
Qed.

Lemma runPool_reachable w fuel : forall p,
  reachable o quiet numWorkers records w p ->
  reachable o quiet numWorkers records w
            (runPool o quiet numWorkers records fuel p).
Proof.
  induction fuel as [|fuel IH]; intros p Hreach; simpl; [assumption|].
  destruct (firstStep o quiet numWorkers records (threads p) p) as [p'|] eqn:Hf;
    [|assumption].
  apply IH. eapply reach_step; [eassumption|].
  eapply firstStep_step; eassumption.
Qed.

(** With as much fuel as the state has steps left, the scheduled run ends
    with [main] out of the gather loop. *)
Lemma runPool_done fuel : forall p,
  numWorkers < 2 ^ 31 ->
  Inv p -> (stepsLeft numWorkers records p <= fuel)%nat ->
  p_main (runPool o quiet numWorkers records fuel p) = MDone.
Proof.
  induction fuel as [|fuel IH]; intros p Hfew Hinv Hfuel; simpl.
  - destruct (p_main p) eqn:Hmain; try reflexivity;
      (destruct (pool_progress p Hinv) as (t & p' & Hstep); [congruence|];
       assert (Hs : step o quiet numWorkers records p p') by (exists t; assumption);
       apply step_decreases in Hs; lia).
  - destruct (firstStep o quiet numWorkers records (threads p) p) as [p'|] eqn:Hf.
    + pose proof (firstStep_step _ _ _ Hf) as Hstep.
      apply IH; [exact Hfew | eapply step_inv; eassumption|].
      apply step_decreases in Hstep. lia.
    + destruct (p_main p) eqn:Hmain; try reflexivity;
        (destruct (pool_progress p Hinv) as (t & p' & Hstep); [congruence|];
         rewrite (threads_complete p t Hf) in Hstep; discriminate).
Qed.

End PoolFacts.

(** *** Beyond the range of the slot counter *)

Lemma wrap32_succ z : wrap32 (wrap32 z + 1) = wrap32 (z + 1).
Proof.
  unfold wrap32.
  replace ((z + 2 ^ 31) mod 2 ^ 32 - 2 ^ 31 + 1 + 2 ^ 31)
    with ((z + 2 ^ 31) mod 2 ^ 32 + 1) by lia.
  rewrite Zplus_mod_idemp_l. do 2 f_equal. lia.
Qed.

Lemma stepThread_gather o quiet numWorkers records w ws c g rc rcl r rest rchl
      results index bar :
  stepThread o quiet numWorkers records TMain
    (mkPool w MGather ws c g rc rcl (r :: rest) rchl results index bar)
  = if (0 <=? wrap32 (wrap32 (index + 1) - 1))
       && (wrap32 (wrap32 (index + 1) - 1) <? Z.of_nat (length results))
    then Some (mkPool w MGather ws c g rc rcl rest rchl
                      (<[Z.to_nat (wrap32 (wrap32 (index + 1) - 1)) := r]> results)
                      (wrap32 (index + 1)) bar)
    else Some (mkPool w MPanic ws c g rc rcl rest rchl results
                      (wrap32 (index + 1)) bar).
Proof. reflexivity. Qed.

Section Overflow.

Variable o : Oracle.
Variable quiet : bool.
Variable record : CSVRecord.
Variable n : nat.
Variable w : World.

Hypothesis n_overflows : Z.of_nat n = 2 ^ 31 + 1.

Notation "'items'" := (replicate n record).
Notation "'Reach'" := (reachable o quiet 1 items w).

Lemma overflow_spawned :
  Reach (mkPool w (MEnqueue items) [WIdle] CNone 1 [] false [] false
                (replicate (length items) zeroResult) 0 0).
Proof.
  eapply reach_step; [eapply reach_step; [apply reach_init|]|];
    exists TMain; reflexivity.
Qed.

(** One outcome is produced for every record enqueued. *)
Lemma overflow_produced j :
  (j <= n)%nat ->
  exists w' rs bar,
    length rs = j /\
    Reach (mkPool w' (MEnqueue (replicate (n - j) record)) [WIdle] CNone 1 []
                  false rs false (replicate (length items) zeroResult) 0 bar).
Proof.
  induction j as [|j IH]; intros Hj.
  - exists w, [], 0. split; [reflexivity|].
    rewrite Nat.sub_0_r. apply overflow_spawned.
  - destruct IH as (w' & rs & bar & Hlen & Hreach); [lia|].
    replace (n - j)%nat with (S (n - S j)) in Hreach by lia.
    destruct (processRecord o record quiet w') as [r w''] eqn:Hrun.
    exists w'', (rs ++ [r]), (bar + 1).
    split; [rewrite length_app; simpl; lia|].
    assert (Hcap : capacity items = n) by apply length_replicate.
    eapply reach_step; [eapply reach_step; [eapply reach_step;
      [eapply reach_step; [eapply reach_step; [exact Hreach|]|]|]|]|].
    + exists TMain. unfold stepThread, stepMain. simpl.
      rewrite Hcap. destruct n; [lia | reflexivity].
    + exists (TWorker 0). reflexivity.
    + exists (TWorker 0). unfold stepThread, stepWorker. simpl.
      rewrite Hrun. reflexivity.
    + exists (TWorker 0). unfold stepThread, stepWorker. simpl.
      rewrite Hcap, Hlen.
      replace (j <? n)%nat with true by (symmetry; apply Nat.ltb_lt; lia).
      reflexivity.
    + exists (TWorker 0). reflexivity.
Qed.

(** [main] gathers and the counter counts, wrapping at 2^31. *)
Lemma overflow_gathered m :
  Z.of_nat m <= 2 ^ 31 ->
  exists w' rs results bar,
    length rs = (n - m)%nat /\
    length results = n /\
    Reach (mkPool w' MGather [WIdle] CWaiting 1 [] true rs false results
                  (wrap32 (Z.of_nat m)) bar).
Proof.
  induction m as [|m IH]; intros Hm.
  - destruct (overflow_produced n) as (w' & rs & bar & Hlen & Hreach); [lia|].
    rewrite Nat.sub_diag in Hreach. simpl in Hreach.
    exists w', rs, (replicate (length items) zeroResult), bar.
    split; [lia|]. split; [rewrite !length_replicate; reflexivity|].
    eapply reach_step; [eapply reach_step; [exact Hreach|]|];
      exists TMain; reflexivity.
  - destruct IH as (w' & rs & results & bar & Hlen & Hres & Hreach); [lia|].
    destruct rs as [|r rest]; [simpl in Hlen; lia|].
    exists w', rest, (<[m := r]> results), bar.
    split; [simpl in Hlen; lia|]. split; [rewrite length_insert; assumption|].
    eapply reach_step; [exact Hreach|].
    exists TMain. rewrite stepThread_gather.
    rewrite wrap32_pred, wrap32_succ.
    rewrite !(wrap32_small (Z.of_nat m)) by lia.
    rewrite Hres.
    replace (0 <=? Z.of_nat m) with true by (symmetry; apply Z.leb_le; lia).
    replace (Z.of_nat m <? Z.of_nat n) with true
      by (symmetry; apply Z.ltb_lt; lia).
    simpl andb. cbv iota. rewrite Nat2Z.id.
    replace (Z.of_nat m + 1) with (Z.of_nat (S m)) by lia.
    reflexivity.
Qed.

(** With 2^31 + 1 records the last outcome finds the counter at -2^31. *)
Lemma overflow_panics :
  exists p, Reach p /\ p_main p = MPanic.
Proof.
  destruct (overflow_gathered (Z.to_nat (2 ^ 31)))
    as (w' & rs & results & bar & Hlen & Hres & Hreach); [lia|].
  destruct rs as [|r rest]; [simpl in Hlen; lia|].
  eexists. split.
  - eapply reach_step; [exact Hreach|].
    exists TMain. rewrite stepThread_gather.
    rewrite wrap32_pred.
    rewrite Z2Nat.id by lia.
    replace (wrap32 (wrap32 (2 ^ 31))) with (- 2 ^ 31) by reflexivity.
    reflexivity.
  - reflexivity.
Qed.

End Overflow.

(** C1: the claim fails on the code beyond the range of the slot counter.
    The gather loop means to fill one slot per outcome, but its counter is
    an int32: with 2^31 + 1 work items and one worker there is a run in
    which the counter wraps, the loop reads slot -2^31 and the program
    panics instead of returning a collection; nothing runs after that. *)
Lemma slot_counter_overflow :
  exists p,
    reachable twoExpressionsOracle true 1
              (replicate (Z.to_nat (2 ^ 31 + 1)) sampleRecord) emptyWorld p /\
    p_main p = MPanic /\
    forall t,
      stepThread twoExpressionsOracle true 1
                 (replicate (Z.to_nat (2 ^ 31 + 1)) sampleRecord) t p = None.
Proof.
  destruct (overflow_panics twoExpressionsOracle true sampleRecord
              (Z.to_nat (2 ^ 31 + 1)) emptyWorld) as (p & Hreach & Hpanic).
  - apply Z2Nat.id. lia.
  - exists p. split; [exact Hreach|]. split; [exact Hpanic|].
    intros t. unfold stepThread. rewrite Hpanic. reflexivity.
Qed.

(** ** Further properties of the program *)

(** *** Reading the module index *)


Lemma mapHeaders_app a : forall b i m,
  mapHeaders i (a ++ b) m = mapHeaders (i + length a) b (mapHeaders i a m).
Proof.
  induction a as [|h a IH]; intros b i m; simpl.
  - rewrite Nat.add_0_r. reflexivity.
  - rewrite IH. f_equal. lia.
Qed.

Lemma mapHeaders_absent c hs : forall i m,
  c ∉ hs -> mapHeaders i hs m !! c = m !! c.
Proof.
  induction hs as [|h hs IH]; intros i m Hc; simpl; [reflexivity|].
  apply not_elem_of_cons in Hc. destruct Hc as [Hne Hc].
  rewrite IH by assumption. apply lookup_insert_ne. congruence.
Qed.

(** A header that occurs more than once is found at its last position. *)
Lemma mapHeaders_last c pre post i m :
  c ∉ post ->
  mapHeaders i (pre ++ c :: post) m !! c = Some (i + length pre)%nat.
Proof.
  intros Hc. rewrite mapHeaders_app. simpl.
  rewrite mapHeaders_absent by assumption. apply lookup_insert_eq.
Qed.

Lemma getField_absent row headers c :
  c ∉ headers -> getField row (mapHeaders 0 headers ∅) c = "".
Proof.
  intros Hc. unfold getField. rewrite mapHeaders_absent by assumption.
  rewrite lookup_empty. reflexivity.
Qed.

Lemma getField_last row pre post c :
  c ∉ post ->
  getField row (mapHeaders 0 (pre ++ c :: post) ∅) c = nth (length pre) row "".
Proof.
  intros Hc. unfold getField. rewrite mapHeaders_last by assumption. simpl.
  destruct (length pre <? length row)%nat eqn:Hlt; [reflexivity|].
  apply Nat.ltb_ge in Hlt. symmetry. apply nth_overflow. exact Hlt.
Qed.

Lemma getField_rowOf headers other r c :
  c ∈ headers ->
  getField (rowOf headers other r) (mapHeaders 0 headers ∅) c
  = default other (fieldNamed r c).
Proof.
  intros Hc. apply list_elem_of_split_r in Hc.
  destruct Hc as (pre & post & -> & Hpost).
  rewrite getField_last by assumption.
  unfold rowOf. rewrite List.map_app. simpl.
  rewrite app_nth2; rewrite length_map; [|lia].
  rewrite Nat.sub_diag. reflexivity.
Qed.

Lemma recordOfRow_rowOf headers other r :
  (forall c, c ∈ columnNames -> c ∈ headers) ->
  recordOfRow (rowOf headers other r) (mapHeaders 0 headers ∅) = r.
Proof.
  intros Hall. unfold recordOfRow.
  rewrite !getField_rowOf by (apply Hall; unfold columnNames; set_solver).
  destruct r; reflexivity.
Qed.

Lemma readRows_rows rows hm : forall acc,
  readRows (List.map Row rows) hm acc
  = Ok (acc ++ List.map (fun row => recordOfRow row hm) rows).
Proof.
  induction rows as [|row rows IH]; intros acc; simpl.
  - rewrite app_nil_r. reflexivity.
  - rewrite IH, <- app_assoc. reflexivity.
Qed.

Lemma readRows_error rows e rest hm : forall acc,
  readRows (List.map Row rows ++ ReadErr e :: rest) hm acc = Err e.
Proof.
  induction rows as [|row rows IH]; intros acc; simpl; [reflexivity | apply IH].
Qed.

Lemma fieldNamed_recordOfRow row hm c v :
  fieldNamed (recordOfRow row hm) c = Some v -> v = getField row hm c.
Proof.
  unfold fieldNamed.
  repeat match goal with
         | |- context [String.eqb c ?name] =>
             destruct (String.eqb_spec c name) as [->|_];
             [intros H; injection H as <-; reflexivity|]
         end.
  discriminate.
Qed.

Lemma readRows_length reads hm : forall acc rs,
  readRows reads hm acc = Ok rs -> length rs = (length acc + length reads)%nat.
Proof.
  induction reads as [|[row|e] reads IH]; intros acc rs H; simpl in H.
  - injection H as <-. simpl. lia.
  - apply IH in H. rewrite H, length_app. simpl. lia.
  - discriminate.
Qed.

Lemma readRows_from reads hm : forall acc rs,
  readRows reads hm acc = Ok rs ->
  Forall (fun r => exists row, r = recordOfRow row hm) acc ->
  Forall (fun r => exists row, r = recordOfRow row hm) rs.
Proof.
  induction reads as [|[row|e] reads IH]; intros acc rs H Hacc; simpl in H.
  - injection H as <-. exact Hacc.
  - apply (IH _ _ H). apply Forall_app. split; [exact Hacc|].
    constructor; [exists row; reflexivity | constructor].
  - discriminate.
Qed.

(** X1: a CSV file whose header names all eighteen columns of the program,
    in any order, with other columns in between or a column named twice,
    is read back as the records that were written into its rows. *)
Theorem readCSV_round_trip open filename headers other rs :
  (forall c, c ∈ columnNames -> c ∈ headers) ->
  open filename
  = Ok (Row headers :: List.map (fun r => Row (rowOf headers other r)) rs) ->
  readCSV open filename = Ok rs.
Proof.
  intros Hall Hopen. unfold readCSV. rewrite Hopen.
  rewrite <- (List.map_map (rowOf headers other) Row), readRows_rows. simpl.
  f_equal. rewrite List.map_map.
  rewrite <- (List.map_id rs) at 2. apply List.map_ext.
  intros r. apply recordOfRow_rowOf. exact Hall.
Qed.

Lemma readCSV_round_trip_witness :
  readCSV (fun _ => Ok (Row shuffledHeaders
                        :: List.map (fun r => Row (rowOf shuffledHeaders "n/a" r))
                                    sampleRecords))
          "modules.csv"
  = Ok sampleRecords.
Proof.
  apply (readCSV_round_trip _ "modules.csv" shuffledHeaders "n/a" sampleRecords).
  - intros c Hc. unfold shuffledHeaders.
    apply elem_of_cons. right. apply elem_of_reverse. exact Hc.
  - reflexivity.
Defined.

(** X2: in a file whose rows have as many fields as its header, the only
    rows the reader of [encoding/csv] hands over, a column is read at the
    position of the last header cell that carries its name: a later header
    cell of the same name overrides an earlier one. *)
Theorem readCSV_column_position open filename pre c post rows rs i row r v :
  open filename = Ok (Row (pre ++ c :: post) :: List.map Row rows) ->
  c ∉ post ->
  readCSV open filename = Ok rs ->
  rows !! i = Some row -> length row = length (pre ++ c :: post) ->
  rs !! i = Some r ->
  fieldNamed r c = Some v ->
  row !! length pre = Some v.
Proof.
  intros Hopen Hpost Hread Hrow Hlen Hr Hfield.
  unfold readCSV in Hread. rewrite Hopen, readRows_rows in Hread.
  injection Hread as <-. simpl in Hr.
  rewrite list_lookup_fmap, Hrow in Hr. injection Hr as <-.
  apply fieldNamed_recordOfRow in Hfield. rewrite Hfield.
  rewrite getField_last by exact Hpost.
  rewrite length_app in Hlen. simpl in Hlen.
  destruct (lookup_lt_is_Some_2 row (length pre)) as [x Hx]; [lia|].
  rewrite Hx. f_equal. symmetry. apply nth_lookup_Some with (d := ""%string).
  exact Hx.
Qed.

Lemma readCSV_column_position_witness :
  ["https://example.invalid/first"; "b"; "https://example.invalid/second"]
    !! 2%nat
  = Some "https://example.invalid/second".
Proof.
  apply (readCSV_column_position
           (fun _ => Ok (Row (["RepoURL"; "ModuleName"] ++ "RepoURL" :: [])
                         :: List.map Row
                              [["https://example.invalid/first"; "b";
                                "https://example.invalid/second"]]))
           "modules.csv" ["RepoURL"; "ModuleName"] "RepoURL" []
           [["https://example.invalid/first"; "b";
             "https://example.invalid/second"]]
           [mkCSVRecord "" "" "" "" "b" "" "https://example.invalid/second"
                        "" "" "" "" "" "" "" "" "" "" ""]
           0%nat
           ["https://example.invalid/first"; "b";
            "https://example.invalid/second"]
           (mkCSVRecord "" "" "" "" "b" "" "https://example.invalid/second"
                        "" "" "" "" "" "" "" "" "" "" "")).
  - reflexivity.
  - apply not_elem_of_nil.
  - vm_compute. reflexivity.
  - reflexivity.
  - reflexivity.
  - reflexivity.
  - reflexivity.
Defined.

(** X3: a column of the program that the header does not name is empty in
    every record, and its absence is no error. *)
Theorem readCSV_missing_column open filename headers rest c rs :
  open filename = Ok (Row headers :: rest) ->
  c ∉ headers ->
  readCSV open filename = Ok rs ->
  Forall (fun r => forall v, fieldNamed r c = Some v -> v = "") rs.
Proof.
  intros Hopen Hc Hread. unfold readCSV in Hread. rewrite Hopen in Hread.
  apply readRows_from in Hread; [|constructor].
  eapply Forall_impl; [exact Hread|].
  intros r [row ->] v Hv. apply fieldNamed_recordOfRow in Hv. rewrite Hv.
  apply getField_absent. exact Hc.
Qed.

Lemma readCSV_missing_column_witness :
  Forall (fun r => forall v, fieldNamed r "RepoURL" = Some v -> v = "")
         [mkCSVRecord "" "" "" "" "avm-res-keyvault-vault" "Available" ""
                      "" "" "" "" "" "" "" "" "" "" ""].
Proof.
  apply (readCSV_missing_column
           (fun _ => Ok [Row ["ModuleName"; "ModuleStatus"];
                         Row ["avm-res-keyvault-vault"; "Available"]])
           "modules.csv" ["ModuleName"; "ModuleStatus"]
           [Row ["avm-res-keyvault-vault"; "Available"]] "RepoURL").
  - reflexivity.
  - intros H. apply elem_of_cons in H. destruct H as [H|H]; [discriminate|].
    apply elem_of_cons in H. destruct H as [H|H]; [discriminate|].
    apply elem_of_nil in H. exact H.
  - vm_compute. reflexivity.
Defined.

(** X4: the first read that fails ends [readCSV] with that error and
    without the records read before it, also when the failing read is the
    header; a file without a single row is the error ["empty CSV file"];
    and a file that cannot be opened is the error of [os.Open]. *)
Theorem readCSV_first_error open filename :
  (forall rows e rest,
     open filename = Ok (List.map Row rows ++ ReadErr e :: rest) ->
     readCSV open filename = Err e) /\
  (open filename = Ok [] -> readCSV open filename = Err "empty CSV file") /\
  (forall e, open filename = Err e -> readCSV open filename = Err e).
Proof.
  unfold readCSV. split; [|split].
  - intros rows e rest Hopen. rewrite Hopen.
    destruct rows as [|headers rows]; simpl; [reflexivity|].
    apply readRows_error.
  - intros Hopen. rewrite Hopen. reflexivity.
  - intros e Hopen. rewrite Hopen. reflexivity.
Qed.

Lemma readCSV_first_error_witness :
  readCSV (fun _ => Ok (List.map Row [["ModuleName"]; ["a"]]
                        ++ ReadErr "record on line 3: wrong number of fields" :: []))
          "modules.csv"
  = Err "record on line 3: wrong number of fields".
Proof.
  apply (proj1 (readCSV_first_error _ "modules.csv") [["ModuleName"]; ["a"]]
               "record on line 3: wrong number of fields" []).
  reflexivity.
Defined.

Lemma readRows_ok_rows reads hm : forall acc rs,
  readRows reads hm acc = Ok rs -> exists rows, reads = List.map Row rows.
Proof.
  induction reads as [|[row|e] reads IH]; intros acc rs H; simpl in H.
  - exists []. reflexivity.
  - destruct (IH _ _ H) as [rows ->]. exists (row :: rows). reflexivity.
  - discriminate.
Qed.

(** X5: [readCSV] succeeds exactly on a file that has a header and no read
    that fails; it then gives one record per row after the header, so a file
    with only a header gives no record and no error. *)
Theorem readCSV_succeeds_iff open filename reads :
  open filename = Ok reads ->
  ((exists rs, readCSV open filename = Ok rs)
   <-> exists headers rows, reads = Row headers :: List.map Row rows) /\
  (forall rs, readCSV open filename = Ok rs ->
              S (length rs) = length reads).
Proof.
  intros Hopen. unfold readCSV. rewrite Hopen. split; [split|].
  - intros [rs Hrs]. destruct reads as [|[headers|e] rest]; try discriminate.
    destruct (readRows_ok_rows _ _ _ _ Hrs) as [rows ->]. eauto.
  - intros (headers & rows & ->). rewrite readRows_rows. eauto.
  - intros rs Hrs. destruct reads as [|[headers|e] rest]; try discriminate.
    apply readRows_length in Hrs. simpl in *. lia.
Qed.

Lemma readCSV_succeeds_iff_witness :
  exists rs,
    readCSV (fun _ => Ok (Row ["ModuleName"] :: List.map Row [["a"]; ["b"]]))
            "modules.csv" = Ok rs.
Proof.
  apply (proj1 (readCSV_succeeds_iff
                  (fun _ => Ok (Row ["ModuleName"] :: List.map Row [["a"]; ["b"]]))
                  "modules.csv"
                  (Row ["ModuleName"] :: List.map Row [["a"]; ["b"]])
                  ltac:(reflexivity))).
  exists ["ModuleName"], [["a"]; ["b"]]. reflexivity.
Defined.

(** *** The calendar and the RFC 3339 layout *)


Section TimeFacts.
Import GoTime Strings.

Lemma isLeap_spec y :
  isLeap y = true <-> (y mod 4 = 0 /\ (y mod 100 <> 0 \/ y mod 400 = 0)).
Proof.
  unfold isLeap. rewrite andb_true_iff, orb_true_iff, negb_true_iff.
  rewrite !Z.eqb_eq, Z.eqb_neq. reflexivity.
Qed.

Lemma leapsThrough_step y :
  leapsThrough y = leapsThrough (y - 1) + (if isLeap y then 1 else 0).
Proof.
  unfold leapsThrough.
  destruct (isLeap y) eqn:Hl;
    [apply isLeap_spec in Hl
    |apply not_true_iff_false in Hl; rewrite isLeap_spec in Hl];
    Z.div_mod_to_equations; lia.
Qed.

Lemma leapsThrough_era y e : leapsThrough (y + e * 400) = leapsThrough y + 97 * e.
Proof. unfold leapsThrough. Z.div_mod_to_equations. lia. Qed.

Lemma isLeap_era y e : isLeap (y + e * 400) = isLeap y.
Proof.
  unfold isLeap.
  replace ((y + e * 400) mod 4) with (y mod 4) by (Z.div_mod_to_equations; lia).
  replace ((y + e * 400) mod 100) with (y mod 100) by (Z.div_mod_to_equations; lia).
  replace ((y + e * 400) mod 400) with (y mod 400) by (Z.div_mod_to_equations; lia).
  reflexivity.
Qed.

Lemma daysSinceEpoch_next y :
  daysSinceEpoch (y + 1) = daysSinceEpoch y + 365 + (if isLeap y then 1 else 0).
Proof.
  unfold daysSinceEpoch. pose proof (leapsThrough_step y) as H.
  replace (y + 1 - 1) with y by lia. lia.
Qed.

Ltac calc_closed :=
  repeat match goal with
         | |- context [Z.leb (Zpos ?a) (Zpos ?b)] =>
             let v := eval vm_compute in (Z.leb (Zpos a) (Zpos b)) in
             change (Z.leb (Zpos a) (Zpos b)) with v
         | |- context [Z.eqb (Zpos ?a) (Zpos ?b)] =>
             let v := eval vm_compute in (Z.eqb (Zpos a) (Zpos b)) in
             change (Z.eqb (Zpos a) (Zpos b)) with v
         | |- context [daysBefore ?a] =>
             let v := eval vm_compute in (daysBefore a) in
             change (daysBefore a) with v
         end;
  cbv iota;
  rewrite ?andb_false_l, ?andb_true_l, ?andb_true_r, ?andb_false_r, ?Z.add_0_r;
  cbv iota.

(** The civil date of a day number is a date of the calendar, and [Date]
    counts the same day number back from it. *)
Lemma civilFromDays_spec days :
  let '(y, m, d) := civilFromDays days in
  1 <= m <= 12 /\ 1 <= d <= daysIn m y /\
  daysSinceEpoch y + dayOfYear y m d = days.
Proof.
  unfold civilFromDays.
  set (z := days + 719468).
  set (era := z / 146097).
  set (doe := z - era * 146097).
  assert (Hdoe : 0 <= doe < 146097) by (subst doe era; Z.div_mod_to_equations; lia).
  assert (Hz : days = doe + era * 146097 - 719468) by (subst doe z; lia).
  clearbody doe era. clear z. subst days.
  set (yoe := (doe - doe / 1460 + doe / 36524 - doe / 146096) / 365).
  assert (Hyoe : 0 <= yoe <= 399 /\
                 365 * yoe + yoe / 4 - yoe / 100 <= doe /\
                 doe < 365 * (yoe + 1) + (yoe + 1) / 4 - (yoe + 1) / 100
                       + (yoe + 1) / 400).
  { subst yoe. Z.div_mod_to_equations. lia. }
  clearbody yoe.
  set (Y0 := yoe + era * 400).
  assert (HM : daysSinceEpoch Y0 + 59 + (if isLeap Y0 then 1 else 0)
               = 365 * yoe + yoe / 4 - yoe / 100 + era * 146097 - 719468).
  { unfold daysSinceEpoch. pose proof (leapsThrough_step Y0) as H3.
    pose proof (leapsThrough_era yoe era) as H1. fold Y0 in H1.
    assert (H2 : leapsThrough yoe = yoe / 4 - yoe / 100)
      by (unfold leapsThrough; Z.div_mod_to_equations; lia).
    change (leapsThrough 1969) with 477. subst Y0. lia. }
  pose proof (daysSinceEpoch_next Y0) as HN.
  set (doy := doe - (365 * yoe + yoe / 4 - yoe / 100)) in *.
  assert (Hdoy : 0 <= doy <= 364 + (if isLeap (Y0 + 1) then 1 else 0)).
  { assert (H1 : isLeap (Y0 + 1) = isLeap (yoe + 1)).
    { subst Y0. replace (yoe + era * 400 + 1) with (yoe + 1 + era * 400) by lia.
      apply isLeap_era. }
    rewrite H1. pose proof (leapsThrough_step (yoe + 1)) as H3.
    unfold leapsThrough in H3. replace (yoe + 1 - 1) with yoe in H3 by lia.
    assert (yoe / 400 = 0) by (Z.div_mod_to_equations; lia).
    subst doy. lia. }
  assert (Hdoydef : doy = doe - (365 * yoe + yoe / 4 - yoe / 100)) by reflexivity.
  clearbody doy Y0.
  set (mp := (5 * doy + 2) / 153).
  assert (Hmpdef : 153 * mp <= 5 * doy + 2 < 153 * mp + 153)
    by (subst mp; Z.div_mod_to_equations; lia).
  assert (Hcase : mp = 0 \/ mp = 1 \/ mp = 2 \/ mp = 3 \/ mp = 4 \/ mp = 5 \/ mp = 6
                  \/ mp = 7 \/ mp = 8 \/ mp = 9 \/ mp = 10 \/ mp = 11)
    by (destruct (isLeap (Y0 + 1)); lia).
  clearbody mp.
  set (m := if mp <? 10 then mp + 3 else mp - 9).
  set (dd := (153 * mp + 2) / 5).
  unfold dayOfYear, daysIn.
  repeat (destruct Hcase as [Hm | Hcase]); try rename Hcase into Hm;
    subst mp; vm_compute in m; vm_compute in dd; subst m dd; calc_closed.
  all: destruct (isLeap Y0); destruct (isLeap (Y0 + 1)); lia.
Qed.

Lemma dayOfYear_bounds y m d :
  1 <= m <= 12 -> 1 <= d <= daysIn m y ->
  0 <= dayOfYear y m d <= 364 + (if isLeap y then 1 else 0).
Proof.
  intros Hm Hd. unfold dayOfYear, daysIn in *.
  assert (Hcase : m = 1 \/ m = 2 \/ m = 3 \/ m = 4 \/ m = 5 \/ m = 6 \/ m = 7
                  \/ m = 8 \/ m = 9 \/ m = 10 \/ m = 11 \/ m = 12) by lia.
  repeat (destruct Hcase as [Hc | Hcase]); try rename Hcase into Hc; subst m;
    revert Hd; change (1 - 1) with 0; change (2 - 1) with 1; change (3 - 1) with 2;
    change (4 - 1) with 3; change (5 - 1) with 4; change (6 - 1) with 5;
    change (7 - 1) with 6; change (8 - 1) with 7; change (9 - 1) with 8;
    change (10 - 1) with 9; change (11 - 1) with 10; change (12 - 1) with 11;
    calc_closed; destruct (isLeap y); simpl; lia.
Qed.

Lemma daysSinceEpoch_mono a b : a <= b -> daysSinceEpoch a <= daysSinceEpoch b.
Proof.
  intros H. unfold daysSinceEpoch, leapsThrough. Z.div_mod_to_equations. lia.
Qed.

(** The year of a day number between two New Year's days. *)
Lemma civilFromDays_year days lo hi :
  daysSinceEpoch lo <= days < daysSinceEpoch hi ->
  lo <= (civilFromDays days).1.1 < hi.
Proof.
  intros Hdays. pose proof (civilFromDays_spec days) as H.
  destruct (civilFromDays days) as [[y m] d]. simpl.
  destruct H as (Hm & Hd & Hsum).
  pose proof (dayOfYear_bounds y m d Hm Hd) as Hdoy.
  pose proof (daysSinceEpoch_next y) as Hnext.
  split.
  - destruct (Z_lt_dec y lo) as [Hlt|]; [|lia].
    pose proof (daysSinceEpoch_mono (y + 1) lo ltac:(lia)). lia.
  - destruct (Z_lt_dec y hi) as [|Hge]; [assumption|].
    pose proof (daysSinceEpoch_mono hi y ltac:(lia)). lia.
Qed.


Lemma allIn_spec p : forall lo f,
  allIn p lo f = true -> forall x, lo <= x < lo + Zpos p -> f x = true.
Proof.
  induction p as [q IH|q IH|]; intros lo f H x Hx; simpl in H.
  - apply andb_true_iff in H. destruct H as [H H2].
    apply andb_true_iff in H. destruct H as [H0 H1].
    destruct (Z.eq_dec x lo) as [->|]; [assumption|].
    destruct (Z_lt_dec x (lo + 1 + Zpos q)).
    + apply (IH _ _ H1). lia.
    + apply (IH _ _ H2). lia.
  - apply andb_true_iff in H. destruct H as [H1 H2].
    destruct (Z_lt_dec x (lo + Zpos q)).
    + apply (IH _ _ H1). lia.
    + apply (IH _ _ H2). lia.
  - assert (x = lo) by lia. subst. assumption.
Qed.

Lemma twoDigits_all : allIn 100 0 twoDigits = true.
Proof. vm_compute. reflexivity. Qed.

Lemma fourDigits_all : allIn 9900 100 fourDigits = true.
Proof. vm_compute. reflexivity. Qed.

Lemma appendInt2_shape x :
  0 <= x < 100 ->
  exists a b,
    appendInt x 2 = String a (String b "") /\
    isDigit a = true /\ isDigit b = true /\
    10 * digitVal a + digitVal b = x.
Proof.
  intros Hx. pose proof (allIn_spec _ _ _ twoDigits_all x ltac:(lia)) as H.
  unfold twoDigits in H.
  destruct (appendInt x 2) as [|a [|b [|c s]]]; try discriminate.
  apply andb_true_iff in H. destruct H as [H Hv].
  apply andb_true_iff in H. destruct H as [Ha Hb].
  apply Z.eqb_eq in Hv. exists a, b. auto.
Qed.

Lemma appendInt4_shape x :
  100 <= x < 10000 ->
  exists a b c d,
    appendInt x 4 = String a (String b (String c (String d ""))) /\
    isDigit a = true /\ isDigit b = true /\ isDigit c = true /\
    isDigit d = true /\
    digitsVal 0 (String a (String b (String c (String d "")))) = x.
Proof.
  intros Hx. pose proof (allIn_spec _ _ _ fourDigits_all x ltac:(lia)) as H.
  unfold fourDigits in H.
  destruct (appendInt x 4) as [|a [|b [|c [|d [|e s]]]]]; try discriminate.
  apply andb_true_iff in H. destruct H as [H Hv].
  apply andb_true_iff in H. destruct H as [H Hd].
  apply andb_true_iff in H. destruct H as [H Hc].
  apply andb_true_iff in H. destruct H as [Ha Hb].
  apply Z.eqb_eq in Hv. exists a, b, c, d. auto 10.
Qed.

(** *** The parser on what [Format] writes *)

Lemma pbind_some {A B : Type} (p : parser A) (k : A -> parser B) s a rest :
  p s = Some (a, rest) -> pbind p k s = k a rest.
Proof. intros H. unfold pbind. rewrite H. reflexivity. Qed.

Lemma getyear_digits a b c d rest :
  isDigit a = true -> isDigit b = true -> isDigit c = true -> isDigit d = true ->
  getyear (String a (String b (String c (String d rest))))
  = Some (digitsVal 0 (String a (String b (String c (String d "")))), rest).
Proof. intros Ha Hb Hc Hd. unfold getyear. rewrite Ha, Hb, Hc, Hd. reflexivity. Qed.

Lemma getnum_two fixed a b rest :
  isDigit a = true -> isDigit b = true ->
  getnum fixed (String a (String b rest))
  = Some (10 * digitVal a + digitVal b, rest).
Proof. intros Ha Hb. unfold getnum. rewrite Ha, Hb. reflexivity. Qed.

Lemma skip_char c rest : skip c (String c rest) = Some (tt, rest).
Proof. unfold skip. rewrite Ascii.eqb_refl. reflexivity. Qed.

Lemma pguard_true b s : b = true -> pguard b s = Some (tt, s).
Proof. intros ->. reflexivity. Qed.

Lemma append_nil_l s : "" +:+ s = s.
Proof. reflexivity. Qed.

Lemma zoneText_reads_back off :
  off mod 60 = 0 -> -86400 < off < 86400 ->
  getfrac (zoneText off) = Some (0, zoneText off) /\
  getzone (zoneText off) = Some (off, "").
Proof.
  intros Hmod Hrange. unfold zoneText.
  destruct (Z.eqb_spec off 0) as [->|Hne]; [split; reflexivity|].
  set (zone := Z.quot off 60).
  assert (Hzone : off = 60 * zone).
  { subst zone.
    assert (Hq : off = off / 60 * 60) by (Z.div_mod_to_equations; lia).
    rewrite Hq at 2. rewrite Z.quot_mul by lia. lia. }
  assert (Hz : -1440 < zone < 1440) by lia.
  clearbody zone.
  destruct (appendInt2_shape (Z.abs zone / 60)) as (h1 & h2 & -> & Hh1 & Hh2 & Hh);
    [Z.div_mod_to_equations; lia|].
  destruct (appendInt2_shape (Z.abs zone mod 60)) as (m1 & m2 & -> & Hm1 & Hm2 & Hm);
    [Z.div_mod_to_equations; lia|].
  assert (Hhr : (24 <? 10 * digitVal h1 + digitVal h2) = false)
    by (apply Z.ltb_ge; rewrite Hh; Z.div_mod_to_equations; lia).
  assert (Hmm : (60 <? 10 * digitVal m1 + digitVal m2) = false)
    by (apply Z.ltb_ge; rewrite Hm; Z.div_mod_to_equations; lia).
  destruct (zone <? 0) eqn:Hneg; rewrite !append_cons, !append_nil_l;
    (split; [reflexivity|]); unfold getzone;
    rewrite Hh1, Hh2, Hm1, Hm2, Hhr, Hmm; simpl; f_equal; f_equal;
    rewrite Hh, Hm;
    [apply Z.ltb_lt in Hneg | apply Z.ltb_ge in Hneg];
    Z.div_mod_to_equations; lia.
Qed.


Lemma daysIn_bounds m y : 1 <= m <= 12 -> 28 <= daysIn m y <= 31.
Proof.
  intros Hm. unfold daysIn.
  assert (Hcase : m = 1 \/ m = 2 \/ m = 3 \/ m = 4 \/ m = 5 \/ m = 6 \/ m = 7
                  \/ m = 8 \/ m = 9 \/ m = 10 \/ m = 11 \/ m = 12) by lia.
  repeat (destruct Hcase as [Hc | Hcase]); try rename Hcase into Hc; subst m;
    calc_closed; try destruct (isLeap y); simpl; lia.
Qed.

(** [Date] on fields that are in range: nothing is carried over. *)
Lemma Date_in_range y m d hh mi ss off :
  1 <= m <= 12 -> 0 <= hh < 24 -> 0 <= mi < 60 -> 0 <= ss < 60 ->
  Date y m d hh mi ss 0 (FixedZone off)
  = mkTime ((daysSinceEpoch y + dayOfYear y m d) * 86400
            + hh * 3600 + mi * 60 + ss - off) 0 (FixedZone off).
Proof.
  intros Hm Hh Hmi Hs. rewrite Date_FixedZone.
  unfold civilUnix, norm, dayOfYear, secondsPerDay.
  replace ((m - 1) / 12) with 0 by (Z.div_mod_to_equations; lia).
  replace ((m - 1) mod 12) with (m - 1) by (Z.div_mod_to_equations; lia).
  change (0 / 1000000000) with 0. change (0 mod 1000000000) with 0.
  rewrite !Z.add_0_r.
  replace (ss / 60) with 0 by (Z.div_mod_to_equations; lia).
  replace (ss mod 60) with ss by (Z.div_mod_to_equations; lia).
  rewrite !Z.add_0_r.
  replace (mi / 60) with 0 by (Z.div_mod_to_equations; lia).
  replace (mi mod 60) with mi by (Z.div_mod_to_equations; lia).
  rewrite !Z.add_0_r.
  replace (hh / 24) with 0 by (Z.div_mod_to_equations; lia).
  replace (hh mod 24) with hh by (Z.div_mod_to_equations; lia).
  rewrite !Z.add_0_r.
  replace (m - 1 + 1) with m by lia.
  cbn [fst snd]. f_equal. lia.
Qed.

Lemma FormatRFC3339_parts t :
  FormatRFC3339 t
  = let '(year, month, day) := dateOf t in
    let '(hour, min, sec) := clockOf t in
    appendInt year 4 +:+ "-" +:+ appendInt month 2 +:+ "-" +:+ appendInt day 2
    +:+ "T" +:+ appendInt hour 2 +:+ ":" +:+ appendInt min 2 +:+ ":"
    +:+ appendInt sec 2 +:+ zoneText (zoneOffset t).
Proof. reflexivity. Qed.

Lemma Format_then_Parse off epoch :
  off mod 60 = 0 -> -86400 < off < 86400 ->
  -59011459200 <= epoch + off < 253402300800 ->
  ParseRFC3339 (FormatRFC3339 (Unix off epoch)) = Some (Unix off epoch).
Proof.
  intros Hmod Hoff Hrange.
  rewrite FormatRFC3339_parts.
  unfold dateOf, clockOf, wallSec, secondsPerDay, Unix.
  change (zoneOffset (mkTime epoch 0 (FixedZone off))) with off.
  cbn [unixSec nsec].
  set (wall := epoch + off) in *.
  set (days := wall / 86400).
  set (s := wall mod 86400).
  assert (Hs : 0 <= s < 86400) by (subst s; Z.div_mod_to_equations; lia).
  assert (Hwall : wall = days * 86400 + s) by (subst days s; Z.div_mod_to_equations; lia).
  pose proof (civilFromDays_spec days) as Hciv.
  pose proof (civilFromDays_year days 100 10000) as Hyear.
  change (daysSinceEpoch 100) with (-683003) in Hyear.
  change (daysSinceEpoch 10000) with 2932897 in Hyear.
  specialize (Hyear ltac:(lia)).
  destruct (civilFromDays days) as [[y m] d]. simpl in Hyear.
  destruct Hciv as (Hm & Hd & Hsum).
  pose proof (daysIn_bounds m y Hm) as Hdin.
  set (hh := s / 3600). set (mi := s mod 3600 / 60). set (ss := s mod 60).
  assert (Hhh : 0 <= hh < 24) by (subst hh; Z.div_mod_to_equations; lia).
  assert (Hmi : 0 <= mi < 60) by (subst mi; Z.div_mod_to_equations; lia).
  assert (Hss : 0 <= ss < 60) by (subst ss; Z.div_mod_to_equations; lia).
  assert (Hclock : s = hh * 3600 + mi * 60 + ss)
    by (subst hh mi ss; Z.div_mod_to_equations; lia).
  clearbody hh mi ss.
  destruct (appendInt4_shape y) as (y1 & y2 & y3 & y4 & -> & Hy1 & Hy2 & Hy3 & Hy4 & Hy);
    [lia|].
  destruct (appendInt2_shape m) as (m1 & m2 & -> & Hm1 & Hm2 & Hmv); [lia|].
  destruct (appendInt2_shape d) as (d1 & d2 & -> & Hd1 & Hd2 & Hdv); [lia|].
  destruct (appendInt2_shape hh) as (h1 & h2 & -> & Hh1 & Hh2 & Hhv); [lia|].
  destruct (appendInt2_shape mi) as (n1 & n2 & -> & Hn1 & Hn2 & Hnv); [lia|].
  destruct (appendInt2_shape ss) as (s1 & s2 & -> & Hs1 & Hs2 & Hsv); [lia|].
  destruct (zoneText_reads_back off Hmod Hoff) as [Hfrac Hzone].
  rewrite !append_cons, !append_nil_l.
  unfold ParseRFC3339, rfc3339.
  erewrite pbind_some by (apply getyear_digits; assumption). cbv beta.
  erewrite pbind_some by apply skip_char. cbv beta.
  erewrite pbind_some by (apply getnum_two; assumption). cbv beta.
  erewrite pbind_some by (apply pguard_true; rewrite Hmv; apply andb_true_iff;
                          split; apply Z.leb_le; lia). cbv beta.
  erewrite pbind_some by apply skip_char. cbv beta.
  erewrite pbind_some by (apply getnum_two; assumption). cbv beta.
  erewrite pbind_some by apply skip_char. cbv beta.
  erewrite pbind_some by (apply getnum_two; assumption). cbv beta.
  erewrite pbind_some by (apply pguard_true; rewrite Hhv; apply Z.ltb_lt; lia).
  cbv beta.
  erewrite pbind_some by apply skip_char. cbv beta.
  erewrite pbind_some by (apply getnum_two; assumption). cbv beta.
  erewrite pbind_some by (apply pguard_true; rewrite Hnv; apply Z.ltb_lt; lia).
  cbv beta.
  erewrite pbind_some by apply skip_char. cbv beta.
  erewrite pbind_some by (apply getnum_two; assumption). cbv beta.
  erewrite pbind_some by (apply pguard_true; rewrite Hsv; apply Z.ltb_lt; lia).
  cbv beta.
  erewrite pbind_some by exact Hfrac. cbv beta.
  erewrite pbind_some by exact Hzone. cbv beta.
  rewrite Hy, Hmv, Hdv, Hhv, Hnv, Hsv.
  erewrite pbind_some by (apply pguard_true; apply andb_true_iff;
                          split; apply Z.leb_le; lia). cbv beta.
  unfold pret. unfold UTC. rewrite Date_in_range by assumption.
  cbn [unixSec nsec]. f_equal. f_equal. f_equal. lia.
Qed.

End TimeFacts.

(** *** The log line of the last commit *)

Lemma Contains_bar_cons c s :
  Strings.Contains (String c s) "|" = Ascii.eqb "|" c || Strings.Contains s "|".
Proof.
  change (Strings.Contains (String c s) "|")
    with (Strings.HasPrefix (String c s) "|" || Strings.Contains s "|").
  cbn [Strings.HasPrefix]. destruct (Ascii.eqb "|" c); reflexivity.
Qed.

Lemma SplitN2_no_bar s :
  Strings.Contains s "|" = false -> Strings.SplitN2 "|" s = [s].
Proof.
  induction s as [|c s IH]; intros H; [reflexivity|].
  rewrite Contains_bar_cons in H. apply orb_false_iff in H. destruct H as [Hc Hs].
  simpl. rewrite Ascii.eqb_sym, Hc, (IH Hs). reflexivity.
Qed.

Lemma SplitN2_first_bar a b :
  Strings.Contains a "|" = false ->
  Strings.SplitN2 "|" (a +:+ "|" +:+ b) = [a; b].
Proof.
  induction a as [|c a IH]; intros H.
  - reflexivity.
  - rewrite Contains_bar_cons in H. apply orb_false_iff in H. destruct H as [Hc Ha].
    rewrite append_cons. simpl. rewrite Ascii.eqb_sym, Hc, (IH Ha). reflexivity.
Qed.

Lemma getLastCommitInfo_result o repoPath w :
  (getLastCommitInfo o repoPath w).1
  = match gitLogRun o (tick w) repoPath with
    | Err err => Err ("failed to get last commit: " +:+ err)
    | Ok out =>
        match Strings.SplitN2 "|" out with
        | [p0; p1] =>
            match Strconv.ParseInt (Strings.TrimSpace p0) with
            | Err err =>
                Err ("invalid epoch time '" +:+ Strings.TrimSpace p0 +:+ "': " +:+ err)
            | Ok epoch =>
                Ok (GoTime.FormatRFC3339 (GoTime.Unix (localOffset o) epoch),
                    Strings.TrimSpace p1)
            end
        | _ => Err "unexpected format for last commit info"
        end
    end.
Proof.
  unfold getLastCommitInfo, runGitLog, bind, nextTick, emit, ret. simpl.
  destruct (gitLogRun o (tick w) repoPath) as [out|e]; [|reflexivity].
  destruct (Strings.SplitN2 "|" out) as [|p0 [|p1 [|p2 ps]]]; try reflexivity.
  destruct (Strconv.ParseInt (Strings.TrimSpace p0)); reflexivity.
Qed.

(** X6: [getLastCommitInfo] cuts the line that [git log] prints at its first
    bar only.  A line without a bar is the error "unexpected format for last
    commit info"; otherwise the text before the first bar, trimmed, is the
    epoch and has to read as a 64-bit decimal number, and all the text after
    it, trimmed, is the author, further bars included. *)
Theorem getLastCommitInfo_cuts_at_first_bar o repoPath w out :
  gitLogRun o (tick w) repoPath = Ok out ->
  (Strings.Contains out "|" = false ->
   (getLastCommitInfo o repoPath w).1
   = Err "unexpected format for last commit info") /\
  (forall a b,
     out = a +:+ "|" +:+ b -> Strings.Contains a "|" = false ->
     (getLastCommitInfo o repoPath w).1
     = match Strconv.ParseInt (Strings.TrimSpace a) with
       | Ok epoch =>
           Ok (GoTime.FormatRFC3339 (GoTime.Unix (localOffset o) epoch),
               Strings.TrimSpace b)
       | Err err =>
           Err ("invalid epoch time '" +:+ Strings.TrimSpace a +:+ "': " +:+ err)
       end).
Proof.
  intros Hlog. rewrite getLastCommitInfo_result, Hlog. split.
  - intros Hnone. rewrite (SplitN2_no_bar _ Hnone). reflexivity.
  - intros a b -> Ha. rewrite (SplitN2_first_bar _ _ Ha).
    destruct (Strconv.ParseInt (Strings.TrimSpace a)); reflexivity.
Qed.

Lemma getLastCommitInfo_cuts_at_first_bar_witness :
  (getLastCommitInfo barOracle "/tmp/repo-0" emptyWorld).1
  = Ok ("2023-11-14T22:13:20Z", "Doe | Roe").
Proof.
  destruct (getLastCommitInfo_cuts_at_first_bar barOracle "/tmp/repo-0" emptyWorld
              (" 1700000000 | Doe | Roe" +:+ newline) ltac:(reflexivity))
    as [_ H].
  rewrite (H " 1700000000 " (" Doe | Roe" +:+ newline)
             ltac:(reflexivity) ltac:(reflexivity)).
  vm_compute. reflexivity.
Defined.

(** *** What an Outcome can look like *)

Lemma append_ne_empty a c s : a +:+ String c s <> "".
Proof. destruct a; [rewrite append_nil_l | rewrite append_cons]; discriminate. Qed.

Lemma FormatRFC3339_not_empty t : GoTime.FormatRFC3339 t <> "".
Proof.
  rewrite FormatRFC3339_parts.
  destruct (GoTime.dateOf t) as [[year month] day].
  destruct (GoTime.clockOf t) as [[hour min] sec].
  apply append_ne_empty.
Qed.

Lemma checkProviders_Return_error ps : forall res res',
  checkProviders ps res = Return res' ->
  exists pv e,
    pv ∈ ps /\ isTracked (ProviderName pv) /\
    GoVersion.NewConstraint (Version pv) = Err e /\
    Error res'
    = "failed to check version constraints for provider '" +:+ ProviderName pv
      +:+ "': failed to parse constraint '" +:+ Version pv +:+ "': " +:+ e.
Proof.
  induction ps as [|p rest IH]; intros res res' H; simpl in H; [discriminate|].
  destruct (providersToCheck !! ProviderName p) as [floor|] eqn:Hfloor.
  - assert (Htracked : isTracked (ProviderName p))
      by (apply tracked_names; eexists; exact Hfloor).
    destruct (checkVersionConstraints floor (Version p)) as [valid|cErr] eqn:Hcheck.
    + destruct (IH _ _ H) as (pv & e & Hin & Hrest).
      exists pv, e. split; [apply elem_of_cons; right; exact Hin | exact Hrest].
    + injection H as <-. simpl.
      assert (Hver : exists ver, GoVersion.NewVersion floor = Ok ver).
      { destruct Htracked as [Hn|Hn]; rewrite Hn in Hfloor; vm_compute in Hfloor;
          injection Hfloor as <-; eexists; vm_compute; reflexivity. }
      destruct Hver as [ver Hver]. unfold checkVersionConstraints in Hcheck.
      rewrite Hver in Hcheck.
      destruct (GoVersion.NewConstraint (Version p)) as [c|e] eqn:Hc; [discriminate|].
      injection Hcheck as <-.
      exists p, e. split; [apply elem_of_cons; left; reflexivity|].
      split; [exact Htracked|]. split; [exact Hc | reflexivity].
  - destruct (IH _ _ H) as (pv & e & Hin & Hrest).
    exists pv, e. split; [apply elem_of_cons; right; exact Hin | exact Hrest].
Qed.

(** The ways [processRecord] returns: the clone failed, the module loader
    failed, the constraint loop returned early, the commit could not be
    read, or every stage went through. *)
Lemma processRecord_shape o record quiet w :
  let r := (processRecord o record quiet w).1 in
  (exists e, r = mkResult record [] ∅ "" ""
                   ("failed to clone repo '" +:+ RepoURL record +:+ "': " +:+ e)) \/
  (exists e, r = mkResult record [] ∅ "" ""
                   ("failed to parse Terraform module: " +:+ e)) \/
  (exists providers res2,
     checkProviders providers (mkResult record providers ∅ "" "" "") = Return res2 /\
     r = res2) \/
  (exists providers res2 e,
     checkProviders providers (mkResult record providers ∅ "" "" "")
     = Continue res2 /\
     r = setError res2
           (Error res2 +:+ " | could not retrieve last commit info: " +:+ e)) \/
  (exists providers res2 epoch author,
     checkProviders providers (mkResult record providers ∅ "" "" "")
     = Continue res2 /\
     r = setLastCommit res2
           (GoTime.FormatRFC3339 (GoTime.Unix (localOffset o) epoch)) author).
Proof.
  cbv zeta. unfold processRecord. rewrite bind_eq.
  destruct (cloneLoop o 3 1 record quiet "" None w) as [[repoPath [e|]] w1].
  { left. exists e. reflexivity. }
  cbn [fst snd]. rewrite !bind_eq. cbn [fst ret].
  unfold processCloned. rewrite bind_eq.
  destruct (parseTerraformModule o repoPath w1) as [[providers|err] w2].
  2:{ right. left. exists err. reflexivity. }
  cbn [fst snd].
  change (setCompatibility _ ∅) with (mkResult record providers ∅ "" "" "").
  destruct (checkProviders providers (mkResult record providers ∅ "" "" ""))
    as [res2|res2] eqn:Hcheck.
  2:{ right. right. left. exists providers, res2.
      split; [exact Hcheck | reflexivity]. }
  rewrite bind_eq. pose proof (getLastCommitInfo_result o repoPath w2) as Hres.
  destruct (getLastCommitInfo o repoPath w2) as [[[lastDate author]|commitErr] w3];
    cbn [fst snd] in *.
  - right. right. right. right.
    destruct (gitLogRun o (tick w2) repoPath) as [out|err]; [|discriminate].
    destruct (Strings.SplitN2 "|" out) as [|p0 [|p1 [|p2 ps]]]; try discriminate.
    destruct (Strconv.ParseInt (Strings.TrimSpace p0)) as [epoch|err];
      [|discriminate].
    injection Hres as -> ->.
    exists providers, res2, epoch, (Strings.TrimSpace p1).
    split; [exact Hcheck | reflexivity].
  - right. right. right. left. exists providers, res2, commitErr.
    split; [exact Hcheck|]. rewrite bind_eq. reflexivity.
Qed.

Lemma checkProviders_Continue_fields ps res res2 :
  checkProviders ps res = Continue res2 ->
  Record_ res2 = Record_ res /\
  Providers res2 = Providers res /\
  LastCommitDate res2 = LastCommitDate res /\
  LastCommitAuthor res2 = LastCommitAuthor res /\
  Compatibility res2 = evalProviders ps (Compatibility res) /\
  Error res2 = Error res.
Proof.
  intros Hc. pose proof (checkProviders_fields ps res) as Hf.
  rewrite Hc in Hf. simpl in Hf. destruct Hf as (H1 & H2 & H3 & H4 & H5).
  pose proof (checkProviders_Continue_error _ _ _ Hc) as H6. auto 10.
Qed.

Lemma checkProviders_Return_fields ps res res2 :
  checkProviders ps res = Return res2 ->
  Record_ res2 = Record_ res /\
  Providers res2 = Providers res /\
  LastCommitDate res2 = LastCommitDate res /\
  LastCommitAuthor res2 = LastCommitAuthor res /\
  Compatibility res2 = evalProviders ps (Compatibility res).
Proof.
  intros Hc. pose proof (checkProviders_fields ps res) as Hf.
  rewrite Hc in Hf. exact Hf.
Qed.

Ltac outcome_cases o record quiet w :=
  destruct (processRecord_shape o record quiet w)
    as [(?e & ->) | [(?e & ->) | [(?ps & ?res2 & ?Hc & ->)
       | [(?ps & ?res2 & ?e & ?Hc & ->)
       | (?ps & ?res2 & ?epoch & ?author & ?Hc & ->)]]]].

Lemma outcome_error_or_date o record quiet w :
  let r := (processRecord o record quiet w).1 in
  Error r = "" <-> LastCommitDate r <> "".
Proof.
  cbv zeta. outcome_cases o record quiet w; simpl.
  - split; [rewrite append_cons; discriminate | intros H; contradiction].
  - split; [rewrite append_cons; discriminate | intros H; contradiction].
  - destruct (checkProviders_Return_fields _ _ _ Hc) as (_ & _ & Hdate & _).
    destruct (checkProviders_Return_error _ _ _ Hc) as (pv & e & _ & _ & _ & Herr).
    rewrite Hdate, Herr. split; [|intros H; contradiction].
    rewrite append_cons. discriminate.
  - destruct (checkProviders_Continue_fields _ _ _ Hc) as (_ & _ & Hdate & _).
    rewrite Hdate. split; [|intros H; contradiction].
    intros H. exfalso. revert H. apply append_ne_empty.
  - destruct (checkProviders_Continue_fields _ _ _ Hc) as (_ & _ & _ & _ & _ & Herr).
    rewrite Herr. simpl.
    split; [intros _; apply FormatRFC3339_not_empty | reflexivity].
Qed.

(** X9: an Outcome of [processRecord] has a last-commit date exactly when
    it has no error: the date is written only after every stage went
    through, and every failure leaves an error text. *)
Theorem error_or_commit_date o record quiet w :
  let r := (processRecord o record quiet w).1 in
  Error r = "" <-> LastCommitDate r <> "".
Proof. apply outcome_error_or_date. Qed.

Lemma error_or_commit_date_witness :
  LastCommitDate (processRecord twoExpressionsOracle sampleRecord false emptyWorld).1
  <> "".
Proof.
  apply (proj1 (error_or_commit_date twoExpressionsOracle sampleRecord false
                                     emptyWorld)).
  vm_compute. reflexivity.
Defined.

(** *** The keys of the compliance map *)

Lemma isTracked_lookup name :
  isTracked name <-> is_Some (providersToCheck !! name).
Proof. symmetry. apply tracked_names. Qed.

Lemma evalProviders_keys ps : forall m k,
  is_Some (evalProviders ps m !! k) ->
  is_Some (m !! k)
  \/ (isTracked k /\ exists pv, pv ∈ ps /\ ProviderName pv = k).
Proof.
  induction ps as [|p rest IH]; intros m k H; simpl in H; [left; exact H|].
  assert (Hlater : forall m',
             is_Some (evalProviders rest m' !! k) ->
             (is_Some (m' !! k) -> is_Some (m !! k) \/ ProviderName p = k /\
                                   is_Some (providersToCheck !! ProviderName p)) ->
             is_Some (m !! k)
             \/ (isTracked k /\ exists pv, pv ∈ p :: rest /\ ProviderName pv = k)).
  { intros m' Hk Hm'. destruct (IH _ _ Hk) as [Hin | (Ht & pv & Hpv & Hname)].
    - destruct (Hm' Hin) as [Hm | [Hname Hfloor]]; [left; exact Hm|].
      right. split; [apply isTracked_lookup; rewrite <- Hname; exact Hfloor|].
      exists p. split; [apply elem_of_cons; left; reflexivity | exact Hname].
    - right. split; [exact Ht|]. exists pv.
      split; [apply elem_of_cons; right; exact Hpv | exact Hname]. }
  destruct (providersToCheck !! ProviderName p) as [floor|] eqn:Hfloor.
  - destruct (checkVersionConstraints floor (Version p)) as [valid|cErr].
    + apply (Hlater _ H). intros Hin.
      destruct (decide (ProviderName p = k)) as [Heq|Hne].
      * right. split; [exact Heq | eexists; reflexivity].
      * left. rewrite lookup_insert_ne in Hin by exact Hne. exact Hin.
    + left. exact H.
  - apply (Hlater _ H). intros Hin. left. exact Hin.
Qed.

Lemma checkProviders_keeps_keys ps k : forall res res',
  checkProviders ps res = Continue res' ->
  is_Some (Compatibility res !! k) -> is_Some (Compatibility res' !! k).
Proof.
  induction ps as [|p rest IH]; intros res res' H Hk; simpl in H.
  - injection H as <-. exact Hk.
  - destruct (providersToCheck !! ProviderName p) as [floor|]; [|eauto].
    destruct (checkVersionConstraints floor (Version p)) as [valid|cErr];
      [|discriminate].
    apply (IH _ _ H). simpl.
    destruct (decide (ProviderName p = k)) as [->|Hne].
    + rewrite lookup_insert_eq. eexists. reflexivity.
    + rewrite lookup_insert_ne by exact Hne. exact Hk.
Qed.

Lemma checkProviders_complete ps : forall res res' pv,
  checkProviders ps res = Continue res' ->
  pv ∈ ps -> isTracked (ProviderName pv) ->
  is_Some (Compatibility res' !! ProviderName pv).
Proof.
  induction ps as [|p rest IH]; intros res res' pv H Hin Ht; simpl in H.
  - apply elem_of_nil in Hin. contradiction.
  - apply elem_of_cons in Hin.
    destruct (providersToCheck !! ProviderName p) as [floor|] eqn:Hfloor.
    + destruct (checkVersionConstraints floor (Version p)) as [valid|cErr];
        [|discriminate].
      destruct Hin as [->|Hin]; [|eapply IH; eassumption].
      apply (checkProviders_keeps_keys _ _ _ _ H). simpl.
      rewrite lookup_insert_eq. eexists. reflexivity.
    + destruct Hin as [->|Hin]; [|eapply IH; eassumption].
      apply isTracked_lookup in Ht. rewrite Hfloor in Ht.
      destruct Ht as [? Ht]. discriminate.
Qed.

Lemma compliance_keys_declared o record quiet w k :
  let r := (processRecord o record quiet w).1 in
  is_Some (Compatibility r !! k) ->
  isTracked k /\ exists pv, pv ∈ Providers r /\ ProviderName pv = k.
Proof.
  cbv zeta. outcome_cases o record quiet w; simpl.
  - intros H; rewrite lookup_empty in H; destruct H; discriminate.
  - intros H; rewrite lookup_empty in H; destruct H; discriminate.
  - destruct (checkProviders_Return_fields _ _ _ Hc) as (_ & Hp & _ & _ & Hm).
    simpl in Hp, Hm. rewrite Hp, Hm.
    intros H. destruct (evalProviders_keys _ _ _ H) as [H0|H1]; [|exact H1].
    rewrite lookup_empty in H0. destruct H0; discriminate.
  - destruct (checkProviders_Continue_fields _ _ _ Hc) as (_ & Hp & _ & _ & Hm & _).
    simpl in Hp, Hm. rewrite Hp, Hm.
    intros H. destruct (evalProviders_keys _ _ _ H) as [H0|H1]; [|exact H1].
    rewrite lookup_empty in H0. destruct H0; discriminate.
  - destruct (checkProviders_Continue_fields _ _ _ Hc) as (_ & Hp & _ & _ & Hm & _).
    simpl in Hp, Hm. rewrite Hp, Hm.
    intros H. destruct (evalProviders_keys _ _ _ H) as [H0|H1]; [|exact H1].
    rewrite lookup_empty in H0. destruct H0; discriminate.
Qed.

(** X10: the compliance map of an Outcome has keys only for providers the
    program tracks ([azurerm], [azapi]) and the module requires with a
    version constraint; an Outcome without error has a key for every such
    provider. *)
Theorem compliance_map_keys o record quiet w :
  let r := (processRecord o record quiet w).1 in
  (forall k, is_Some (Compatibility r !! k) ->
             isTracked k /\ exists pv, pv ∈ Providers r /\ ProviderName pv = k) /\
  (Error r = "" ->
   forall pv, pv ∈ Providers r -> isTracked (ProviderName pv) ->
              is_Some (Compatibility r !! ProviderName pv)).
Proof.
  cbv zeta. split; [intros k; apply compliance_keys_declared|].
  outcome_cases o record quiet w; simpl.
  - rewrite append_cons. discriminate.
  - rewrite append_cons. discriminate.
  - destruct (checkProviders_Return_error _ _ _ Hc) as (pv & e & _ & _ & _ & Herr).
    rewrite Herr, append_cons. discriminate.
  - intros H. exfalso. revert H. apply append_ne_empty.
  - destruct (checkProviders_Continue_fields _ _ _ Hc) as (_ & Hp & _).
    simpl in Hp. rewrite Hp.
    intros _ pv Hin Ht. eapply checkProviders_complete; eassumption.
Qed.

Lemma compliance_map_keys_witness :
  isTracked "azurerm" /\
  exists pv,
    pv ∈ Providers (processRecord twoExpressionsOracle sampleRecord false
                                  emptyWorld).1 /\
    ProviderName pv = "azurerm".
Proof.
  apply (proj1 (compliance_map_keys twoExpressionsOracle sampleRecord false
                                    emptyWorld) "azurerm").
  vm_compute. eexists. reflexivity.
Defined.

(** X13: when the constraint loop ends an item, the error text quotes a
    tracked provider of the module and the version expression declared for
    it that does not read as a constraint; the program's own minimum
    versions always read as versions, so the text is never about them. *)
Theorem constraint_error_quotes_expression o record quiet w :
  let r := (processRecord o record quiet w).1 in
  Strings.HasPrefix (Error r) "failed to check version constraints" = true ->
  exists pv e,
    pv ∈ Providers r /\ isTracked (ProviderName pv) /\
    GoVersion.NewConstraint (Version pv) = Err e /\
    Error r
    = "failed to check version constraints for provider '" +:+ ProviderName pv
      +:+ "': failed to parse constraint '" +:+ Version pv +:+ "': " +:+ e.
Proof.
  cbv zeta. outcome_cases o record quiet w; simpl; intros Hprefix.
  - discriminate.
  - discriminate.
  - destruct (checkProviders_Return_fields _ _ _ Hc) as (_ & Hp & _).
    destruct (checkProviders_Return_error _ _ _ Hc) as (pv & e & Hin & Hrest).
    simpl in Hp. rewrite Hp. exists pv, e. split; [exact Hin | exact Hrest].
  - destruct (checkProviders_Continue_fields _ _ _ Hc) as (_ & _ & _ & _ & _ & Herr).
    simpl in Herr. rewrite Herr in Hprefix. simpl in Hprefix. discriminate.
  - destruct (checkProviders_Continue_fields _ _ _ Hc) as (_ & _ & _ & _ & _ & Herr).
    simpl in Herr. rewrite Herr in Hprefix. discriminate.
Qed.

Lemma constraint_error_quotes_expression_witness :
  exists pv e,
    pv ∈ Providers (processRecord malformedOracle sampleRecord true emptyWorld).1 /\
    isTracked (ProviderName pv) /\
    GoVersion.NewConstraint (Version pv) = Err e /\
    Error (processRecord malformedOracle sampleRecord true emptyWorld).1
    = "failed to check version constraints for provider '" +:+ ProviderName pv
      +:+ "': failed to parse constraint '" +:+ Version pv +:+ "': " +:+ e.
Proof.
  apply (constraint_error_quotes_expression malformedOracle sampleRecord true
                                            emptyWorld).
  vm_compute. reflexivity.
Defined.

(** *** The trace of a quiet run *)

Section QuietRun.

Variable o : Oracle.
Variable record : CSVRecord.

Lemma cloneRepo_no_log url w :
  exists evs,
    trace (cloneRepo o url w).2 = trace w ++ evs /\ count isLog evs = 0%nat.
Proof.
  unfold cloneRepo, MkdirTemp, runGitClone, RemoveAll, bind, nextTick, emit, ret.
  simpl.
  destruct (mkdirTempName o (tick w)) as [name|e]; simpl.
  - destruct (decide (name ∈ fs w)); simpl.
    + eexists. split; reflexivity.
    + destruct (gitCloneRun o (S (tick w)) url name) as [output [e|]]; simpl;
        eexists; rewrite <- !app_assoc; split; reflexivity.
  - eexists. split; reflexivity.
Qed.

Lemma cloneLoop_no_log fuel : forall attempt repoPath err w,
  exists evs,
    trace (cloneLoop o fuel attempt record true repoPath err w).2 = trace w ++ evs /\
    count isLog evs = 0%nat.
Proof.
  induction fuel as [|fuel IH]; intros attempt repoPath err w; simpl.
  - exists []. rewrite app_nil_r. split; reflexivity.
  - destruct (attempt <=? 3).
    2:{ exists []. rewrite app_nil_r. split; reflexivity. }
    rewrite bind_eq.
    destruct (cloneRepo_no_log (RepoURL record) w) as (evs0 & Htr0 & Hlog0).
    destruct (cloneRepo o (RepoURL record) w) as [[d|e] w1]; simpl in Htr0;
      cbn [fst snd].
    + exists evs0. split; assumption.
    + rewrite !bind_eq. cbn [negb ret fst snd].
      destruct (IH (attempt + 1) "" (Some e) (Sleep (2 * Second) w1).2)
        as (evs1 & Htr1 & Hlog1).
      exists (evs0 ++ [ESleep (2 * Second)] ++ evs1).
      split.
      * rewrite Htr1. unfold Sleep, emit. simpl. rewrite Htr0, <- !app_assoc.
        reflexivity.
      * rewrite !count_app, Hlog0, Hlog1. reflexivity.
Qed.

Lemma processCloned_no_log res repoPath w :
  exists evs,
    trace (processCloned o record true res repoPath w).2 = trace w ++ evs /\
    count isLog evs = 0%nat.
Proof.
  unfold processCloned. rewrite bind_eq, parseTerraformModule_world.
  destruct (parseTerraformModule o repoPath w).1 as [providers|err].
  2:{ eexists. simpl. split; reflexivity. }
  destruct (checkProviders providers _) as [res'|res'].
  2:{ eexists. simpl. split; reflexivity. }
  rewrite bind_eq.
  match goal with |- context [getLastCommitInfo o repoPath ?w1] =>
    destruct (getLastCommitInfo_world o repoPath w1) as [gerr Hw];
    rewrite Hw; destruct (getLastCommitInfo o repoPath w1).1 as [[lastDate author]|commitErr]
  end.
  - eexists. simpl. rewrite <- app_assoc. split; reflexivity.
  - rewrite bind_eq. eexists. simpl. rewrite <- app_assoc. split; reflexivity.
Qed.

End QuietRun.

(** X11: with [quiet] set, [processRecord] writes no log line at all,
    neither for a failed clone attempt nor for a commit it cannot read. *)
Theorem quiet_run_logs_nothing o record w :
  count isLog (newEvents w (processRecord o record true w).2) = 0%nat.
Proof.
  unfold processRecord. rewrite bind_eq.
  destruct (cloneLoop_no_log o record 3 1 "" None w) as (evs & Htr & Hlog).
  destruct (cloneLoop o 3 1 record true "" None w) as [[repoPath [e|]] w1];
    cbn [fst snd] in *.
  - unfold ret. cbn [fst snd]. rewrite (newEvents_of _ _ _ Htr). exact Hlog.
  - rewrite !bind_eq. unfold ret. cbn [fst snd].
    destruct (processCloned_no_log o record (mkResult record [] ∅ "" "" "")
                                   repoPath w1) as (evs2 & Htr2 & Hlog2).
    unfold RemoveAll. cbn [fst snd trace].
    rewrite Htr2, Htr, <- !app_assoc.
    rewrite (newEvents_of w _ (evs ++ evs2 ++ [ERemoveAll repoPath]));
      [|reflexivity].
    rewrite !count_app, Hlog, Hlog2. reflexivity.
Qed.

(** X12: an item whose three clone attempts failed is counted as
    unreachable and as nothing else: its Outcome has no compliance entry
    and no date, so it is neither not-compatible nor dormant. *)
Theorem failed_clone_is_only_unreachable o record quiet w now :
  let r := processRecord o record quiet w in
  count isFailedAttempt (newEvents w r.2) = 3%nat ->
  isUnreachable r.1 = true /\
  isNotCompatible r.1 = false /\
  isDormant (GoTime.AddDate now 0 (-6) 0) r.1 = false /\
  summarizeResults now [r.1] = (1, 0, 0).
Proof.
  cbv zeta. intros Hfailed.
  destruct (processRecord_spec o record quiet w)
    as (evs & f & Htr & _ & _ & Hf & _ & _ & Hcase).
  cbv zeta in Htr, Hcase. rewrite (newEvents_of _ _ _ Htr) in Hfailed.
  destruct Hcase as [(_ & _ & _ & _ & e & Hr) | (Hlt & _)]; [|lia].
  rewrite Hr.
  assert (Hu : isUnreachable
                 (setError (mkResult record [] ∅ "" "" "")
                    ("failed to clone repo '" +:+ RepoURL record +:+ "': " +:+ e))
               = true).
  { unfold isUnreachable. apply Contains_spec.
    exists "", (" '" +:+ RepoURL record +:+ "': " +:+ e). reflexivity. }
  rewrite summarizeResults_counts. unfold countWhere. simpl List.filter.
  rewrite Hu. repeat split; reflexivity.
Qed.

Lemma failed_clone_is_only_unreachable_witness :
  summarizeResults sampleNow
    [(processRecord unreachableOracle sampleRecord true emptyWorld).1]
  = (1, 0, 0).
Proof.
  apply (failed_clone_is_only_unreachable unreachableOracle sampleRecord true
                                          emptyWorld sampleNow).
  vm_compute. reflexivity.
Defined.

(** *** The commit date, written and read back *)

(** X7: the date [getLastCommitInfo] writes reads back, with [time.Parse]
    and the same layout, as the instant of the commit's epoch second in the
    local zone.  The local offset is a whole number of minutes less than a
    day, and the year on the local calendar has four digits, 100 to
    9999. *)
Theorem commit_date_reads_back o repoPath w date author :
  (getLastCommitInfo o repoPath w).1 = Ok (date, author) ->
  localOffset o mod 60 = 0 -> -86400 < localOffset o < 86400 ->
  exists epoch,
    date = GoTime.FormatRFC3339 (GoTime.Unix (localOffset o) epoch) /\
    (-59011459200 <= epoch + localOffset o < 253402300800 ->
     GoTime.ParseRFC3339 date = Some (GoTime.Unix (localOffset o) epoch)).
Proof.
  intros Hres Hmod Hoff. rewrite getLastCommitInfo_result in Hres.
  destruct (gitLogRun o (tick w) repoPath) as [out|err]; [|discriminate].
  destruct (Strings.SplitN2 "|" out) as [|p0 [|p1 [|p2 ps]]]; try discriminate.
  destruct (Strconv.ParseInt (Strings.TrimSpace p0)) as [epoch|err];
    [|discriminate].
  injection Hres as <- <-. exists epoch. split; [reflexivity|].
  intros Hrange. apply Format_then_Parse; assumption.
Qed.

Lemma commit_date_reads_back_witness :
  exists epoch,
    "2023-11-15T00:13:20+02:00"
    = GoTime.FormatRFC3339 (GoTime.Unix (localOffset eastOracle) epoch) /\
    (-59011459200 <= epoch + localOffset eastOracle < 253402300800 ->
     GoTime.ParseRFC3339 "2023-11-15T00:13:20+02:00"
     = Some (GoTime.Unix (localOffset eastOracle) epoch)).
Proof.
  apply (commit_date_reads_back eastOracle "/tmp/repo-0" emptyWorld
                                "2023-11-15T00:13:20+02:00" "Jane Doe").
  - vm_compute. reflexivity.
  - reflexivity.
  - simpl. lia.
Defined.

(** X8: whether the summary counts an Outcome of [processRecord] as dormant
    is decided by the epoch second of its last commit alone: the Outcome is
    dormant exactly when that instant is before the threshold.  Writing the
    instant as RFC 3339 text and reading it back loses nothing, for a local
    offset of whole minutes and a four-digit year from 100 on. *)
Theorem dormancy_follows_commit_epoch o record quiet w six :
  let r := (processRecord o record quiet w).1 in
  localOffset o mod 60 = 0 -> -86400 < localOffset o < 86400 ->
  LastCommitDate r <> "" ->
  exists epoch,
    LastCommitDate r = GoTime.FormatRFC3339 (GoTime.Unix (localOffset o) epoch) /\
    (-59011459200 <= epoch + localOffset o < 253402300800 ->
     isDormant six r = GoTime.Before (GoTime.Unix (localOffset o) epoch) six).
Proof.
  cbv zeta. intros Hmod Hoff.
  outcome_cases o record quiet w; simpl; intros Hdate;
    try (exfalso; apply Hdate; reflexivity).
  - destruct (checkProviders_Return_fields _ _ _ Hc) as (_ & _ & Hd & _).
    exfalso. apply Hdate. exact Hd.
  - destruct (checkProviders_Continue_fields _ _ _ Hc) as (_ & _ & Hd & _).
    exfalso. apply Hdate. exact Hd.
  - exists epoch. split; [reflexivity|]. intros Hrange.
    unfold isDormant. simpl.
    pose proof (Format_then_Parse _ _ Hmod Hoff Hrange) as Hparse.
    rewrite Hparse, (parsed_date_not_empty _ _ Hparse). reflexivity.
Qed.

Lemma dormancy_follows_commit_epoch_witness :
  exists epoch,
    LastCommitDate (processRecord staleOracle sampleRecord true emptyWorld).1
    = GoTime.FormatRFC3339 (GoTime.Unix (localOffset staleOracle) epoch) /\
    (-59011459200 <= epoch + localOffset staleOracle < 253402300800 ->
     isDormant (GoTime.AddDate sampleNow 0 (-6) 0)
               (processRecord staleOracle sampleRecord true emptyWorld).1
     = GoTime.Before (GoTime.Unix (localOffset staleOracle) epoch)
                     (GoTime.AddDate sampleNow 0 (-6) 0)).
Proof.
  apply (dormancy_follows_commit_epoch staleOracle sampleRecord true emptyWorld
                                       (GoTime.AddDate sampleNow 0 (-6) 0)).
  - reflexivity.
  - simpl. lia.
  - vm_compute. discriminate.
Defined.

(** *** The summary and the analysis *)

Lemma countWhere_app p rs1 rs2 :
  countWhere p (rs1 ++ rs2) = countWhere p rs1 + countWhere p rs2.
Proof. unfold countWhere. rewrite List.filter_app, length_app. lia. Qed.

Lemma countWhere_perm p rs rs' : rs ≡ₚ rs' -> countWhere p rs = countWhere p rs'.
Proof.
  intros H. induction H as [|r rs rs' _ IH|r1 r2 rs|rs1 rs2 rs3 _ IH1 _ IH2].
  - reflexivity.
  - rewrite !countWhere_cons, IH. reflexivity.
  - rewrite !countWhere_cons. lia.
  - congruence.
Qed.

Lemma countWhere_bounds p rs : 0 <= countWhere p rs <= Z.of_nat (length rs).
Proof.
  induction rs as [|r rs IH]; [unfold countWhere; simpl; lia|].
  rewrite countWhere_cons. simpl length. destruct (p r); lia.
Qed.

(** X14: the three counts of the summary do not depend on the order of the
    results, which is the order in which the workers happened to finish. *)
Theorem summary_ignores_order now rs rs' :
  rs ≡ₚ rs' -> summarizeResults now rs = summarizeResults now rs'.
Proof.
  intros H. rewrite !summarizeResults_counts.
  rewrite (countWhere_perm isUnreachable _ _ H),
          (countWhere_perm isNotCompatible _ _ H),
          (countWhere_perm (isDormant (GoTime.AddDate now 0 (-6) 0)) _ _ H).
  reflexivity.
Qed.

Lemma summary_ignores_order_witness :
  summarizeResults sampleNow [overlappingOutcome; zeroResult]
  = summarizeResults sampleNow [zeroResult; overlappingOutcome].
Proof.
  apply (summary_ignores_order sampleNow [overlappingOutcome; zeroResult]
                               [zeroResult; overlappingOutcome]).
  apply perm_swap.
Defined.

(** X15: each count of the summary lies between zero and the number of
    results, and the summary of two collections put together is the sum of
    their summaries. *)
Theorem summary_counts_add_up now rs1 rs2 :
  let '(u1, n1, d1) := summarizeResults now rs1 in
  let '(u2, n2, d2) := summarizeResults now rs2 in
  summarizeResults now (rs1 ++ rs2) = (u1 + u2, n1 + n2, d1 + d2) /\
  0 <= u1 <= Z.of_nat (length rs1) /\
  0 <= n1 <= Z.of_nat (length rs1) /\
  0 <= d1 <= Z.of_nat (length rs1).
Proof.
  rewrite !summarizeResults_counts, !countWhere_app.
  split; [reflexivity|]. repeat split; apply countWhere_bounds.
Qed.

Lemma analysis_fold six rs : forall u d n,
  fold_left (analysisStep six) rs (u, d, n)
  = (u ++ List.filter isUnreachable rs,
     d ++ List.filter (isDormant six) rs,
     n ++ List.filter isNotCompatible rs).
Proof.
  induction rs as [|r rs IH]; intros u d n.
  - simpl. rewrite !app_nil_r. reflexivity.
  - cbn [fold_left List.filter]. 
    assert (Hstep : analysisStep six (u, d, n) r
                    = (u ++ (if isUnreachable r then [r] else []),
                       d ++ (if isDormant six r then [r] else []),
                       n ++ (if isNotCompatible r then [r] else []))).
    { unfold analysisStep, isUnreachable, isNotCompatible, isDormant.
      destruct (mapIndex (Compatibility r) "azurerm") as [s1 h1].
      destruct (mapIndex (Compatibility r) "azapi") as [s2 h2].
      destruct (Strings.Contains (Error r) "failed to clone repo");
        destruct (negb (LastCommitDate r =? "")%string);
        destruct (GoTime.ParseRFC3339 (LastCommitDate r)) as [t|];
        try destruct (GoTime.Before t six);
        destruct ((h1 && negb s1) || (h2 && negb s2));
        simpl; rewrite ?app_nil_r; reflexivity. }
    rewrite Hstep, IH.
    destruct (isUnreachable r), (isDormant six r), (isNotCompatible r);
      rewrite <- ?app_assoc, ?app_nil_r; reflexivity.
Qed.

(** X16: the lists of the [analysis] command are the results that pass the
    tests of the summary, in the order of the report, so their lengths are
    the three counts that [summarizeResults] gives for the same results at
    the same time. *)
Theorem analysis_lists_match_summary now rs :
  let '(unreachable, dormant, notCompatible) := analysisLists now rs in
  unreachable = List.filter isUnreachable rs /\
  dormant = List.filter (isDormant (GoTime.AddDate now 0 (-6) 0)) rs /\
  notCompatible = List.filter isNotCompatible rs /\
  summarizeResults now rs
  = (Z.of_nat (length unreachable), Z.of_nat (length notCompatible),
     Z.of_nat (length dormant)).
Proof.
  unfold analysisLists. rewrite analysis_fold. simpl.
  repeat split. apply summarizeResults_counts.
Qed.

(** *** The pool within the range of its counters *)

(** X26: the Dispatcher within the range of its two int32 counters.  For
    every input list of N work items with N at most 2^31, the range of the
    slot counter, and every worker count from 1 to 2^31 - 1, the range of
    the WaitGroup counter, the run returns a collection of exactly N
    Outcomes, one per work item.  In every schedule of the goroutines no
    state is stuck before [main] leaves the gather loop and none panics;
    every step uses up one of finitely many steps, so every run ends; and
    when [main] has left the gather loop the results have length N, embed
    exactly the input records (as a multiset) and each is what the Item
    Pipeline returned for the record it embeds.  The run under the model's
    scheduler, given the steps the initial state has, is such a run. *)
Theorem dispatcher_one_outcome_per_item o quiet numWorkers records w :
  1 <= numWorkers -> numWorkers < 2 ^ 31 ->
  Z.of_nat (length records) <= 2 ^ 31 ->
  (forall p,
     reachable o quiet numWorkers records w p ->
     p_main p <> MPanic /\
     (p_main p = MDone \/ exists p', step o quiet numWorkers records p p') /\
     (p_main p = MDone ->
      length (p_results p) = length records /\
      List.map Record_ (p_results p) ≡ₚ records /\
      Forall (producedBy o quiet) (p_results p))) /\
  (forall p p',
     step o quiet numWorkers records p p' ->
     (stepsLeft numWorkers records p' < stepsLeft numWorkers records p)%nat) /\
  (let p := runPool o quiet numWorkers records
                    (stepsLeft numWorkers records (initPool records w))
                    (initPool records w) in
   reachable o quiet numWorkers records w p /\ p_main p = MDone).
Proof.
  intros Hworkers Hfew Hfit. split; [|split].
  - intros p Hreach.
    pose proof (reachable_inv o quiet numWorkers records Hfit w p Hfew Hreach)
      as Hinv.
    split; [|split].
    + intros Hpanic. destruct Hinv as [_ _ _ _ _ _ _ _ _ _ Hphase].
      rewrite Hpanic in Hphase. exact Hphase.
    + destruct (p_main p) eqn:Hmain; try (left; reflexivity); right;
        (destruct (pool_progress o quiet numWorkers records p Hinv)
           as (t & p' & Hstep); [congruence|]; exists p', t; exact Hstep).
    + intros Hdone. eapply done_results; eassumption.
  - apply step_decreases.
  - cbv zeta. split.
    + apply runPool_reachable. constructor.
    + apply (runPool_done o quiet numWorkers records Hfit);
        [exact Hfew | exact (initPool_inv o quiet numWorkers records w) | lia].
Qed.

Lemma dispatcher_one_outcome_per_item_witness :
  let p := runPool mixedOracle true 2 sampleRecords 27
                   (initPool sampleRecords emptyWorld) in
  p_main p = MDone /\
  length (p_results p) = 3%nat /\
  List.map Record_ (p_results p) ≡ₚ sampleRecords.
Proof.
  assert (Hworkers : 1 <= 2) by lia.
  assert (Hfew : 2 < 2 ^ 31) by lia.
  assert (Hfit : Z.of_nat (length sampleRecords) <= 2 ^ 31)
    by (vm_compute; discriminate).
  destruct (dispatcher_one_outcome_per_item mixedOracle true 2 sampleRecords
              emptyWorld Hworkers Hfew Hfit) as (Hall & _ & Hreach & Hdone).
  cbv zeta.
  change (stepsLeft 2 sampleRecords (initPool sampleRecords emptyWorld))
    with 27%nat in Hreach, Hdone.
  destruct (Hall _ Hreach) as (_ & _ & Hres).
  destruct (Hres Hdone) as (Hlen & Hperm & _).
  split; [exact Hdone|]. split; [exact Hlen | exact Hperm].
Defined.

(** Without a worker the gather loop ends at once and the slots keep their
    zero values: the bound on the worker count is needed. *)
Example no_worker_no_outcome :
  let p := runPool mixedOracle true 0 sampleRecords 27
                   (initPool sampleRecords emptyWorld) in
  p_main p = MDone /\
  p_results p = [zeroResult; zeroResult; zeroResult] /\
  p_recordChan p = sampleRecords.
Proof. vm_compute. repeat split; reflexivity. Qed.

(** *** Beyond the range of the WaitGroup counter *)

Section ManyWorkers.

Variable o : Oracle.
Variable quiet : bool.
Variable numWorkers : Z.
Variable records : list CSVRecord.
Variable w : World.

Hypothesis many_workers : 2 ^ 31 <= numWorkers.

(** The spawn loop after [k] rounds: [k] workers wait for a record. *)
Lemma workers_spawned k :
  Z.of_nat k < 2 ^ 31 ->
  reachable o quiet numWorkers records w
    (mkPool w (MSpawn (Z.of_nat k)) (replicate k WIdle) CNone (Z.of_nat k)
            [] false [] false (replicate (length records) zeroResult) 0 0).
Proof.
  induction k as [|k IH]; intros Hk; [apply reach_init|].
  eapply reach_step; [apply IH; lia|].
  exists TMain. unfold stepThread, stepMain. simpl p_main. cbv iota beta.
  replace (Z.of_nat k <? numWorkers) with true
    by (symmetry; apply Z.ltb_lt; lia).
  cbv zeta. simpl p_wg. unfold wgAdd. rewrite wrap32_small by lia.
  replace (Z.of_nat k + 1 <? 0) with false by (symmetry; apply Z.ltb_ge; lia).
  rewrite replicate_S_end, Nat2Z.inj_succ. reflexivity.
Qed.

Lemma spawn_loop_panics :
  reachable o quiet numWorkers records w
    (mkPool w MPanic (replicate (Z.to_nat (2 ^ 31 - 1)) WIdle) CNone (- 2 ^ 31)
            [] false [] false (replicate (length records) zeroResult) 0 0).
Proof.
  eapply reach_step; [apply (workers_spawned (Z.to_nat (2 ^ 31 - 1))); lia|].
  exists TMain. unfold stepThread, stepMain. simpl p_main. cbv iota beta.
  rewrite Z2Nat.id by lia.
  replace (2 ^ 31 - 1 <? numWorkers) with true
    by (symmetry; apply Z.ltb_lt; lia).
  reflexivity.
Qed.

End ManyWorkers.

(** X27: with 2^31 workers or more the [process] action does not get past
    its spawn loop.  The 2^31-th [wg.Add(1)] finds the int32 counter of the
    WaitGroup at 2^31 - 1 and panics: there is a run that ends in that panic
    with no record enqueued or processed, every slot of the results at its
    zero value and nothing outside the program touched, and nothing runs
    after it. *)
Theorem waitgroup_counter_overflow o quiet numWorkers records w :
  2 ^ 31 <= numWorkers ->
  exists p,
    reachable o quiet numWorkers records w p /\
    p_main p = MPanic /\
    p_world p = w /\
    p_recordChan p = [] /\
    p_results p = replicate (length records) zeroResult /\
    forall t, stepThread o quiet numWorkers records t p = None.
Proof.
  intros Hmany. eexists. split; [apply spawn_loop_panics; exact Hmany|].
  repeat split; reflexivity.
Qed.

Lemma waitgroup_counter_overflow_witness :
  exists p,
    reachable mixedOracle true (2 ^ 31) sampleRecords emptyWorld p /\
    p_main p = MPanic /\
    p_results p = [zeroResult; zeroResult; zeroResult].
Proof.
  assert (Hmany : 2 ^ 31 <= 2 ^ 31) by lia.
  destruct (waitgroup_counter_overflow mixedOracle true (2 ^ 31) sampleRecords
              emptyWorld Hmany) as (p & Hreach & Hpanic & _ & _ & Hres & _).
  exists p. split; [exact Hreach|]. split; [exact Hpanic | exact Hres].
Defined.

(** *** The pool without workers, and the progress bar *)

Section IdlePool.

Variable o : Oracle.
Variable quiet : bool.
Variable numWorkers : Z.
Variable records : list CSVRecord.
Variable w : World.

Hypothesis no_worker : numWorkers <= 0.

Lemma idlePool_init : idlePool records w (initPool records w).
Proof. unfold idlePool, initPool. simpl. repeat split; reflexivity. Qed.

Lemma idlePool_step p p' :
  idlePool records w p -> step o quiet numWorkers records p p' ->
  idlePool records w p'.
Proof.
  intros (Hw & Hws & Hwg & Hrc & Hres & Hidx & Hbar & Hphase) [t Hstep].
  unfold stepThread in Hstep.
  destruct (p_main p) as [i|pending| | | |] eqn:Hmain; try contradiction;
    destruct t as [|j|]; simpl in Hstep.
  - unfold stepMain in Hstep. rewrite Hmain in Hstep.
    destruct Hphase as (-> & Hq & Hcl & Hrcl).
    replace (0 <? numWorkers) with false in Hstep by (symmetry; apply Z.ltb_ge; lia).
    injection Hstep as <-. unfold idlePool. simpl. rewrite Hq. auto 12.
  - unfold stepWorker in Hstep. rewrite Hws in Hstep. discriminate.
  - unfold stepCloser in Hstep. destruct Hphase as (_ & _ & Hcl & _).
    rewrite Hcl in Hstep. discriminate.
  - unfold stepMain in Hstep. rewrite Hmain in Hstep.
    destruct Hphase as (Hq & Hcl & Hrcl).
    destruct pending as [|r rest].
    + injection Hstep as <-. unfold idlePool. simpl.
      rewrite app_nil_r in Hq. auto 12.
    + destruct (length (p_recordChan p) <? capacity records)%nat; [|discriminate].
      injection Hstep as <-. unfold idlePool. simpl.
      rewrite <- app_assoc. simpl. auto 12.
  - unfold stepWorker in Hstep. rewrite Hws in Hstep. discriminate.
  - unfold stepCloser in Hstep. destruct Hphase as (_ & Hcl & _).
    rewrite Hcl in Hstep. discriminate.
  - unfold stepMain in Hstep. rewrite Hmain in Hstep.
    destruct Hphase as (Hq & Hcl & Hrcl).
    injection Hstep as <-. unfold idlePool. simpl. rewrite Hrcl. auto 12.
  - unfold stepWorker in Hstep. rewrite Hws in Hstep. discriminate.
  - unfold stepCloser in Hstep. destruct Hphase as (_ & Hcl & _).
    rewrite Hcl in Hstep. discriminate.
  - unfold stepMain in Hstep. rewrite Hmain, Hrc in Hstep.
    destruct (p_resultClosed p) eqn:Hrcl; [|discriminate].
    destruct Hphase as (Hq & Hcl).
    injection Hstep as <-. unfold idlePool. simpl. auto 12.
  - unfold stepWorker in Hstep. rewrite Hws in Hstep. discriminate.
  - unfold stepCloser in Hstep. destruct Hphase as (Hq & Hcl).
    destruct (p_closer p) eqn:Hcloser; try discriminate.
    destruct (p_wg p =? 0); [|discriminate].
    injection Hstep as <-. unfold idlePool. simpl. rewrite Hmain. auto 12.
  - unfold stepMain in Hstep. rewrite Hmain in Hstep. discriminate.
  - unfold stepWorker in Hstep. rewrite Hws in Hstep. discriminate.
  - unfold stepCloser in Hstep.
    destruct (p_closer p) eqn:Hcloser; try discriminate.
    destruct (p_wg p =? 0); [|discriminate].
    injection Hstep as <-. unfold idlePool. simpl. rewrite Hmain. auto 12.
Qed.

Lemma idlePool_reachable p :
  reachable o quiet numWorkers records w p -> idlePool records w p.
Proof.
  induction 1 as [|p p' _ IH Hstep]; [apply idlePool_init|].
  eapply idlePool_step; eassumption.
Qed.

Lemma idlePool_progress p :
  idlePool records w p -> p_main p <> MDone ->
  exists t p', stepThread o quiet numWorkers records t p = Some p'.
Proof.
  intros (Hw & Hws & Hwg & Hrc & Hres & Hidx & Hbar & Hphase) Hnot.
  unfold stepThread.
  destruct (p_main p) as [i|[|r rest]| | | |] eqn:Hmain;
    try contradiction; try congruence.
  - exists TMain. unfold stepMain. rewrite Hmain.
    destruct (i <? numWorkers); [cbv zeta; destruct (_ <? 0)|]; eauto.
  - exists TMain. unfold stepMain. rewrite Hmain. eauto.
  - exists TMain. unfold stepMain. rewrite Hmain.
    destruct Hphase as (Hq & _).
    assert (Hroom : (length (p_recordChan p) <? capacity records)%nat = true).
    { apply Nat.ltb_lt. unfold capacity. rewrite <- Hq, length_app. simpl. lia. }
    rewrite Hroom. eauto.
  - exists TMain. unfold stepMain. rewrite Hmain. eauto.
  - destruct Hphase as (Hq & Hcl).
    destruct (p_resultClosed p) eqn:Hrcl.
    + exists TMain. unfold stepMain. rewrite Hmain, Hrc, Hrcl. eauto.
    + exists TCloser. unfold stepCloser. rewrite Hcl, Hwg. simpl. eauto.
Qed.

Lemma idlePool_run fuel : forall p,
  idlePool records w p -> (stepsLeft numWorkers records p <= fuel)%nat ->
  p_main (runPool o quiet numWorkers records fuel p) = MDone.
Proof.
  induction fuel as [|fuel IH]; intros p Hinv Hfuel; simpl.
  - destruct (p_main p) eqn:Hmain; try reflexivity;
      (destruct (idlePool_progress p Hinv) as (t & p' & Hstep); [congruence|];
       assert (Hs : step o quiet numWorkers records p p') by (exists t; assumption);
       apply step_decreases in Hs; lia).
  - destruct (firstStep o quiet numWorkers records (threads p) p) as [p'|] eqn:Hf.
    + pose proof (firstStep_step _ _ _ _ _ _ _ Hf) as Hstep.
      apply IH; [eapply idlePool_step; eassumption|].
      apply step_decreases in Hstep. lia.
    + destruct (p_main p) eqn:Hmain; try reflexivity;
        (destruct (idlePool_progress p Hinv) as (t & p' & Hstep); [congruence|];
         rewrite (threads_complete _ _ _ _ p t Hf) in Hstep; discriminate).
Qed.

End IdlePool.

(** X17: with a worker count of zero or less the [process] action still
    runs to its end, in every schedule: no state is stuck or panics and
    every step uses up one of finitely many, no record is processed and
    nothing outside the program is touched, every slot of the results keeps
    its zero value, the progress bar stays at zero, and the records are left
    in the channel. *)
Theorem no_worker_run o quiet numWorkers records w :
  numWorkers <= 0 ->
  (forall p,
     reachable o quiet numWorkers records w p ->
     p_world p = w /\
     p_results p = replicate (length records) zeroResult /\
     p_bar p = 0 /\
     p_main p <> MPanic /\
     (p_main p = MDone \/ exists p', step o quiet numWorkers records p p') /\
     (p_main p = MDone -> p_recordChan p = records)) /\
  (forall p p',
     step o quiet numWorkers records p p' ->
     (stepsLeft numWorkers records p' < stepsLeft numWorkers records p)%nat) /\
  (let p := runPool o quiet numWorkers records
                    (stepsLeft numWorkers records (initPool records w))
                    (initPool records w) in
   reachable o quiet numWorkers records w p /\ p_main p = MDone).
Proof.
  intros Hnone. split.
  - intros p Hreach.
    pose proof (idlePool_reachable o quiet numWorkers records w Hnone p Hreach)
      as Hidle.
    pose proof (idlePool_progress o quiet numWorkers records w p Hidle) as Hprog.
    destruct Hidle as (Hw & Hws & Hwg & Hrc & Hres & Hidx & Hbar & Hphase).
    split; [exact Hw|]. split; [exact Hres|]. split; [exact Hbar|].
    split; [intros Hp; rewrite Hp in Hphase; exact Hphase|].
    split.
    + destruct (p_main p) eqn:Hmain; try (left; reflexivity); right;
        (destruct Hprog as (t & p' & Hstep); [discriminate|];
         exists p', t; exact Hstep).
    + intros Hdone. rewrite Hdone in Hphase. exact Hphase.
  - split; [apply step_decreases|]. cbv zeta. split.
    + apply runPool_reachable. constructor.
    + apply (idlePool_run o quiet numWorkers records w Hnone);
        [apply idlePool_init | lia].
Qed.

Lemma no_worker_run_witness :
  let p := runPool mixedOracle false 0 sampleRecords 23
                   (initPool sampleRecords emptyWorld) in
  p_main p = MDone /\
  p_world p = emptyWorld /\
  p_results p = [zeroResult; zeroResult; zeroResult].
Proof.
  assert (Hnone : 0 <= 0) by lia.
  destruct (no_worker_run mixedOracle false 0 sampleRecords emptyWorld Hnone)
    as (Hall & _ & Hreach & Hdone).
  change (stepsLeft 0 sampleRecords (initPool sampleRecords emptyWorld))
    with 23%nat in Hreach, Hdone.
  cbv zeta. destruct (Hall _ Hreach) as (Hw & Hres & _).
  split; [exact Hdone|]. split; [exact Hw | exact Hres].
Defined.

Section ProgressBar.

Variable o : Oracle.
Variable quiet : bool.
Variable numWorkers : Z.
Variable records : list CSVRecord.
Variable w : World.

Hypothesis records_fit_int32 : Z.of_nat (length records) <= 2 ^ 31.

Notation "'Bar' p" :=
  (p_bar p + Z.of_nat (list_sum (List.map ticking (p_workers p))) = outcomesSent p)
  (at level 10, p at level 9, only parsing).

Lemma slotsFilled_next index :
  index mod 2 ^ 32 < 2 ^ 31 ->
  wrap32 (index + 1) mod 2 ^ 32 = index mod 2 ^ 32 + 1.
Proof.
  intros H. rewrite wrap32_mod.
  change (2 ^ 32) with 4294967296 in *. change (2 ^ 31) with 2147483648 in *.
  Z.div_mod_to_equations. lia.
Qed.

Ltac bar_closer Hstep Hbar :=
  unfold stepCloser in Hstep;
  destruct (p_closer _); try discriminate;
  destruct (p_wg _ =? 0); [|discriminate];
  injection Hstep as <-; simpl; exact Hbar.

Ltac bar_worker Hstep Hbar :=
  unfold stepWorker in Hstep;
  match type of Hstep with
  | context [p_workers ?p !! ?j] =>
      let Hj := fresh "Hj" in
      let Hsum := fresh "Hsum" in
      destruct (p_workers p !! j) as [[|record|r| |]|] eqn:Hj; try discriminate;
      [ destruct (p_recordChan p) as [|record rest];
        [destruct (p_recordClosed p); [|discriminate]; cbv zeta in Hstep|];
        injection Hstep as <-; simpl; unfold setWorker;
        match goal with |- context [<[j := ?wk']> _] =>
          pose proof (list_sum_insert ticking _ _ _ wk' Hj) as Hsum
        end; simpl in Hsum; lia
      | destruct (processRecord _ record _ (p_world p)) as [r w'];
        injection Hstep as <-; simpl; unfold setWorker;
        pose proof (list_sum_insert ticking _ _ _ (WSend r) Hj) as Hsum;
        simpl in Hsum; lia
      | destruct (length (p_resultChan p) <? capacity _)%nat;
        [|discriminate];
        injection Hstep as <-; simpl; unfold setWorker;
        pose proof (list_sum_insert ticking _ _ _ WTick Hj) as Hsum;
        simpl in Hsum; rewrite length_app; simpl; lia
      | injection Hstep as <-; simpl; unfold setWorker;
        pose proof (list_sum_insert ticking _ _ _ WIdle Hj) as Hsum;
        simpl in Hsum; lia ]
  end.

Lemma bar_step p p' :
  poolInv o quiet numWorkers records p ->
  Bar p -> step o quiet numWorkers records p p' -> Bar p'.
Proof.
  intros Hinv Hbar [t Hstep]. unfold outcomesSent, slotsFilled in *.
  unfold stepThread in Hstep.
  destruct (p_main p) as [i|pending| | | |] eqn:Hmain; try discriminate;
    destruct t as [|j|]; simpl in Hstep;
    [ | bar_worker Hstep Hbar | bar_closer Hstep Hbar
      | | bar_worker Hstep Hbar | bar_closer Hstep Hbar
      | | bar_worker Hstep Hbar | bar_closer Hstep Hbar
      | | bar_worker Hstep Hbar | bar_closer Hstep Hbar
      | | bar_worker Hstep Hbar | bar_closer Hstep Hbar ].
  - unfold stepMain in Hstep. rewrite Hmain in Hstep.
    destruct (i <? numWorkers);
      [cbv zeta in Hstep; destruct (wgAdd (p_wg p) 1 <? 0)|];
      injection Hstep as <-; simpl; try exact Hbar.
    rewrite List.map_app, list_sum_app. simpl. lia.
  - unfold stepMain in Hstep. rewrite Hmain in Hstep.
    destruct pending as [|r rest].
    + injection Hstep as <-. simpl. exact Hbar.
    + destruct (length (p_recordChan p) <? capacity records)%nat; [|discriminate].
      injection Hstep as <-. simpl. exact Hbar.
  - unfold stepMain in Hstep. rewrite Hmain in Hstep.
    injection Hstep as <-. simpl. exact Hbar.
  - unfold stepMain in Hstep. rewrite Hmain in Hstep.
    destruct (p_resultChan p) as [|r rest] eqn:Hrc.
    + destruct (p_resultClosed p); [|discriminate].
      injection Hstep as <-. simpl. exact Hbar.
    + pose proof (index_below_length _ _ _ _ p r rest Hinv Hrc) as Hbelow.
      destruct (gather_in_range _ _ _ _ records_fit_int32 p r rest Hinv Hrc)
        as (Hw2 & _ & Hin).
      unfold slotsFilled in Hbelow, Hw2, Hin.
      cbv zeta in Hstep. rewrite Hw2, Hin in Hstep. injection Hstep as <-.
      simpl. rewrite slotsFilled_next by lia. simpl in Hbar. lia.
  - unfold stepMain in Hstep. rewrite Hmain in Hstep. discriminate.
Qed.

Lemma bar_reachable p :
  reachable o quiet numWorkers records w p -> Bar p.
Proof.
  induction 1 as [|p p' Hreach IH Hstep].
  - unfold outcomesSent, slotsFilled. reflexivity.
  - apply (bar_step p p'); [|exact IH|exact Hstep].
    eapply stepping_inv; eassumption.
Qed.

Lemma ticking_done ws :
  Forall (fun wk => wk = WDone) ws -> list_sum (List.map ticking ws) = 0%nat.
Proof. induction 1 as [|wk ws -> _ IH]; simpl; [reflexivity | exact IH]. Qed.

End ProgressBar.

(** X18: the progress bar counts the outcomes the workers have sent, less
    those of workers that are between the send and [bar.Add(1)]; it never
    shows more than the number of records, and with at least one worker it
    shows exactly that number when [main] leaves the gather loop.  The
    records are at most 2^31, as the slot counter needs. *)
Theorem progress_bar_follows_outcomes o quiet numWorkers records w p :
  Z.of_nat (length records) <= 2 ^ 31 ->
  reachable o quiet numWorkers records w p ->
  p_bar p + Z.of_nat (list_sum (List.map ticking (p_workers p))) = outcomesSent p /\
  0 <= p_bar p <= Z.of_nat (length records) /\
  (1 <= numWorkers -> p_main p = MDone -> p_bar p = Z.of_nat (length records)).
Proof.
  intros Hfit Hreach.
  pose proof (bar_reachable o quiet numWorkers records w Hfit p Hreach) as Hbar.
  split; [exact Hbar|].
  assert (Hsent : outcomesSent p <= Z.of_nat (length records)).
  { assert (Hrunning : forall q, poolInv o quiet numWorkers records q ->
                                 outcomesSent q <= Z.of_nat (length records)).
    { intros q Hinv. pose proof (gathered_length _ _ _ _ q Hinv) as Hglen.
      destruct Hinv as [Hcons _ _ _ _ Hidx _ _ _ _ _].
      apply Permutation_length in Hcons.
      rewrite !length_app, !length_map, Hglen in Hcons.
      unfold outcomesSent. pose proof (slotsFilled_bounds q). lia. }
    destruct (reachable_cases o quiet numWorkers records Hfit w p Hreach)
      as [Hinv|(_ & q & Hinv & ->)].
    - apply Hrunning. exact Hinv.
    - exact (Hrunning q Hinv). }
  split.
  - (* the bar starts at zero and only goes up *)
    assert (Hnonneg : 0 <= p_bar p).
    { clear Hbar Hsent.
      induction Hreach as [|p p' _ IH [t Hstep]]; [simpl; lia|].
      unfold stepThread in Hstep.
      destruct (p_main p); try discriminate; destruct t as [|j|]; simpl in Hstep;
        first
          [ unfold stepMain in Hstep;
            repeat match type of Hstep with
                   | context [match ?x with _ => _ end] => destruct x
                   end;
            try discriminate; injection Hstep as <-; simpl; lia
          | unfold stepWorker in Hstep;
            repeat match type of Hstep with
                   | context [match ?x with _ => _ end] => destruct x
                   end;
            try discriminate; injection Hstep as <-; simpl; lia
          | unfold stepCloser in Hstep;
            repeat match type of Hstep with
                   | context [match ?x with _ => _ end] => destruct x
                   end;
            try discriminate; injection Hstep as <-; simpl; lia ]. }
    lia.
  - intros Hworkers Hdone.
    pose proof (done_inv o quiet numWorkers records Hfit w p Hreach Hdone)
      as Hinv.
    pose proof (gathered_length _ _ _ _ p Hinv) as Hglen.
    destruct (done_results o quiet numWorkers records p Hworkers Hinv Hdone)
      as (Hlen & Hperm & _).
    destruct Hinv as [Hcons Hsend Hchan Hgath Hlen' Hidx Hwg Hwgr Hexit Hclosed Hphase].
    rewrite Hdone in Hphase, Hcons. simpl in Hcons.
    destruct Hphase as (Hlw & Hrc & Hcl & Hres & Hrch).
    specialize (Hclosed Hres). rewrite Hclosed in Hwg.
    destruct (activeWorkers_zero (p_workers p)) as (Hheld & Hsending & Hall); [lia|].
    assert (Hq : p_recordChan p = []).
    { destruct Hexit as [[Hq _]|Hnd]; [assumption|].
      destruct (p_workers p) as [|wk ws]; [simpl in Hlw; lia|].
      inversion Hall; inversion Hnd; subst. congruence. }
    rewrite Hq, Hheld, Hsending, Hrch in Hcons. simpl in Hcons.
    apply Permutation_length in Hcons. rewrite length_map, Hglen in Hcons.
    rewrite (ticking_done _ Hall) in Hbar. unfold outcomesSent in *.
    rewrite Hrch in *. simpl in *. pose proof (slotsFilled_bounds p). lia.
Qed.

Lemma progress_bar_follows_outcomes_witness :
  p_bar (runPool mixedOracle true 2 sampleRecords 27
                 (initPool sampleRecords emptyWorld))
  = 3.
Proof.
  assert (Hfit : Z.of_nat (length sampleRecords) <= 2 ^ 31)
    by (vm_compute; discriminate).
  assert (Hreach : reachable mixedOracle true 2 sampleRecords emptyWorld
                     (runPool mixedOracle true 2 sampleRecords 27
                              (initPool sampleRecords emptyWorld)))
    by (apply runPool_reachable; constructor).
  destruct (progress_bar_follows_outcomes mixedOracle true 2 sampleRecords
              emptyWorld _ Hfit Hreach) as (_ & _ & Hdone).
  apply Hdone; [lia | vm_compute; reflexivity].
Defined.

(** *** Downloading the module index *)

Lemma newEffects_app d fs' evs :
  newEffects d (mkDisk fs' (effects d ++ evs)) = evs.
Proof. unfold newEffects. simpl. apply drop_app_length. Qed.

(** X19: when [downloadCSV] returns no error, the server answered with
    status 200 and the file holds exactly the body it sent, whatever the
    file held before; no other file has changed and one request was
    made. *)
Theorem download_stores_body h url filename d :
  (downloadCSV h url filename d).1 = None ->
  exists body,
    httpGet h url = Ok (mkResponse 200 body) /\
    files (downloadCSV h url filename d).2 = <[filename := body]> (files d) /\
    newEffects d (downloadCSV h url filename d).2 = [EGet url; ECreate filename].
Proof.
  unfold downloadCSV.
  destruct (httpGet h url) as [[status body]|err]; [|discriminate]. simpl.
  destruct (Z.eqb_spec status 200) as [->|Hne]; [|discriminate]. simpl.
  destruct (createError h filename) as [err|]; [discriminate|].
  destruct (copyError h body) as [[n err]|]; [discriminate|].
  intros _. exists body. split; [reflexivity|]. simpl. split.
  - apply insert_insert_eq.
  - unfold note. simpl. rewrite <- app_assoc. apply newEffects_app.
Qed.

Lemma download_stores_body_witness :
  exists body,
    httpGet sampleHost "https://example.invalid/index.csv"
    = Ok (mkResponse 200 body) /\
    files (downloadCSV sampleHost "https://example.invalid/index.csv"
                       "modules.csv" sampleDisk).2
    = <["modules.csv" := body]> (files sampleDisk) /\
    newEffects sampleDisk
      (downloadCSV sampleHost "https://example.invalid/index.csv"
                   "modules.csv" sampleDisk).2
    = [EGet "https://example.invalid/index.csv"; ECreate "modules.csv"].
Proof.
  apply (download_stores_body sampleHost "https://example.invalid/index.csv"
                              "modules.csv" sampleDisk).
  reflexivity.
Defined.

(** X20: when [downloadCSV] returns an error, the files are untouched if
    the request failed, the status was not 200 or the file could not be
    created; if the copy failed, the file was truncated first and holds
    only the bytes that got through, so what it held before is lost. *)
Theorem download_failure_effect h url filename d e :
  (downloadCSV h url filename d).1 = Some e ->
  (files (downloadCSV h url filename d).2 = files d /\
   (Strings.HasPrefix e "failed to download CSV: " = true \/
    Strings.HasPrefix e "failed to create file: " = true)) \/
  (exists body n err,
     httpGet h url = Ok (mkResponse 200 body) /\
     copyError h body = Some (n, err) /\
     e = "failed to save CSV: " +:+ err /\
     files (downloadCSV h url filename d).2
     = <[filename := String.substring 0 n body]> (files d)).
Proof.
  unfold downloadCSV.
  destruct (httpGet h url) as [[status body]|err]; simpl.
  2:{ intros H. injection H as <-. left. split; [reflexivity|]. left. reflexivity. }
  destruct (Z.eqb_spec status 200) as [->|Hne]; simpl.
  2:{ intros H. injection H as <-. left. split; [reflexivity|]. left. reflexivity. }
  destruct (createError h filename) as [err|].
  { intros H. injection H as <-. left. split; [reflexivity|]. right. reflexivity. }
  destruct (copyError h body) as [[n err]|] eqn:Hcopy; [|discriminate].
  intros H. injection H as <-. right. exists body, n, err.
  split; [reflexivity|]. split; [exact Hcopy|]. split; [reflexivity|].
  simpl. apply insert_insert_eq.
Qed.

Lemma download_failure_effect_witness :
  (files (downloadCSV brokenHost "https://example.invalid/index.csv"
                      "modules.csv" sampleDisk).2 = files sampleDisk /\
   (Strings.HasPrefix "failed to save CSV: unexpected EOF"
                      "failed to download CSV: " = true \/
    Strings.HasPrefix "failed to save CSV: unexpected EOF"
                      "failed to create file: " = true)) \/
  (exists body n err,
     httpGet brokenHost "https://example.invalid/index.csv"
     = Ok (mkResponse 200 body) /\
     copyError brokenHost body = Some (n, err) /\
     "failed to save CSV: unexpected EOF" = "failed to save CSV: " +:+ err /\
     files (downloadCSV brokenHost "https://example.invalid/index.csv"
                        "modules.csv" sampleDisk).2
     = <["modules.csv" := String.substring 0 n body]> (files sampleDisk)).
Proof.
  apply (download_failure_effect brokenHost "https://example.invalid/index.csv"
                                 "modules.csv" sampleDisk
                                 "failed to save CSV: unexpected EOF").
  reflexivity.
Defined.

(** X21: [downloadCSVIfNeeded] makes a request exactly when the file does
    not exist or [force] is set, in which case an error of [os.Stat] is not
    looked at; a file that exists is left as it is without [force], and the
    call returns no error unless [os.Stat] failed. *)
Theorem download_only_if_needed h url filename force d :
  let r := downloadCSVIfNeeded h url filename force d in
  (existsb isGet (newEffects d r.2)
   = IsNotExist (Stat h filename d) || force) /\
  (force = false -> IsNotExist (Stat h filename d) = false ->
   files r.2 = files d /\
   r.1 = match Stat h filename d with
         | StatFailed err => Some ("error checking file: " +:+ err)
         | _ => None
         end).
Proof.
  cbv zeta. unfold downloadCSVIfNeeded.
  destruct (IsNotExist (Stat h filename d) || force) eqn:Hneed.
  - split.
    + assert (Hget : exists evs,
                 effects (downloadCSV h url filename d).2
                 = effects d ++ EGet url :: evs).
      { unfold downloadCSV.
        destruct (httpGet h url) as [[status body]|err]; simpl;
          [|exists []; reflexivity].
        destruct (status =? 200); simpl; [|exists []; reflexivity].
        destruct (createError h filename) as [err|]; simpl;
          [eexists; rewrite <- app_assoc; reflexivity|].
        destruct (copyError h body) as [[n err]|]; simpl;
          eexists; rewrite <- app_assoc; reflexivity. }
      destruct Hget as [evs Hget].
      destruct (downloadCSV h url filename d) as [[err|] d']; simpl in *.
      * unfold newEffects. rewrite Hget, drop_app_length. reflexivity.
      * unfold newEffects. simpl. rewrite Hget, <- app_assoc, drop_app_length.
        reflexivity.
    + intros -> Hnot. rewrite Hnot in Hneed. discriminate.
  - split.
    + destruct (Stat h filename d); simpl; unfold newEffects; simpl;
        rewrite ?drop_app_length, ?drop_all; reflexivity.
    + intros _ _. destruct (Stat h filename d); split; reflexivity.
Qed.

Lemma download_only_if_needed_witness :
  files (downloadCSVIfNeeded sampleHost "https://example.invalid/index.csv"
                             "modules.csv" false sampleDisk).2
  = files sampleDisk /\
  (downloadCSVIfNeeded sampleHost "https://example.invalid/index.csv"
                       "modules.csv" false sampleDisk).1
  = match Stat sampleHost "modules.csv" sampleDisk with
    | StatFailed err => Some ("error checking file: " +:+ err)
    | _ => None
    end.
Proof.
  apply (proj2 (download_only_if_needed sampleHost
                  "https://example.invalid/index.csv" "modules.csv" false
                  sampleDisk)); reflexivity.
Defined.

(** *** Providers required without a version *)

Lemma parseTerraformModule_pairs o modulePath w providers pv :
  (parseTerraformModule o modulePath w).1 = Ok providers ->
  pv ∈ providers ->
  exists req,
    (ProviderName pv, req)
      ∈ RequiredProviders (loadModuleRun o (tick w) modulePath).1 /\
    Version pv ∈ VersionConstraints req.
Proof.
  unfold parseTerraformModule, LoadModule, bind, nextTick, emit, ret. simpl.
  destruct (loadModuleRun o (tick w) modulePath) as [module diags]. simpl.
  destruct (HasErrors diags); [discriminate|]. simpl.
  intros H Hin. injection H as <-.
  apply list_elem_of_In, in_flat_map in Hin.
  destruct Hin as ([name req] & Hreq & Hpv).
  apply in_map_iff in Hpv. destruct Hpv as (c & <- & Hc). simpl.
  exists req. split; apply list_elem_of_In; assumption.
Qed.

Lemma processRecord_providers o record quiet w :
  let r := (processRecord o record quiet w).1 in
  Providers r = []
  \/ exists modulePath w1,
       (parseTerraformModule o modulePath w1).1 = Ok (Providers r).
Proof.
  cbv zeta. unfold processRecord. rewrite bind_eq.
  destruct (cloneLoop o 3 1 record quiet "" None w) as [[repoPath [e|]] w1].
  { left. reflexivity. }
  cbn [fst snd]. rewrite !bind_eq. cbn [fst ret].
  unfold processCloned. rewrite bind_eq.
  destruct (parseTerraformModule o repoPath w1) as [[providers|err] w2] eqn:Hparse.
  2:{ left. reflexivity. }
  right. exists repoPath, w1. rewrite Hparse. cbn [fst snd]. f_equal.
  change (setCompatibility _ ∅) with (mkResult record providers ∅ "" "" "").
  destruct (checkProviders providers (mkResult record providers ∅ "" "" ""))
    as [res2|res2] eqn:Hcheck.
  - destruct (checkProviders_Continue_fields _ _ _ Hcheck) as (_ & Hp & _).
    rewrite bind_eq.
    destruct (getLastCommitInfo o repoPath w2) as [[[lastDate author]|commitErr] w3];
      cbn [fst snd]; [|rewrite bind_eq]; symmetry; exact Hp.
  - destruct (checkProviders_Return_fields _ _ _ Hcheck) as (_ & Hp & _).
    symmetry. exact Hp.
Qed.

(** X22: a provider that the module requires without any version
    constraint is not listed in the Outcome and gets no entry in the
    compliance map, so the module is never counted as not compatible on its
    account. *)
Theorem unconstrained_provider_is_not_judged o record quiet w k :
  (forall t modulePath req,
     (k, req) ∈ RequiredProviders (loadModuleRun o t modulePath).1 ->
     VersionConstraints req = []) ->
  let r := (processRecord o record quiet w).1 in
  (forall pv, pv ∈ Providers r -> ProviderName pv <> k) /\
  Compatibility r !! k = None.
Proof.
  intros Hnone. cbv zeta.
  assert (Hlisted : forall pv,
             pv ∈ Providers (processRecord o record quiet w).1 ->
             ProviderName pv <> k).
  { intros pv Hin Hname.
    destruct (processRecord_providers o record quiet w)
      as [Hnil | (modulePath & w1 & Hparse)].
    - rewrite Hnil in Hin. apply elem_of_nil in Hin. exact Hin.
    - destruct (parseTerraformModule_pairs _ _ _ _ _ Hparse Hin) as (req & Hreq & Hc).
      rewrite Hname in Hreq. rewrite (Hnone _ _ _ Hreq) in Hc.
      apply elem_of_nil in Hc. exact Hc. }
  split; [exact Hlisted|].
  destruct (Compatibility (processRecord o record quiet w).1 !! k) as [v|] eqn:Hk;
    [|reflexivity].
  destruct (compliance_keys_declared o record quiet w k) as (_ & pv & Hin & Hname);
    [rewrite Hk; eexists; reflexivity|].
  exfalso. exact (Hlisted pv Hin Hname).
Qed.

Lemma unconstrained_provider_is_not_judged_witness :
  (forall pv,
     pv ∈ Providers (processRecord unpinnedOracle sampleRecord true emptyWorld).1 ->
     ProviderName pv <> "azurerm") /\
  Compatibility (processRecord unpinnedOracle sampleRecord true emptyWorld).1
    !! "azurerm" = None.
Proof.
  apply (unconstrained_provider_is_not_judged unpinnedOracle sampleRecord true
                                              emptyWorld "azurerm").
  intros t modulePath req Hin. simpl in Hin.
  apply elem_of_cons in Hin. destruct Hin as [Hin|Hin].
  - injection Hin as ->. reflexivity.
  - apply elem_of_cons in Hin. destruct Hin as [Hin|Hin]; [discriminate|].
    apply elem_of_nil in Hin. contradiction.
Defined.

(** *** What is removed *)

Lemma removedDirs_app evs1 evs2 :
  removedDirs (evs1 ++ evs2) = removedDirs evs1 ++ removedDirs evs2.
Proof.
  induction evs1 as [|e evs1 IH]; simpl; [reflexivity|].
  destruct e; simpl; rewrite ?IH; reflexivity.
Qed.

Section Removals.

Variable o : Oracle.
Variable record : CSVRecord.
Variable quiet : bool.

(** One attempt creates nothing that it does not remove, except the
    directory it hands back. *)
Lemma cloneRepo_dirs url w :
  exists evs,
    trace (cloneRepo o url w).2 = trace w ++ evs /\
    match (cloneRepo o url w).1 with
    | Err _ => createdDirs evs = removedDirs evs
    | Ok d => createdDirs evs = [d] /\ removedDirs evs = []
    end.
Proof.
  unfold cloneRepo, MkdirTemp, runGitClone, RemoveAll, bind, nextTick, emit, ret.
  simpl.
  destruct (mkdirTempName o (tick w)) as [name|e]; simpl.
  - destruct (decide (name ∈ fs w)); simpl.
    + eexists. split; reflexivity.
    + destruct (gitCloneRun o (S (tick w)) url name) as [output [e|]]; simpl;
        eexists; rewrite <- !app_assoc; split; try split; reflexivity.
  - eexists. split; reflexivity.
Qed.

(** The retry loop once an attempt has failed: it ends with an error and
    everything removed, or with the directory of the attempt that went
    through. *)
Lemma cloneLoop_dirs fuel : forall attempt repoPath e0 w,
  exists evs,
    let r := cloneLoop o fuel attempt record quiet repoPath (Some e0) w in
    trace r.2 = trace w ++ evs /\
    ((exists p e, r.1 = (p, Some e) /\ createdDirs evs = removedDirs evs)
     \/ (exists d, r.1 = (d, None) /\ createdDirs evs = removedDirs evs ++ [d])).
Proof.
  induction fuel as [|fuel IH]; intros attempt repoPath e0 w; simpl.
  - exists []. rewrite app_nil_r. split; [reflexivity|]. left. eauto.
  - destruct (attempt <=? 3).
    2:{ exists []. rewrite app_nil_r. split; [reflexivity|]. left. eauto. }
    rewrite bind_eq.
    destruct (cloneRepo_dirs (RepoURL record) w) as (evs0 & Htr0 & Hdirs0).
    destruct (cloneRepo o (RepoURL record) w) as [[d|e] w1]; simpl in Htr0, Hdirs0;
      cbn [fst snd].
    + exists evs0. split; [exact Htr0|]. right. exists d.
      destruct Hdirs0 as [-> ->]. split; reflexivity.
    + rewrite !bind_eq.
      set (w2 := (Sleep (2 * Second)
                    ((if negb quiet
                      then logPrintf ("[WARN] Attempt " +:+ Strings.itoa attempt
                                      +:+ ": Failed to clone repo '"
                                      +:+ RepoURL record +:+ "': " +:+ e)
                      else ret tt) w1).2).2).
      assert (Hw2 : exists evs1,
                 trace w2 = trace w1 ++ evs1 /\
                 createdDirs evs1 = [] /\ removedDirs evs1 = []).
      { subst w2. unfold Sleep, logPrintf, emit, ret.
        destruct quiet; simpl; eexists; rewrite <- ?app_assoc;
          (split; [reflexivity|]); split; reflexivity. }
      destruct Hw2 as (evs1 & Htr1 & Hc1 & Hr1).
      destruct (IH (attempt + 1) "" e w2) as (evs2 & Htr2 & Hcase).
      exists (evs0 ++ evs1 ++ evs2). cbv zeta in *. split.
      * rewrite Htr2, Htr1, Htr0, <- !app_assoc. reflexivity.
      * rewrite !createdDirs_app, !removedDirs_app, Hc1, Hr1, Hdirs0. simpl.
        destruct Hcase as [(p & e' & Hres & Hd) | (d & Hres & Hd)].
        -- left. exists p, e'. split; [exact Hres|]. rewrite Hd. reflexivity.
        -- right. exists d. split; [exact Hres|]. rewrite Hd, app_assoc.
           reflexivity.
Qed.

Lemma processCloned_dirs res repoPath w :
  exists evs,
    trace (processCloned o record quiet res repoPath w).2 = trace w ++ evs /\
    createdDirs evs = [] /\ removedDirs evs = [].
Proof.
  unfold processCloned. rewrite bind_eq, parseTerraformModule_world.
  destruct (parseTerraformModule o repoPath w).1 as [providers|err].
  2:{ eexists. simpl. repeat split; reflexivity. }
  destruct (checkProviders providers _) as [res'|res'].
  2:{ eexists. simpl. repeat split; reflexivity. }
  rewrite bind_eq.
  match goal with |- context [getLastCommitInfo o repoPath ?w1] =>
    destruct (getLastCommitInfo_world o repoPath w1) as [gerr Hw];
    rewrite Hw; destruct (getLastCommitInfo o repoPath w1).1 as [[lastDate author]|commitErr]
  end.
  - eexists. simpl. rewrite <- app_assoc. repeat split; reflexivity.
  - rewrite bind_eq. unfold logPrintf, emit, ret.
    destruct quiet; simpl; eexists; rewrite <- !app_assoc; repeat split; reflexivity.
Qed.

Lemma after_failed_attempt (attempt : Z) (e : string) w1 :
  exists evs1,
    trace (Sleep (2 * Second)
             ((if negb quiet
               then logPrintf ("[WARN] Attempt " +:+ Strings.itoa attempt
                               +:+ ": Failed to clone repo '"
                               +:+ RepoURL record +:+ "': " +:+ e)
               else ret tt) w1).2).2
    = trace w1 ++ evs1 /\
    createdDirs evs1 = [] /\ removedDirs evs1 = [].
Proof.
  unfold Sleep, logPrintf, emit, ret.
  destruct quiet; simpl; eexists; rewrite <- ?app_assoc;
    (split; [reflexivity|]); split; reflexivity.
Qed.

Lemma processRecord_dirs w :
  exists evs,
    trace (processRecord o record quiet w).2 = trace w ++ evs /\
    removedDirs evs = createdDirs evs.
Proof.
  unfold processRecord. rewrite bind_eq.
  change (cloneLoop o 3 1 record quiet "" None w)
    with (bind (cloneRepo o (RepoURL record))
               (fun r => match r with
                         | Ok path => ret (path, None)
                         | Err e =>
                             bind (if negb quiet
                                   then logPrintf ("[WARN] Attempt " +:+ Strings.itoa 1
                                                   +:+ ": Failed to clone repo '"
                                                   +:+ RepoURL record +:+ "': " +:+ e)
                                   else ret tt)
                                  (fun _ => bind (Sleep (2 * Second))
                                    (fun _ => cloneLoop o 2 (1 + 1) record quiet ""
                                                        (Some e)))
                         end) w).
  rewrite bind_eq.
  destruct (cloneRepo_dirs (RepoURL record) w) as (evs0 & Htr0 & Hdirs0).
  destruct (cloneRepo o (RepoURL record) w) as [[d|e] w1]; simpl in Htr0, Hdirs0;
    cbn [fst snd].
  - unfold ret at 1. cbn [fst snd]. rewrite !bind_eq. unfold ret. cbn [fst snd].
    destruct (processCloned_dirs (mkResult record [] ∅ "" "" "") d w1)
      as (evs2 & Htr2 & Hc2 & Hr2).
    unfold RemoveAll. cbn [fst snd trace].
    exists (evs0 ++ evs2 ++ [ERemoveAll d]). split.
    + rewrite Htr2, Htr0, <- !app_assoc. reflexivity.
    + destruct Hdirs0 as [Hc0 Hr0].
      rewrite !createdDirs_app, !removedDirs_app, Hc0, Hr0, Hc2, Hr2. reflexivity.
  - rewrite !bind_eq.
    destruct (after_failed_attempt 1 e w1) as (evs1 & Htr1 & Hc1 & Hr1).
    match goal with |- context [cloneLoop o 2 (1 + 1) record quiet "" (Some e) ?w2] =>
      destruct (cloneLoop_dirs 2 (1 + 1) "" e w2) as (evs2 & Htr2 & Hcase);
      cbv zeta in Htr2, Hcase;
      destruct (cloneLoop o 2 (1 + 1) record quiet "" (Some e) w2) as [[p err] w3]
    end.
    cbn [fst snd] in *.
    destruct Hcase as [(p' & e' & Hres & Hd) | (d & Hres & Hd)];
      injection Hres as -> ->.
    + unfold ret. cbn [fst snd]. exists (evs0 ++ evs1 ++ evs2). split.
      * rewrite Htr2, Htr1, Htr0, <- !app_assoc. reflexivity.
      * rewrite !createdDirs_app, !removedDirs_app, Hc1, Hr1, Hdirs0, Hd.
        reflexivity.
    + rewrite !bind_eq. unfold ret. cbn [fst snd].
      destruct (processCloned_dirs (mkResult record [] ∅ "" "" "") d w3)
        as (evs3 & Htr3 & Hc3 & Hr3).
      unfold RemoveAll. cbn [fst snd trace].
      exists (evs0 ++ evs1 ++ evs2 ++ evs3 ++ [ERemoveAll d]). split.
      * rewrite Htr3, Htr2, Htr1, Htr0, <- !app_assoc. reflexivity.
      * rewrite !createdDirs_app, !removedDirs_app, Hc1, Hr1, Hc3, Hr3, Hdirs0, Hd.
        simpl. rewrite app_nil_r. reflexivity.
Qed.

End Removals.

(** X23: [processRecord] removes exactly the scratch directories it
    created, each once and in the order it created them; it never removes
    any other path. *)
Theorem only_own_directories_are_removed o record quiet w :
  let evs := newEvents w (processRecord o record quiet w).2 in
  removedDirs evs = createdDirs evs.
Proof.
  cbv zeta. destruct (processRecord_dirs o record quiet w) as (evs & Htr & Hdirs).
  rewrite (newEvents_of _ _ _ Htr). exact Hdirs.
Qed.

(** *** A download that broke, and the next call *)

(** X24: a download that breaks during the copy is not made up for by the
    next call: [downloadCSVIfNeeded] reports the failure and leaves the
    truncated file, and a later call without [force] finds that file,
    makes no request and returns no error. *)
Theorem interrupted_download_is_not_retried h url filename force d body n err :
  statError h filename = None ->
  IsNotExist (Stat h filename d) || force = true ->
  httpGet h url = Ok (mkResponse 200 body) ->
  createError h filename = None ->
  copyError h body = Some (n, err) ->
  let r1 := downloadCSVIfNeeded h url filename force d in
  let r2 := downloadCSVIfNeeded h url filename false r1.2 in
  r1.1 = Some ("error downloading CSV: failed to save CSV: " +:+ err) /\
  files r1.2 !! filename = Some (String.substring 0 n body) /\
  r2.1 = None /\
  files r2.2 = files r1.2 /\
  existsb isGet (newEffects r1.2 r2.2) = false.
Proof.
  intros Hstat Hneed Hget Hcreate Hcopy. cbv zeta.
  assert (H1 : downloadCSVIfNeeded h url filename force d
               = (Some ("error downloading CSV: failed to save CSV: " +:+ err),
                  writeFile filename (String.substring 0 n body)
                    (writeFile filename ""
                       (note (ECreate filename) (note (EGet url) d))))).
  { unfold downloadCSVIfNeeded. rewrite Hneed. unfold downloadCSV.
    rewrite Hget. simpl. rewrite Hcreate, Hcopy. reflexivity. }
  rewrite H1. cbn [fst snd].
  split; [reflexivity|]. split; [apply lookup_insert_eq|].
  unfold downloadCSVIfNeeded, Stat. rewrite Hstat.
  cbn [files writeFile]. rewrite lookup_insert_eq. simpl.
  split; [reflexivity|]. split; [reflexivity|].
  unfold newEffects. simpl. rewrite drop_app_length. reflexivity.
Qed.

Lemma interrupted_download_is_not_retried_witness :
  let r1 := downloadCSVIfNeeded brokenHost "https://example.invalid/index.csv"
                                "modules.csv" true sampleDisk in
  let r2 := downloadCSVIfNeeded brokenHost "https://example.invalid/index.csv"
                                "modules.csv" false r1.2 in
  r1.1 = Some ("error downloading CSV: failed to save CSV: " +:+ "unexpected EOF") /\
  files r1.2 !! "modules.csv"
  = Some (String.substring 0 7 ("ModuleName,RepoURL" +:+ newline)) /\
  r2.1 = None /\
  files r2.2 = files r1.2 /\
  existsb isGet (newEffects r1.2 r2.2) = false.
Proof.
  apply (interrupted_download_is_not_retried brokenHost
           "https://example.invalid/index.csv" "modules.csv" true sampleDisk
           ("ModuleName,RepoURL" +:+ newline) 7%nat "unexpected EOF");
    reflexivity.
Defined.

(** *** The report as a whole *)

(** X25: when [main] has left the gather loop of a run with at least one
    worker (and at most 2^31 records), every entry of the results has a
    last-commit date exactly when it has no error: the report has no entry
    with both, and none with neither. *)
Theorem report_entries_have_error_or_date o quiet numWorkers records w p :
  1 <= numWorkers ->
  Z.of_nat (length records) <= 2 ^ 31 ->
  reachable o quiet numWorkers records w p ->
  p_main p = MDone ->
  Forall (fun r => Error r = "" <-> LastCommitDate r <> "") (p_results p).
Proof.
  intros Hworkers Hfit Hreach Hdone.
  pose proof (done_inv o quiet numWorkers records Hfit w p Hreach Hdone)
    as Hinv.
  destruct (done_results o quiet numWorkers records p Hworkers Hinv Hdone)
    as (_ & _ & Hproduced).
  eapply Forall_impl; [exact Hproduced|].
  intros r [w0 Hr]. rewrite Hr. apply outcome_error_or_date.
Qed.

Lemma report_entries_have_error_or_date_witness :
  Forall (fun r => Error r = "" <-> LastCommitDate r <> "")
         (p_results (runPool mixedOracle true 2 sampleRecords 27
                             (initPool sampleRecords emptyWorld))).
Proof.
  apply (report_entries_have_error_or_date mixedOracle true 2 sampleRecords
                                           emptyWorld).
  - lia.
  - vm_compute. discriminate.
  - apply runPool_reachable. constructor.
  - vm_compute. reflexivity.
Defined.
